(** * Engine and editor excerpts: a shallow embedding and its properties

    The development follows the source files one module at a time:

    - [VulkanCommon]       : Runtime/VulkanRHI/Public/VulkanCommon.h
    - [MiscTrace]          : Runtime/Core/Private/ProfilingDebugging/MiscTrace.cpp
    - [BytePropertyTrackEditor] : Editor/MovieSceneTools/.../BytePropertyTrackEditor.cpp
    - [K2Node_Timeline]    : Editor/BlueprintGraph/Private/K2Node_Timeline.cpp
    - [Int32]              : the arithmetic of [int32] the next files use
    - [MovieSceneCameraCutTrack] : Runtime/MovieSceneTracks/.../MovieSceneCameraCutTrack.cpp
    - [Algo]               : the binary searches the next two files call
    - [MaterialCachedData] : Runtime/Engine/Private/Materials/MaterialCachedData.cpp
    - [FloatingPoint]      : the arithmetic of [float] and [double]
    - [AnimTimeline]       : Editor/Persona/Private/AnimTimeline/SAnimTimeline.cpp

    Conventions.  A [uint64] is a [Z] in [0, 2^64) and its subtraction wraps;
    an [int32] is a [Z] from [INT32_MIN] to [INT32_MAX], and where the code
    adds or multiplies frame numbers or frame counts the wrap-around is
    written out; [float] and [double] are the binary floating-point numbers
    of IEEE 754, rounded to nearest at every operation; a byte is a [Z] in
    [0, 256).  A C++ [check(...)] that fails, an out-of-bounds array access,
    a failing integer division and a write past the end of a buffer are
    explicit results, never silent defaults. *)

From Stdlib Require Import ZArith List Bool Lia Ascii String.
From stdpp Require Import base list gmap sets.
Import ListNotations.

(* ===================================================================== *)
(** ** Runtime/VulkanRHI/Public/VulkanCommon.h                            *)
(* ===================================================================== *)
Module VulkanCommon.

(** [EVulkanBindingType::EType], in declaration order ([Count] included:
    it is a value of the enumeration type like the others). *)
Inductive EType : Set :=
| PackedUniformBuffer
| UniformBuffer
| CombinedImageSampler
| Sampler
| Image
| UniformTexelBuffer
| StorageImage
| StorageTexelBuffer
| StorageBuffer
| InputAttachment
| Count.

(** What a call evaluates to: a returned value, or the fatal assertion
    raised by [check(0)]. *)
Inductive Checked (A : Type) : Type :=
| Returns (a : A)
| CheckFailed.
Arguments Returns {A} a.
Arguments CheckFailed {A}.

(** [GetBindingTypeChar]: the switch of the source, case by case; the
    [default:] branch runs [check(0)]. *)
Definition GetBindingTypeChar (Type_ : EType) : Checked ascii :=
  match Type_ with
  | UniformBuffer        => Returns "b"%char
  | CombinedImageSampler => Returns "c"%char
  | Sampler              => Returns "p"%char
  | Image                => Returns "w"%char
  | UniformTexelBuffer   => Returns "x"%char
  | StorageImage         => Returns "y"%char
  | StorageTexelBuffer   => Returns "z"%char
  | StorageBuffer        => Returns "v"%char
  | InputAttachment      => Returns "a"%char
  | _                    => CheckFailed
  end.

(** The nine kinds the switch lists. *)
Definition listed (t : EType) : bool :=
  match t with
  | PackedUniformBuffer | Count => false
  | _ => true
  end.

(** C8.  Each listed descriptor binding kind is mapped to exactly its
    single-character code -- UniformBuffer to b, CombinedImageSampler to c,
    Sampler to p, Image to w, UniformTexelBuffer to x, StorageImage to y,
    StorageTexelBuffer to z, StorageBuffer to v, InputAttachment to a --
    and asking for the code of any other kind ([PackedUniformBuffer]
    included) ends in the assertion failure: no character is returned
    for it. *)
Theorem GetBindingTypeChar_codes :
  GetBindingTypeChar UniformBuffer = Returns "b"%char
  /\ GetBindingTypeChar CombinedImageSampler = Returns "c"%char
  /\ GetBindingTypeChar Sampler = Returns "p"%char
  /\ GetBindingTypeChar Image = Returns "w"%char
  /\ GetBindingTypeChar UniformTexelBuffer = Returns "x"%char
  /\ GetBindingTypeChar StorageImage = Returns "y"%char
  /\ GetBindingTypeChar StorageTexelBuffer = Returns "z"%char
  /\ GetBindingTypeChar StorageBuffer = Returns "v"%char
  /\ GetBindingTypeChar InputAttachment = Returns "a"%char
  /\ GetBindingTypeChar PackedUniformBuffer = CheckFailed
  /\ (forall t, listed t = false <-> GetBindingTypeChar t = CheckFailed)
  /\ (forall t c, GetBindingTypeChar t = Returns c -> listed t = true).
Proof.
  repeat split; try reflexivity.
  - destruct t; simpl; intros H; try discriminate; reflexivity.
  - destruct t; simpl; intros H; try discriminate; reflexivity.
  - destruct t; simpl in *; try discriminate; reflexivity.
Qed.

(** Two listed kinds never share a code. *)
Lemma GetBindingTypeChar_injective (t1 t2 : EType) (c : ascii) :
  GetBindingTypeChar t1 = Returns c ->
  GetBindingTypeChar t2 = Returns c -> t1 = t2.
Proof.
  intros H1 H2.
  destruct t1; simpl in H1; inversion H1; subst;
    destruct t2; simpl in H2; inversion H2; reflexivity.
Qed.

(** *** Shader stages *)

(** The two preprocessor switches the namespace [ShaderStage] reads.  The
    tessellation stages are declared inside the block of the geometry
    stage, so a configuration that compiles has tessellation only together
    with geometry shaders. *)
Record Configuration : Set := mkConfiguration {
  VULKAN_SUPPORTS_GEOMETRY_SHADERS : bool;
  PLATFORM_SUPPORTS_TESSELLATION_SHADERS : bool
}.

Definition compiles (c : Configuration) : Prop :=
  PLATFORM_SUPPORTS_TESSELLATION_SHADERS c = true -> VULKAN_SUPPORTS_GEOMETRY_SHADERS c = true.

(** [ShaderStage::EStage], an unscoped enumeration: its enumerators are
    integers, and [Compute] is the same value as [Vertex]. *)
Definition EStage : Set := Z.
Definition Vertex : EStage := 0%Z.
Definition Pixel : EStage := 1%Z.
Definition Geometry : EStage := 2%Z.
Definition Hull : EStage := 3%Z.
Definition Domain : EStage := 4%Z.
Definition Compute : EStage := 0%Z.
Definition Invalid : EStage := (-1)%Z.

(** [NumStages]: the enumerator after the last graphics stage declared. *)
Definition NumStages (c : Configuration) : EStage :=
  if VULKAN_SUPPORTS_GEOMETRY_SHADERS c
  then (if PLATFORM_SUPPORTS_TESSELLATION_SHADERS c then 5%Z else 3%Z)
  else 2%Z.

Definition MaxNumSets (c : Configuration) : EStage :=
  if VULKAN_SUPPORTS_GEOMETRY_SHADERS c then 8%Z else 4%Z.

(** [EShaderFrequency] of RHIDefinitions.h, which is not among the
    sources: the six frequencies the switches name, the ray tracing ones,
    and [SF_NumFrequencies]. *)
Inductive EShaderFrequency : Set :=
| SF_Vertex
| SF_Hull
| SF_Domain
| SF_Pixel
| SF_Geometry
| SF_Compute
| SF_RayGen
| SF_RayMiss
| SF_RayHitGroup
| SF_RayCallable
| SF_NumFrequencies.

(** [ShaderStage::GetStageForFrequency]; [checkf(0, ...)] of the default
    branch is the fatal assertion. *)
Definition GetStageForFrequency (c : Configuration) (Stage : EShaderFrequency) : Checked EStage :=
  match Stage with
  | SF_Vertex => Returns Vertex
  | SF_Hull => if PLATFORM_SUPPORTS_TESSELLATION_SHADERS c then Returns Hull else CheckFailed
  | SF_Domain => if PLATFORM_SUPPORTS_TESSELLATION_SHADERS c then Returns Domain else CheckFailed
  | SF_Pixel => Returns Pixel
  | SF_Geometry => if VULKAN_SUPPORTS_GEOMETRY_SHADERS c then Returns Geometry else CheckFailed
  | SF_Compute => Returns Compute
  | _ => CheckFailed
  end.

(** [ShaderStage::GetFrequencyForGfxStage]: a switch over the integer value
    of the stage. *)
Definition GetFrequencyForGfxStage (c : Configuration) (Stage : EStage)
    : Checked EShaderFrequency :=
  if (Stage =? Vertex)%Z then Returns SF_Vertex
  else if PLATFORM_SUPPORTS_TESSELLATION_SHADERS c && (Stage =? Hull)%Z then Returns SF_Hull
  else if PLATFORM_SUPPORTS_TESSELLATION_SHADERS c && (Stage =? Domain)%Z then Returns SF_Domain
  else if (Stage =? Pixel)%Z then Returns SF_Pixel
  else if VULKAN_SUPPORTS_GEOMETRY_SHADERS c && (Stage =? Geometry)%Z then Returns SF_Geometry
  else CheckFailed.

Example GetStageForFrequency_mobile :
  GetStageForFrequency (mkConfiguration false false) SF_Geometry = CheckFailed
  /\ GetStageForFrequency (mkConfiguration false false) SF_Pixel = Returns 1%Z.
Proof. split; reflexivity. Qed.

(** X1.  In every configuration the two stage mappings are inverse to
    each other on the graphics stages: a graphics frequency that has a
    stage is given back by [GetFrequencyForGfxStage], and a stage that has
    a frequency is given back by [GetStageForFrequency].  Compute is the
    exception by construction: its stage is slot 0, the value of the vertex
    stage, so mapping it back gives the vertex frequency.  In a
    configuration that compiles, every stage returned is a slot below
    [NumStages]. *)
Theorem GetFrequencyForGfxStage_GetStageForFrequency (c : Configuration) :
  (forall f s, GetStageForFrequency c f = Returns s -> f <> SF_Compute ->
               GetFrequencyForGfxStage c s = Returns f)
  /\ (forall s f, GetFrequencyForGfxStage c s = Returns f ->
                  GetStageForFrequency c f = Returns s /\ f <> SF_Compute)
  /\ (GetStageForFrequency c SF_Compute = Returns Vertex
      /\ GetFrequencyForGfxStage c Compute = Returns SF_Vertex)
  /\ (compiles c ->
      forall f s, GetStageForFrequency c f = Returns s -> (0 <= s < NumStages c)%Z).
Proof.
  destruct c as [geom tess]. unfold compiles. cbn [PLATFORM_SUPPORTS_TESSELLATION_SHADERS
    VULKAN_SUPPORTS_GEOMETRY_SHADERS].
  split; [| split; [| split]].
  - intros f s Hs Hf.
    destruct f, geom, tess; cbn in Hs; try discriminate Hs;
      try (injection Hs as <-; reflexivity); contradiction.
  - intros s f. unfold GetFrequencyForGfxStage, GetStageForFrequency.
    cbn [PLATFORM_SUPPORTS_TESSELLATION_SHADERS VULKAN_SUPPORTS_GEOMETRY_SHADERS].
    destruct geom, tess; cbn [andb];
      repeat (match goal with
              | |- context [(s =? ?b)%Z] => destruct (Z.eqb_spec s b)
              end);
      intros H; try discriminate H; injection H as <-; subst;
      (split; [reflexivity | discriminate]).
  - split; reflexivity.
  - intros Hc f s Hs.
    destruct f, geom, tess; cbn in Hs; try discriminate Hs;
      try (injection Hs as <-; cbn; unfold Vertex, Pixel, Geometry, Hull, Domain, Compute; lia);
      specialize (Hc eq_refl); discriminate.
Qed.

(** X2.  Two different binding kinds that have a code never have the same
    code: the character identifies the kind. *)
Theorem GetBindingTypeChar_distinct (t1 t2 : EType) (c1 c2 : ascii) :
  GetBindingTypeChar t1 = Returns c1 ->
  GetBindingTypeChar t2 = Returns c2 ->
  t1 <> t2 -> c1 <> c2.
Proof.
  intros H1 H2 Hne Hc. subst c2. apply Hne.
  destruct t1; cbn in H1; try discriminate H1; injection H1 as <-;
    destruct t2; cbn in H2; try discriminate H2; try reflexivity; discriminate H2.
Qed.

Lemma GetBindingTypeChar_distinct_witness : "b"%char <> "v"%char.
Proof.
  apply (GetBindingTypeChar_distinct UniformBuffer StorageBuffer);
    [reflexivity | reflexivity | discriminate].
Defined.

End VulkanCommon.

(* ===================================================================== *)
(** ** Runtime/Core/Private/ProfilingDebugging/MiscTrace.cpp              *)
(* ===================================================================== *)
Module MiscTrace.
Local Open Scope Z_scope.

(** [ETraceFrameType]; [TraceFrameType_Count] is the number of frame
    kinds and the size of [LastFrameCycle]. *)
Inductive ETraceFrameType : Set :=
| TraceFrameType_Game
| TraceFrameType_Rendering
| TraceFrameType_Count.

(** The enumerator's value, used as the array index. *)
Definition frame_index (FrameType : ETraceFrameType) : nat :=
  match FrameType with
  | TraceFrameType_Game => 0%nat
  | TraceFrameType_Rendering => 1%nat
  | TraceFrameType_Count => 2%nat
  end.

(** The four frame events declared with [UE_TRACE_EVENT_BEGIN(Misc, ...)]. *)
Inductive FrameEvent : Set :=
| BeginGameFrame
| EndGameFrame
| BeginRenderFrame
| EndRenderFrame.

(** One record written by [UE_TRACE_LOG(Misc, Event, FrameChannel, BufferSize)
    << Event.Attachment(&Buffer, BufferSize)]. *)
Record TraceRecord : Set := mkTraceRecord {
  Event : FrameEvent;
  Attachment : list Z;
  AttachmentSize : Z
}.

(** [FMiscTraceInternal::LastFrameCycle], initialised to [{ 0, 0 }]. *)
Definition LastFrameCycle_init : list Z := [0; 0].

Definition uint64_wrap (x : Z) : Z := x mod 2 ^ 64.
Definition uint16_cast (x : Z) : Z := x mod 2 ^ 16.

(** Modelled from the spec: [FTraceUtils::Encode7bit], declared in
    MiscTrace.h, is not among the sources; the specification calls it the
    7-bit variable-length encoding of an unsigned integer.  It is the usual
    one: seven payload bits per byte, least significant group first, the
    high bit of a byte set when more bytes follow; the loop body runs at
    least once (a do-while).  Ten rounds exhaust any 64-bit value. *)
Fixpoint Encode7bit_loop (rounds : nat) (Value : Z) : list Z :=
  match rounds with
  | O => []
  | S rounds' =>
      let HasMoreBytes := Z.shiftl (Z.b2z (127 <? Value)) 7 in
      let Byte := Z.lor (Z.land Value 127) HasMoreBytes in
      let Value' := Z.shiftr Value 7 in
      Byte :: (if 0 <? Value' then Encode7bit_loop rounds' Value' else [])
  end.

Definition Encode7bit (Value : Z) : list Z := Encode7bit_loop 10 Value.

Arguments Encode7bit : simpl never.
Arguments uint64_wrap : simpl never.
Arguments uint16_cast : simpl never.

(** The matching decoder, used only to check the encoder above. *)
Fixpoint Decode7bit (Bytes : list Z) : Z :=
  match Bytes with
  | [] => 0
  | b :: rest => Z.land b 127 + 128 * Decode7bit rest
  end.

(** The size of the scratch buffer, [uint8 Buffer[9]]. *)
Definition BufferCapacity : nat := 9.

(** How a call ends: normally, with the new [LastFrameCycle] and the
    records it emitted; or in one of the two undefined behaviours the body
    can reach, an index past [LastFrameCycle] or a write past [Buffer]. *)
Inductive Outcome : Set :=
| Done (LastFrameCycle : list Z) (Emitted : list TraceRecord)
| IndexOutOfBounds
| BufferOverrun.

(** [FMiscTrace::OutputBeginFrame].  [FrameChannelEnabled] is
    [UE_TRACE_CHANNELEXPR_IS_ENABLED(FrameChannel)] and [Cycles64] what
    [FPlatformTime::Cycles64()] returns at the call. *)
Definition OutputBeginFrame (FrameChannelEnabled : bool) (Cycles64 : Z)
    (FrameType : ETraceFrameType) (LastFrameCycle : list Z) : Outcome :=
  if negb FrameChannelEnabled then Done LastFrameCycle []
  else
    let Cycle := Cycles64 in
    match LastFrameCycle !! frame_index FrameType with
    | None => IndexOutOfBounds
    | Some Last =>
        let CycleDiff := uint64_wrap (Cycle - Last) in
        let LastFrameCycle' := <[frame_index FrameType := Cycle]> LastFrameCycle in
        let Buffer := Encode7bit CycleDiff in
        if (BufferCapacity <? length Buffer)%nat then BufferOverrun
        else
          let BufferSize := uint16_cast (Z.of_nat (length Buffer)) in
          match FrameType with
          | TraceFrameType_Game =>
              Done LastFrameCycle' [mkTraceRecord BeginGameFrame Buffer BufferSize]
          | TraceFrameType_Rendering =>
              Done LastFrameCycle' [mkTraceRecord BeginRenderFrame Buffer BufferSize]
          | TraceFrameType_Count => Done LastFrameCycle' []
          end
    end.

(** [FMiscTrace::OutputEndFrame]. *)
Definition OutputEndFrame (FrameChannelEnabled : bool) (Cycles64 : Z)
    (FrameType : ETraceFrameType) (LastFrameCycle : list Z) : Outcome :=
  if negb FrameChannelEnabled then Done LastFrameCycle []
  else
    let Cycle := Cycles64 in
    match LastFrameCycle !! frame_index FrameType with
    | None => IndexOutOfBounds
    | Some Last =>
        let CycleDiff := uint64_wrap (Cycle - Last) in
        let LastFrameCycle' := <[frame_index FrameType := Cycle]> LastFrameCycle in
        let Buffer := Encode7bit CycleDiff in
        if (BufferCapacity <? length Buffer)%nat then BufferOverrun
        else
          let BufferSize := uint16_cast (Z.of_nat (length Buffer)) in
          match FrameType with
          | TraceFrameType_Game =>
              Done LastFrameCycle' [mkTraceRecord EndGameFrame Buffer BufferSize]
          | TraceFrameType_Rendering =>
              Done LastFrameCycle' [mkTraceRecord EndRenderFrame Buffer BufferSize]
          | TraceFrameType_Count => Done LastFrameCycle' []
          end
    end.

(** The event a begin (resp. end) call of a frame kind logs. *)
Definition begin_event (FrameType : ETraceFrameType) : FrameEvent :=
  match FrameType with
  | TraceFrameType_Game => BeginGameFrame
  | _ => BeginRenderFrame
  end.

Definition end_event (FrameType : ETraceFrameType) : FrameEvent :=
  match FrameType with
  | TraceFrameType_Game => EndGameFrame
  | _ => EndRenderFrame
  end.

Example Encode7bit_300 : Encode7bit 300 = [172; 2].
Proof. reflexivity. Qed.

Example OutputBeginFrame_first_game_frame :
  OutputBeginFrame true 300 TraceFrameType_Game LastFrameCycle_init
  = Done [300; 0] [mkTraceRecord BeginGameFrame [172; 2] 2].
Proof. reflexivity. Qed.

(** *** The encoder *)

Lemma shiftr7_div (v : Z) : Z.shiftr v 7 = v / 128.
Proof. rewrite Z.shiftr_div_pow2 by lia. reflexivity. Qed.

Lemma Encode7bit_loop_length_pos (n : nat) (v : Z) :
  (1 <= length (Encode7bit_loop (S n) v))%nat.
Proof. simpl. lia. Qed.

(** A value below [2^(7k)] takes at most [k] bytes. *)
Lemma Encode7bit_loop_length_le (n : nat) :
  forall (k : nat) (v : Z),
    (1 <= k)%nat -> 0 <= v < 2 ^ (7 * Z.of_nat k) ->
    (length (Encode7bit_loop n v) <= k)%nat.
Proof.
  induction n as [| n IH]; intros k v Hk Hv; [simpl; lia |].
  cbn [Encode7bit_loop length]. rewrite shiftr7_div.
  destruct (0 <? v / 128) eqn:Hq; [| simpl; lia].
  apply Z.ltb_lt in Hq.
  destruct k as [| [| k]]; [lia | |].
  - change (2 ^ (7 * Z.of_nat 1)) with 128 in Hv.
    rewrite Z.div_small in Hq by lia. lia.
  - specialize (IH (S k) (v / 128)).
    assert (Hlt : 0 <= v / 128 < 2 ^ (7 * Z.of_nat (S k))).
    { split; [lia |].
      apply Z.div_lt_upper_bound; [lia |].
      replace (128 * 2 ^ (7 * Z.of_nat (S k))) with (2 ^ (7 * Z.of_nat (S (S k)))); [lia |].
      replace (7 * Z.of_nat (S (S k))) with (7 + 7 * Z.of_nat (S k)) by lia.
      rewrite Z.pow_add_r by lia. reflexivity. }
    specialize (IH ltac:(lia) Hlt). lia.
Qed.

(** A value of at least [2^(7(n-1))] uses all [n] rounds. *)
Lemma Encode7bit_loop_length_full (n : nat) :
  forall v : Z, 2 ^ (7 * Z.of_nat n) <= v ->
                length (Encode7bit_loop (S n) v) = S n.
Proof.
  induction n as [| n IH]; intros v Hv.
  - cbn [Encode7bit_loop length]. destruct (0 <? Z.shiftr v 7); reflexivity.
  - cbn [Encode7bit_loop length]. rewrite shiftr7_div.
    assert (Hq : 2 ^ (7 * Z.of_nat n) <= v / 128).
    { apply Z.div_le_lower_bound; [lia |].
      replace (128 * 2 ^ (7 * Z.of_nat n)) with (2 ^ (7 * Z.of_nat (S n))); [lia |].
      replace (7 * Z.of_nat (S n)) with (7 + 7 * Z.of_nat n) by lia.
      rewrite Z.pow_add_r by lia. reflexivity. }
    assert (0 < 2 ^ (7 * Z.of_nat n)) by (apply Z.pow_pos_nonneg; lia).
    destruct (0 <? v / 128) eqn:Hpos; [| apply Z.ltb_ge in Hpos; lia].
    f_equal. apply (IH _ Hq).
Qed.

Lemma payload_of_byte (v : Z) (more : bool) :
  Z.land (Z.lor (Z.land v 127) (Z.shiftl (Z.b2z more) 7)) 127 = v mod 128.
Proof.
  rewrite Z.land_lor_distr_l.
  replace (Z.land (Z.shiftl (Z.b2z more) 7) 127) with 0 by (destruct more; reflexivity).
  rewrite Z.lor_0_r, <- Z.land_assoc.
  change (Z.land 127 127) with (Z.ones 7).
  rewrite Z.land_ones by lia. reflexivity.
Qed.

(** Decoding gives the encoded value back: the model is an encoding. *)
Lemma Decode7bit_Encode7bit_loop (n : nat) :
  forall v : Z, 0 <= v < 2 ^ (7 * Z.of_nat n) ->
                Decode7bit (Encode7bit_loop n v) = v.
Proof.
  induction n as [| n IH]; intros v Hv.
  - change (2 ^ (7 * Z.of_nat 0)) with 1 in Hv. simpl. lia.
  - cbn [Encode7bit_loop Decode7bit]. rewrite payload_of_byte, shiftr7_div.
    destruct (0 <? v / 128) eqn:Hq.
    + rewrite IH.
      * pose proof (Z.div_mod v 128). lia.
      * split; [apply Z.div_pos; lia |].
        apply Z.div_lt_upper_bound; [lia |].
        replace (128 * 2 ^ (7 * Z.of_nat n)) with (2 ^ (7 * Z.of_nat (S n))); [lia |].
        replace (7 * Z.of_nat (S n)) with (7 + 7 * Z.of_nat n) by lia.
        rewrite Z.pow_add_r by lia. reflexivity.
    + apply Z.ltb_ge in Hq. cbn [Decode7bit].
      assert (v / 128 = 0) by (pose proof (Z.div_pos v 128); lia).
      pose proof (Z.div_mod v 128). lia.
Qed.

Lemma Decode7bit_Encode7bit (v : Z) :
  0 <= v < 2 ^ 64 -> Decode7bit (Encode7bit v) = v.
Proof.
  intros Hv. apply Decode7bit_Encode7bit_loop.
  change (2 ^ (7 * Z.of_nat 10)) with (2 ^ 70). lia.
Qed.

Lemma Encode7bit_length_small (v : Z) :
  0 <= v < 2 ^ 63 -> (1 <= length (Encode7bit v) <= 9)%nat.
Proof.
  intros Hv. split; [apply Encode7bit_loop_length_pos |].
  apply Encode7bit_loop_length_le; [lia |].
  change (2 ^ (7 * Z.of_nat 9)) with (2 ^ 63). exact Hv.
Qed.

Lemma Encode7bit_length_large (v : Z) :
  2 ^ 63 <= v -> length (Encode7bit v) = 10%nat.
Proof.
  intros Hv. apply (Encode7bit_loop_length_full 9).
  change (2 ^ (7 * Z.of_nat 9)) with (2 ^ 63). exact Hv.
Qed.

(** *** Begin and end of a frame *)

(** A sequence of begin/end calls, each with what the channel test and the
    cycle counter gave at that call. *)
Record FrameCall : Set := mkFrameCall {
  IsBegin : bool;
  CallFrameType : ETraceFrameType;
  CallChannelEnabled : bool;
  CallCycles64 : Z
}.

Definition run_call (c : FrameCall) (LastFrameCycle : list Z) : Outcome :=
  if IsBegin c
  then OutputBeginFrame (CallChannelEnabled c) (CallCycles64 c) (CallFrameType c) LastFrameCycle
  else OutputEndFrame (CallChannelEnabled c) (CallCycles64 c) (CallFrameType c) LastFrameCycle.

Fixpoint run_calls (cs : list FrameCall) (LastFrameCycle : list Z) : Outcome :=
  match cs with
  | [] => Done LastFrameCycle []
  | c :: cs' =>
      match run_call c LastFrameCycle with
      | Done L1 E1 =>
          match run_calls cs' L1 with
          | Done L2 E2 => Done L2 (E1 ++ E2)
          | failed => failed
          end
      | failed => failed
      end
  end.

(** The cycle of the last call of the sequence that was made for
    [FrameType] with the channel enabled, [Last] when there is none. *)
Fixpoint last_enabled_cycle (FrameType : ETraceFrameType) (cs : list FrameCall) (Last : Z) : Z :=
  match cs with
  | [] => Last
  | c :: cs' =>
      last_enabled_cycle FrameType cs'
        (if CallChannelEnabled c && Nat.eqb (frame_index (CallFrameType c)) (frame_index FrameType)
         then CallCycles64 c else Last)
  end.

Lemma Done_inj (L L' : list Z) (E E' : list TraceRecord) :
  Done L E = Done L' E' -> L = L' /\ E = E'.
Proof. intros H. injection H. auto. Qed.

Ltac frame_call_done H :=
  lazymatch type of H with
  | context [negb ?b] => destruct b; cbn [negb] in H
  end;
  [ lazymatch type of H with
    | context [?L !! ?i] =>
        let Hl := fresh "Hl" in
        destruct (L !! i) eqn:Hl; [| discriminate H];
        cbv zeta in H;
        lazymatch type of H with
        | context [(?a <? ?b)%nat] => destruct (a <? b)%nat; [discriminate H |]
        end;
        split; [| eexists; reflexivity];
        lazymatch type of H with
        | context [match ?ft with TraceFrameType_Game => _ | _ => _ end] =>
            destruct ft; apply Done_inj in H as [H _]; symmetry; exact H
        end
    end
  | apply Done_inj in H as [H _]; split; [symmetry; exact H | discriminate] ].

Lemma OutputBeginFrame_Done (on : bool) (Cycle : Z) (FrameType : ETraceFrameType)
    (L L' : list Z) (E : list TraceRecord) :
  OutputBeginFrame on Cycle FrameType L = Done L' E ->
  L' = (if on then <[frame_index FrameType := Cycle]> L else L)
  /\ (on = true -> is_Some (L !! frame_index FrameType)).
Proof.
  intros H. unfold OutputBeginFrame in H. frame_call_done H.
Qed.

Lemma OutputEndFrame_Done (on : bool) (Cycle : Z) (FrameType : ETraceFrameType)
    (L L' : list Z) (E : list TraceRecord) :
  OutputEndFrame on Cycle FrameType L = Done L' E ->
  L' = (if on then <[frame_index FrameType := Cycle]> L else L)
  /\ (on = true -> is_Some (L !! frame_index FrameType)).
Proof.
  intros H. unfold OutputEndFrame in H. frame_call_done H.
Qed.

Lemma run_call_LastFrameCycle (c : FrameCall) (L L' : list Z) (E : list TraceRecord)
    (FrameType : ETraceFrameType) (Last : Z) :
  run_call c L = Done L' E ->
  L !! frame_index FrameType = Some Last ->
  L' !! frame_index FrameType
  = Some (if CallChannelEnabled c && Nat.eqb (frame_index (CallFrameType c)) (frame_index FrameType)
          then CallCycles64 c else Last).
Proof.
  intros Hrun Hlast.
  assert (Hshape : L' = (if CallChannelEnabled c
                         then <[frame_index (CallFrameType c) := CallCycles64 c]> L else L)
                   /\ (CallChannelEnabled c = true -> is_Some (L !! frame_index (CallFrameType c)))).
  { unfold run_call in Hrun. destruct (IsBegin c).
    - eapply OutputBeginFrame_Done; exact Hrun.
    - eapply OutputEndFrame_Done; exact Hrun. }
  destruct Hshape as [-> Hsome].
  destruct (CallChannelEnabled c); cbn [andb]; [| exact Hlast].
  destruct (Nat.eqb_spec (frame_index (CallFrameType c)) (frame_index FrameType)) as [He | Hne].
  - rewrite <- He. apply list_lookup_insert_eq.
    destruct (Hsome eq_refl) as [x Hx]. apply lookup_lt_Some in Hx. exact Hx.
  - rewrite list_lookup_insert_ne by exact Hne. exact Hlast.
Qed.

(** Over any sequence of calls that ends normally, the stored cycle of a
    frame kind is the cycle of the last enabled call made for that kind:
    the delta of an enabled call is taken from there. *)
Lemma run_calls_LastFrameCycle (cs : list FrameCall) :
  forall (L L' : list Z) (E : list TraceRecord) (FrameType : ETraceFrameType) (Last : Z),
    run_calls cs L = Done L' E ->
    L !! frame_index FrameType = Some Last ->
    L' !! frame_index FrameType = Some (last_enabled_cycle FrameType cs Last).
Proof.
  induction cs as [| c cs IH]; intros L L' E FrameType Last Hrun Hlast.
  - simpl in Hrun. inversion Hrun; subst. exact Hlast.
  - simpl in Hrun.
    destruct (run_call c L) as [L1 E1 | |] eqn:Hc; try discriminate.
    destruct (run_calls cs L1) as [L2 E2 | |] eqn:Hcs; try discriminate.
    inversion Hrun; subst.
    simpl. eapply IH; [exact Hcs |].
    eapply run_call_LastFrameCycle; eassumption.
Qed.

(** C5.  What the two calls do for a frame kind (game or rendering).  With
    the frame channel disabled, [OutputBeginFrame] and [OutputEndFrame]
    emit nothing and leave [LastFrameCycle] as it was.  With the channel
    enabled, and the cycle delta since the stored cycle of that kind below
    [2^63], each call emits exactly one record, of the begin (resp. end)
    event of that kind, whose attachment is the 7-bit variable-length
    encoding of the delta, of one to nine bytes, and it stores the current
    cycle for that kind and leaves the other kind's stored cycle alone.
    With the channel enabled and a delta of [2^63] or more, the encoding is
    ten bytes long and the call writes past the nine bytes of [Buffer]: no
    record of at most nine bytes is emitted. *)
Theorem OutputFrame_effect (FrameType : ETraceFrameType) (LastFrameCycle : list Z)
    (Last Cycle : Z) :
  FrameType <> TraceFrameType_Count ->
  LastFrameCycle !! frame_index FrameType = Some Last ->
  (OutputBeginFrame false Cycle FrameType LastFrameCycle = Done LastFrameCycle []
   /\ OutputEndFrame false Cycle FrameType LastFrameCycle = Done LastFrameCycle [])
  /\ (uint64_wrap (Cycle - Last) < 2 ^ 63 ->
      let Bytes := Encode7bit (uint64_wrap (Cycle - Last)) in
      let LastFrameCycle' := <[frame_index FrameType := Cycle]> LastFrameCycle in
      OutputBeginFrame true Cycle FrameType LastFrameCycle
      = Done LastFrameCycle' [mkTraceRecord (begin_event FrameType) Bytes (Z.of_nat (length Bytes))]
      /\ OutputEndFrame true Cycle FrameType LastFrameCycle
         = Done LastFrameCycle' [mkTraceRecord (end_event FrameType) Bytes (Z.of_nat (length Bytes))]
      /\ (1 <= length Bytes <= 9)%nat
      /\ Decode7bit Bytes = uint64_wrap (Cycle - Last)
      /\ LastFrameCycle' !! frame_index FrameType = Some Cycle
      /\ (forall Other, frame_index Other <> frame_index FrameType ->
            LastFrameCycle' !! frame_index Other = LastFrameCycle !! frame_index Other))
  /\ (2 ^ 63 <= uint64_wrap (Cycle - Last) ->
      length (Encode7bit (uint64_wrap (Cycle - Last))) = 10%nat
      /\ OutputBeginFrame true Cycle FrameType LastFrameCycle = BufferOverrun
      /\ OutputEndFrame true Cycle FrameType LastFrameCycle = BufferOverrun).
Proof.
  intros Hkind Hlast. split; [split; reflexivity |].
  split; cycle 1.
  { intros Hdelta. pose proof (Encode7bit_length_large _ Hdelta) as Hlen.
    split; [exact Hlen |].
    unfold OutputBeginFrame, OutputEndFrame. simpl negb. cbv iota.
    rewrite Hlast. cbv zeta. rewrite Hlen. split; reflexivity. }
  intros Hdelta Bytes LastFrameCycle'.
  assert (Hrange : 0 <= uint64_wrap (Cycle - Last) < 2 ^ 63).
  { split; [| exact Hdelta]. unfold uint64_wrap. apply Z.mod_pos_bound. lia. }
  pose proof (Encode7bit_length_small _ Hrange) as Hlen. fold Bytes in Hlen.
  assert (Hfit : (BufferCapacity <? length Bytes)%nat = false)
    by (apply Nat.ltb_ge; unfold BufferCapacity; lia).
  assert (Hsize : uint16_cast (Z.of_nat (length Bytes)) = Z.of_nat (length Bytes)).
  { unfold uint16_cast. apply Z.mod_small. lia. }
  repeat split.
  - unfold OutputBeginFrame. simpl negb. cbv iota. rewrite Hlast. cbv zeta.
    fold Bytes. rewrite Hfit, Hsize.
    destruct FrameType; [reflexivity | reflexivity | contradiction].
  - unfold OutputEndFrame. simpl negb. cbv iota. rewrite Hlast. cbv zeta.
    fold Bytes. rewrite Hfit, Hsize.
    destruct FrameType; [reflexivity | reflexivity | contradiction].
  - lia.
  - lia.
  - apply Decode7bit_Encode7bit. lia.
  - apply list_lookup_insert_eq. apply lookup_lt_Some in Hlast. exact Hlast.
  - intros Other Hne. apply list_lookup_insert_ne. congruence.
Qed.

Lemma OutputFrame_effect_witness :
  OutputBeginFrame true 300 TraceFrameType_Game [0; 0]
  = Done [300; 0] [mkTraceRecord BeginGameFrame [172; 2] 2]
  /\ OutputEndFrame false 300 TraceFrameType_Game [0; 0] = Done [0; 0] [].
Proof.
  destruct (OutputFrame_effect TraceFrameType_Game [0; 0] 0 300
              ltac:(discriminate) eq_refl) as ([_ Hoff] & Hon & _).
  split; [| exact Hoff].
  destruct (Hon ltac:(reflexivity)) as [Hbegin _]. exact Hbegin.
Defined.

(** A first game frame at cycle [2^63] has a delta whose encoding is ten
    bytes long, one more than [Buffer] holds, so the call does not end with
    one record of at most nine bytes. *)
Lemma OutputBeginFrame_delta_of_ten_bytes :
  length (Encode7bit (uint64_wrap (2 ^ 63 - 0))) = 10%nat
  /\ OutputBeginFrame true (2 ^ 63) TraceFrameType_Game LastFrameCycle_init = BufferOverrun
  /\ ~ (exists L r,
          OutputBeginFrame true (2 ^ 63) TraceFrameType_Game LastFrameCycle_init = Done L [r]
          /\ (length (Attachment r) <= 9)%nat).
Proof.
  split; [vm_compute; reflexivity |].
  split; [vm_compute; reflexivity |].
  intros (L & r & H & _).
  assert (Hc : OutputBeginFrame true (2 ^ 63) TraceFrameType_Game LastFrameCycle_init
               = BufferOverrun) by (vm_compute; reflexivity).
  rewrite Hc in H. discriminate.
Qed.

(** *** Sequences of frame calls *)

(** The frame kind of an event. *)
Definition event_kind (e : FrameEvent) : ETraceFrameType :=
  match e with
  | BeginGameFrame | EndGameFrame => TraceFrameType_Game
  | BeginRenderFrame | EndRenderFrame => TraceFrameType_Rendering
  end.

#[global] Instance ETraceFrameType_eq_dec : EqDecision ETraceFrameType.
Proof. solve_decision. Defined.

(** What a reader of the trace decodes for a frame kind: the deltas of the
    records of that kind, in the order they were written. *)
Definition decoded_deltas (FrameType : ETraceFrameType) (Emitted : list TraceRecord) : list Z :=
  map (fun r => Decode7bit (Attachment r))
      (filter (fun r => event_kind (Event r) = FrameType) Emitted).

Definition total (deltas : list Z) : Z := fold_right Z.add 0 deltas.

(** A cycle counter that never runs backwards: the calls read cycles that
    do not decrease, starting at [t] or later. *)
Fixpoint clock_from (t : Z) (cs : list FrameCall) : Prop :=
  match cs with
  | [] => True
  | c :: cs' => t <= CallCycles64 c /\ clock_from (CallCycles64 c) cs'
  end.

Lemma total_app (xs ys : list Z) : total (xs ++ ys) = total xs + total ys.
Proof. unfold total. induction xs as [| x xs IH]; cbn; [reflexivity | rewrite IH; lia]. Qed.

Lemma decoded_deltas_app (FrameType : ETraceFrameType) (E1 E2 : list TraceRecord) :
  decoded_deltas FrameType (E1 ++ E2)
  = decoded_deltas FrameType E1 ++ decoded_deltas FrameType E2.
Proof. unfold decoded_deltas. rewrite filter_app, map_app. reflexivity. Qed.

Lemma run_call_disabled (c : FrameCall) (L : list Z) :
  CallChannelEnabled c = false -> run_call c L = Done L [].
Proof.
  intros Hoff. unfold run_call, OutputBeginFrame, OutputEndFrame. rewrite Hoff.
  destruct (IsBegin c); reflexivity.
Qed.

Lemma run_call_enabled (c : FrameCall) (L : list Z) (Last : Z) :
  CallChannelEnabled c = true ->
  CallFrameType c <> TraceFrameType_Count ->
  L !! frame_index (CallFrameType c) = Some Last ->
  0 <= Last <= CallCycles64 c -> CallCycles64 c < 2 ^ 63 ->
  exists r,
    run_call c L = Done (<[frame_index (CallFrameType c) := CallCycles64 c]> L) [r]
    /\ event_kind (Event r) = CallFrameType c
    /\ Decode7bit (Attachment r) = CallCycles64 c - Last.
Proof.
  intros Hon Hkind Hlast Hle Hlt.
  assert (Hwrap : uint64_wrap (CallCycles64 c - Last) = CallCycles64 c - Last).
  { unfold uint64_wrap. apply Z.mod_small. lia. }
  pose proof (Encode7bit_length_small (CallCycles64 c - Last) ltac:(lia)) as Hlen.
  assert (Hfit : (BufferCapacity <? length (Encode7bit (CallCycles64 c - Last)))%nat = false)
    by (apply Nat.ltb_ge; unfold BufferCapacity; lia).
  assert (Hdec : Decode7bit (Encode7bit (CallCycles64 c - Last)) = CallCycles64 c - Last)
    by (apply Decode7bit_Encode7bit; lia).
  unfold run_call, OutputBeginFrame, OutputEndFrame.
  rewrite Hon. cbn [negb]. rewrite Hlast. cbv zeta. rewrite Hwrap, Hfit.
  destruct (IsBegin c), (CallFrameType c); try contradiction;
    (eexists; split; [reflexivity | split; [reflexivity | exact Hdec]]).
Qed.

Lemma decoded_deltas_one (FrameType : ETraceFrameType) (r : TraceRecord) :
  decoded_deltas FrameType [r]
  = if decide (event_kind (Event r) = FrameType) then [Decode7bit (Attachment r)] else [].
Proof.
  unfold decoded_deltas. rewrite filter_cons, filter_nil.
  destruct (decide (event_kind (Event r) = FrameType)); reflexivity.
Qed.

(** X3.  With a cycle counter that never runs backwards and stays below
    [2^63], any sequence of begin and end calls for game and rendering
    frames, with the channel enabled or not at each call, ends normally and
    writes one record per enabled call; for each frame kind the stored
    cycle is that of the last enabled call of the kind, and the deltas a
    reader decodes from the records of the kind add up to it from the cycle
    stored at the start: calls made while the channel is disabled, and
    calls for the other kind, do not disturb the sum. *)
Theorem frame_deltas_accumulate (cs : list FrameCall) :
  forall (g r t : Z),
    0 <= g <= t -> 0 <= r <= t ->
    clock_from t cs ->
    (forall c, In c cs ->
       CallCycles64 c < 2 ^ 63 /\ CallFrameType c <> TraceFrameType_Count) ->
    exists E,
      run_calls cs [g; r]
      = Done [last_enabled_cycle TraceFrameType_Game cs g;
              last_enabled_cycle TraceFrameType_Rendering cs r] E
      /\ length E = length (filter (fun c => CallChannelEnabled c = true) cs)
      /\ g + total (decoded_deltas TraceFrameType_Game E)
         = last_enabled_cycle TraceFrameType_Game cs g
      /\ r + total (decoded_deltas TraceFrameType_Rendering E)
         = last_enabled_cycle TraceFrameType_Rendering cs r.
Proof.
  induction cs as [| c cs IH]; intros g r t Hg Hr Hclock Hcalls.
  - exists []. repeat split; cbn; lia.
  - destruct Hclock as [Ht Hclock].
    destruct (Hcalls c (or_introl eq_refl)) as [Hsmall Hkind].
    assert (Hrest : forall c', In c' cs ->
              CallCycles64 c' < 2 ^ 63 /\ CallFrameType c' <> TraceFrameType_Count)
      by (intros c' Hin; apply Hcalls; right; exact Hin).
    cbn [run_calls last_enabled_cycle]. rewrite filter_cons.
    destruct (CallChannelEnabled c) eqn:Hon.
    + destruct (CallFrameType c) eqn:Hft; [| | contradiction].
      * destruct (run_call_enabled c [g; r] g Hon ltac:(congruence)
                    ltac:(rewrite Hft; reflexivity) ltac:(lia) Hsmall)
          as (rec & Hrun & Hev & Hdec).
        rewrite Hft in Hrun, Hev. cbn in Hrun. rewrite Hrun.
        destruct (IH (CallCycles64 c) r (CallCycles64 c) ltac:(lia) ltac:(lia) Hclock Hrest)
          as (E & HE & Hlen & Hsumg & Hsumr).
        rewrite HE. cbn [andb frame_index Nat.eqb].
        exists ([rec] ++ E). split; [reflexivity |].
        rewrite !decoded_deltas_app, !decoded_deltas_one, !total_app, Hev.
        destruct (decide (true = true)) as [_ | Hc]; [| contradiction].
        cbn [length app]. rewrite Hlen.
        destruct (decide (TraceFrameType_Game = TraceFrameType_Game)) as [_ | Hc];
          [| contradiction].
        destruct (decide (TraceFrameType_Game = TraceFrameType_Rendering)) as [Hc | _];
          [discriminate |].
        cbn [total fold_right]. rewrite Hdec. repeat split; lia.
      * destruct (run_call_enabled c [g; r] r Hon ltac:(congruence)
                    ltac:(rewrite Hft; reflexivity) ltac:(lia) Hsmall)
          as (rec & Hrun & Hev & Hdec).
        rewrite Hft in Hrun, Hev. cbn in Hrun. rewrite Hrun.
        destruct (IH g (CallCycles64 c) (CallCycles64 c) ltac:(lia) ltac:(lia) Hclock Hrest)
          as (E & HE & Hlen & Hsumg & Hsumr).
        rewrite HE. cbn [andb frame_index Nat.eqb].
        exists ([rec] ++ E). split; [reflexivity |].
        rewrite !decoded_deltas_app, !decoded_deltas_one, !total_app, Hev.
        destruct (decide (true = true)) as [_ | Hc]; [| contradiction].
        cbn [length app]. rewrite Hlen.
        destruct (decide (TraceFrameType_Rendering = TraceFrameType_Rendering)) as [_ | Hc];
          [| contradiction].
        destruct (decide (TraceFrameType_Rendering = TraceFrameType_Game)) as [Hc | _];
          [discriminate |].
        cbn [total fold_right]. rewrite Hdec. repeat split; lia.
    + rewrite (run_call_disabled c [g; r] Hon).
      destruct (IH g r (CallCycles64 c) ltac:(lia) ltac:(lia) Hclock Hrest)
        as (E & HE & Hlen & Hsumg & Hsumr).
      rewrite HE. cbn [andb].
      destruct (decide (false = true)) as [Hc | _]; [discriminate |].
      exists E. repeat split; assumption.
Qed.

(** A game frame and a rendering frame interleaved, with the channel off
    during the end of the game frame. *)
Lemma frame_deltas_accumulate_witness :
  exists E,
    run_calls [mkFrameCall true TraceFrameType_Game true 100;
               mkFrameCall true TraceFrameType_Rendering true 130;
               mkFrameCall false TraceFrameType_Game false 400;
               mkFrameCall false TraceFrameType_Rendering true 450;
               mkFrameCall true TraceFrameType_Game true 500] [10; 20]
    = Done [500; 450] E
    /\ decoded_deltas TraceFrameType_Game E = [90; 400]
    /\ decoded_deltas TraceFrameType_Rendering E = [110; 320].
Proof.
  destruct (frame_deltas_accumulate
              [mkFrameCall true TraceFrameType_Game true 100;
               mkFrameCall true TraceFrameType_Rendering true 130;
               mkFrameCall false TraceFrameType_Game false 400;
               mkFrameCall false TraceFrameType_Rendering true 450;
               mkFrameCall true TraceFrameType_Game true 500] 10 20 20)
    as (E & HE & _).
  - lia.
  - lia.
  - cbn. lia.
  - intros c Hin. cbn in Hin.
    repeat (destruct Hin as [<- | Hin]; [split; [reflexivity | discriminate] |]).
    destruct Hin.
  - exists E. split; [exact HE |].
    vm_compute in HE. injection HE as <-. split; reflexivity.
Defined.

End MiscTrace.

(* ===================================================================== *)
(** ** Editor/MovieSceneTools/Private/TrackEditors/PropertyTrackEditors/
       BytePropertyTrackEditor.cpp                                        *)
(* ===================================================================== *)
Module BytePropertyTrackEditor.

(** Objects are known by their identity: a [UEnum*] is the number of the
    enum object it points to, an [FGuid] that of a binding, and a null
    pointer is [None]. *)
Definition UEnum : Set := nat.
Definition FGuid : Set := nat.
Definition FName : Set := string.

(** What [CastField] can tell about an [FProperty]: an [FEnumProperty]
    with its [GetEnum()], an [FByteProperty] with its [Enum] member, or a
    property of another class. *)
Inductive FProperty : Set :=
| EnumProperty (GetEnum : option UEnum)
| ByteProperty (Enum : option UEnum)
| OtherProperty.

(** A live object, reduced to the properties of its class by name. *)
Record UObject : Set := mkUObject {
  ClassProperties : list (FName * FProperty)
}.

(** [RuntimeObject->GetClass()->FindPropertyByName(PropertyName)]. *)
Fixpoint FindPropertyByName_in (props : list (FName * FProperty)) (PropertyName : FName)
    : option FProperty :=
  match props with
  | [] => None
  | (n, p) :: rest =>
      if String.eqb n PropertyName then Some p else FindPropertyByName_in rest PropertyName
  end.

Definition FindPropertyByName (o : UObject) (PropertyName : FName) : option FProperty :=
  FindPropertyByName_in (ClassProperties o) PropertyName.

(** A [TWeakObjectPtr<>]: [Get()] is the object while it is alive and null
    afterwards. *)
Definition TWeakObjectPtr : Set := option UObject.

(** The sequencer, as far as this file uses it:
    [FindObjectsInCurrentSequence]. *)
Record ISequencer : Type := mkSequencer {
  FindObjectsInCurrentSequence : FGuid -> list TWeakObjectPtr
}.

Record UMovieSceneByteTrack : Set := mkByteTrack {
  TrackEnum : option UEnum
}.

Definition SetEnum (e : UEnum) (t : UMovieSceneByteTrack) : UMovieSceneByteTrack :=
  {| TrackEnum := Some e |}.

(** The enum one loop iteration finds for an instance (lines 19 to 37):
    none for a stale pointer, for an object without the property, and for a
    property that is neither enum-backed nor a byte with an enum. *)
Definition instance_enum (PropertyName : FName) (WeakObject : TWeakObjectPtr) : option UEnum :=
  match WeakObject with
  | None => None
  | Some RuntimeObject =>
      match FindPropertyByName RuntimeObject PropertyName with
      | Some (EnumProperty e) => e
      | Some (ByteProperty e) => e
      | Some OtherProperty => None
      | None => None
      end
  end.

(** The loop of [GetEnumForByteTrack]: [PropertyEnums], a [TSet<UEnum*>],
    after all bound objects were visited. *)
Definition collect_enums (PropertyName : FName) (Objects : list TWeakObjectPtr)
    (PropertyEnums : gset UEnum) : gset UEnum :=
  fold_left
    (fun (PropertyEnums : gset UEnum) WeakObject =>
       match instance_enum PropertyName WeakObject with
       | Some Enum => PropertyEnums ∪ {[ Enum ]}
       | None => PropertyEnums
       end)
    Objects PropertyEnums.

(** [GetEnumForByteTrack] (its [ByteTrack] argument is not used by the
    body). *)
Definition GetEnumForByteTrack (Sequencer : ISequencer) (OwnerObjectHandle : FGuid)
    (PropertyName : FName) : option UEnum :=
  let PropertyEnums :=
    collect_enums PropertyName (FindObjectsInCurrentSequence Sequencer OwnerObjectHandle) ∅ in
  if Nat.eqb (size PropertyEnums) 1 then head (elements PropertyEnums) else None.

(** [FBytePropertyTrackEditor::AddTrack]; [NewTrack] is the track that the
    generic [FPropertyTrackEditor::AddTrack] created. *)
Definition AddTrack (Sequencer : ISequencer) (ObjectHandle : FGuid) (UniqueTypeName : FName)
    (NewTrack : UMovieSceneByteTrack) : UMovieSceneByteTrack :=
  let ByteTrack := NewTrack in
  match GetEnumForByteTrack Sequencer ObjectHandle UniqueTypeName with
  | Some TrackEnum => SetEnum TrackEnum ByteTrack
  | None => NewTrack
  end.

(** The enum types found across the live instances, as the claim words
    them: the enum of an enum-backed property and the associated enum of a
    raw byte property. *)
Definition found_on (PropertyName : FName) (Objects : list TWeakObjectPtr) (e : UEnum) : Prop :=
  exists RuntimeObject,
    In (Some RuntimeObject) Objects
    /\ (FindPropertyByName RuntimeObject PropertyName = Some (EnumProperty (Some e))
        \/ FindPropertyByName RuntimeObject PropertyName = Some (ByteProperty (Some e))).

Lemma instance_enum_Some (PropertyName : FName) (w : TWeakObjectPtr) (e : UEnum) :
  instance_enum PropertyName w = Some e <->
  exists o, w = Some o
            /\ (FindPropertyByName o PropertyName = Some (EnumProperty (Some e))
                \/ FindPropertyByName o PropertyName = Some (ByteProperty (Some e))).
Proof.
  unfold instance_enum. split.
  - destruct w as [o |]; [| discriminate].
    destruct (FindPropertyByName o PropertyName) as [[g | g |] |] eqn:Hfind;
      try discriminate; intros ->; exists o; auto.
  - intros (o & -> & [H | H]); rewrite H; reflexivity.
Qed.

Lemma collect_enums_spec (PropertyName : FName) (Objects : list TWeakObjectPtr) :
  forall (acc : gset UEnum) (e : UEnum),
    e ∈ collect_enums PropertyName Objects acc <->
    e ∈ acc \/ found_on PropertyName Objects e.
Proof.
  unfold collect_enums.
  induction Objects as [| w ws IH]; intros acc e; cbn [fold_left].
  - split; [auto |]. intros [H | (o & Hin & _)]; [exact H | destruct Hin].
  - rewrite IH. split.
    + intros [Hacc | (o & Hin & Ho)].
      * destruct (instance_enum PropertyName w) as [e' |] eqn:Hw; [| auto].
        apply elem_of_union in Hacc as [Hacc | Hacc]; [auto |].
        apply elem_of_singleton in Hacc. subst e'.
        apply instance_enum_Some in Hw. destruct Hw as (o & Hw & Ho). subst w.
        right. exists o. split; [left; reflexivity | exact Ho].
      * right. exists o. split; [right; exact Hin | exact Ho].
    + intros [Hacc | (o & [Hin | Hin] & Ho)].
      * left. destruct (instance_enum PropertyName w);
          [apply elem_of_union; left; exact Hacc | exact Hacc].
      * left. subst w.
        assert (Hw : instance_enum PropertyName (Some o) = Some e)
          by (apply instance_enum_Some; eauto).
        rewrite Hw. apply elem_of_union. right. apply elem_of_singleton. reflexivity.
      * right. exists o. auto.
Qed.

(** Exactly one distinct enum type is found, and it is [e]. *)
Definition only_enum_found (PropertyName : FName) (Objects : list TWeakObjectPtr) (e : UEnum) : Prop :=
  found_on PropertyName Objects e
  /\ forall e', found_on PropertyName Objects e' -> e' = e.

Lemma GetEnumForByteTrack_Some (Sequencer : ISequencer) (Handle : FGuid) (PropertyName : FName)
    (e : UEnum) :
  GetEnumForByteTrack Sequencer Handle PropertyName = Some e <->
  only_enum_found PropertyName (FindObjectsInCurrentSequence Sequencer Handle) e.
Proof.
  unfold GetEnumForByteTrack, only_enum_found.
  set (Objects := FindObjectsInCurrentSequence Sequencer Handle).
  set (Found := collect_enums PropertyName Objects ∅).
  assert (Hspec : forall x, x ∈ Found <-> found_on PropertyName Objects x).
  { intros x. unfold Found. rewrite collect_enums_spec. split; [| auto].
    intros [Hempty | Hfound]; [| exact Hfound].
    apply elem_of_empty in Hempty. destruct Hempty. }
  split.
  - destruct (Nat.eqb_spec (size Found) 1) as [Hsize | Hsize]; [| discriminate].
    intros Hhead.
    destruct (size_1_elem_of Found Hsize) as [x Hx].
    apply leibniz_equiv in Hx. rewrite Hx, elements_singleton in Hhead.
    cbn in Hhead. injection Hhead as ->.
    split.
    + apply Hspec. rewrite Hx. apply elem_of_singleton. reflexivity.
    + intros e' He'. apply Hspec in He'. rewrite Hx in He'.
      apply elem_of_singleton in He'. exact He'.
  - intros [Hfound Huniq].
    assert (Hx : Found = {[ e ]}).
    { apply set_eq. intros x. rewrite Hspec, elem_of_singleton. split.
      - apply Huniq.
      - intros ->. exact Hfound. }
    rewrite Hx, size_singleton, elements_singleton. reflexivity.
Qed.

(** C9.  Enum discovery looks at every live bound instance for the
    property of the track and collects the enum of an enum-backed property
    and the associated enum of a raw byte property; [GetEnumForByteTrack]
    returns an enum exactly when one distinct enum type was found, and
    [AddTrack] assigns the track's enum in that case and in that case only:
    the enum of the returned track is then the enum found, and with no enum
    found, or with more than one, the track is returned as the generic
    track creator made it, with the enum it had.  For a track created
    without an enum, the returned track has enum [e] exactly when [e] is
    the one enum type found, and has none exactly when the number of enum
    types found is not one. *)
Theorem AddTrack_enum_iff_one_found (Sequencer : ISequencer) (ObjectHandle : FGuid)
    (UniqueTypeName : FName) (NewTrack : UMovieSceneByteTrack) :
  let Objects := FindObjectsInCurrentSequence Sequencer ObjectHandle in
  let Found := collect_enums UniqueTypeName Objects ∅ in
  (forall e, e ∈ Found <-> found_on UniqueTypeName Objects e)
  /\ (forall e, GetEnumForByteTrack Sequencer ObjectHandle UniqueTypeName = Some e
                <-> only_enum_found UniqueTypeName Objects e)
  /\ (forall e, GetEnumForByteTrack Sequencer ObjectHandle UniqueTypeName = Some e
                <-> Found = {[ e ]})
  /\ (GetEnumForByteTrack Sequencer ObjectHandle UniqueTypeName = None <-> size Found <> 1)
  /\ (forall e, only_enum_found UniqueTypeName Objects e ->
                AddTrack Sequencer ObjectHandle UniqueTypeName NewTrack = SetEnum e NewTrack
                /\ TrackEnum (AddTrack Sequencer ObjectHandle UniqueTypeName NewTrack) = Some e)
  /\ ((~ exists e, only_enum_found UniqueTypeName Objects e) ->
      AddTrack Sequencer ObjectHandle UniqueTypeName NewTrack = NewTrack
      /\ TrackEnum (AddTrack Sequencer ObjectHandle UniqueTypeName NewTrack)
         = TrackEnum NewTrack)
  /\ (TrackEnum NewTrack = None ->
      (forall e, TrackEnum (AddTrack Sequencer ObjectHandle UniqueTypeName NewTrack) = Some e
                 <-> only_enum_found UniqueTypeName Objects e)
      /\ (TrackEnum (AddTrack Sequencer ObjectHandle UniqueTypeName NewTrack) = None
          <-> size Found <> 1)).
Proof.
  intros Objects Found.
  assert (Hspec : forall x, x ∈ Found <-> found_on UniqueTypeName Objects x).
  { intros x. unfold Found. rewrite collect_enums_spec. split; [| auto].
    intros [Hempty | Hfound]; [| exact Hfound].
    apply elem_of_empty in Hempty. destruct Hempty. }
  assert (Hone : forall e, only_enum_found UniqueTypeName Objects e <-> Found = {[ e ]}).
  { intros e. unfold only_enum_found. split.
    - intros [Hfound Huniq]. apply set_eq. intros x.
      rewrite Hspec, elem_of_singleton. split; [apply Huniq | intros ->; exact Hfound].
    - intros HF. split.
      + apply Hspec. rewrite HF. apply elem_of_singleton. reflexivity.
      + intros e' He'. apply Hspec in He'. rewrite HF in He'.
        apply elem_of_singleton in He'. exact He'. }
  split; [exact Hspec |].
  split; [intros e; apply GetEnumForByteTrack_Some |].
  split; [intros e; rewrite GetEnumForByteTrack_Some; apply Hone |].
  assert (Hsize1 : GetEnumForByteTrack Sequencer ObjectHandle UniqueTypeName = None
                   <-> size Found <> 1%nat).
  { unfold GetEnumForByteTrack. fold Objects. fold Found.
    destruct (Nat.eqb_spec (size Found) 1) as [Hsize | Hsize].
    + destruct (size_1_elem_of Found Hsize) as [x Hx].
      apply leibniz_equiv in Hx. rewrite Hx, elements_singleton. cbn.
      split; [discriminate | intros Hne; exfalso; apply Hne; apply size_singleton].
    + split; [intros _; exact Hsize | reflexivity]. }
  split; [exact Hsize1 |].
  split.
  { intros e He. apply GetEnumForByteTrack_Some in He.
    unfold AddTrack. rewrite He. split; reflexivity. }
  split.
  { intros Hnone. unfold AddTrack.
    destruct (GetEnumForByteTrack Sequencer ObjectHandle UniqueTypeName) as [e |] eqn:Hget;
      [| split; reflexivity].
    exfalso. apply Hnone. exists e. apply GetEnumForByteTrack_Some. exact Hget. }
  intros Huntyped. split.
  - intros e. unfold Objects. rewrite <- GetEnumForByteTrack_Some. unfold AddTrack.
    destruct (GetEnumForByteTrack Sequencer ObjectHandle UniqueTypeName) as [e' |];
      cbn [SetEnum TrackEnum]; [reflexivity |].
    rewrite Huntyped. reflexivity.
  - rewrite <- Hsize1. unfold AddTrack.
    destruct (GetEnumForByteTrack Sequencer ObjectHandle UniqueTypeName) as [e' |];
      cbn [SetEnum TrackEnum]; [split; discriminate |].
    rewrite Huntyped. split; reflexivity.
Qed.

(** Two instances with the same enum give the track that enum; a third
    instance with another enum leaves it untyped. *)
Example AddTrack_same_enum_twice :
  let o := mkUObject [("Mode"%string, EnumProperty (Some 7))] in
  let o' := mkUObject [("Mode"%string, ByteProperty (Some 7))] in
  AddTrack (mkSequencer (fun _ => [Some o; None; Some o'])) 0 "Mode"%string (mkByteTrack None)
  = mkByteTrack (Some 7).
Proof. vm_compute. reflexivity. Qed.

Example AddTrack_two_enums :
  let o := mkUObject [("Mode"%string, EnumProperty (Some 7))] in
  let o' := mkUObject [("Mode"%string, ByteProperty (Some 8))] in
  AddTrack (mkSequencer (fun _ => [Some o; Some o'])) 0 "Mode"%string (mkByteTrack None)
  = mkByteTrack None.
Proof. vm_compute. reflexivity. Qed.

(** X4.  The enum found for a byte track depends only on which live
    objects are bound: two bindings with the same live objects, in any
    order, any number of times each and with any number of stale pointers
    between them, give the same enum or none. *)
Theorem GetEnumForByteTrack_same_live_objects (Sequencer Sequencer' : ISequencer)
    (Handle Handle' : FGuid) (PropertyName : FName) :
  (forall o : UObject,
     In (Some o) (FindObjectsInCurrentSequence Sequencer Handle)
     <-> In (Some o) (FindObjectsInCurrentSequence Sequencer' Handle')) ->
  GetEnumForByteTrack Sequencer Handle PropertyName
  = GetEnumForByteTrack Sequencer' Handle' PropertyName.
Proof.
  intros Hsame. unfold GetEnumForByteTrack.
  set (Objects := FindObjectsInCurrentSequence Sequencer Handle) in *.
  set (Objects' := FindObjectsInCurrentSequence Sequencer' Handle') in *.
  assert (Heq : collect_enums PropertyName Objects ∅ = collect_enums PropertyName Objects' ∅).
  { apply set_eq. intros e. rewrite !collect_enums_spec.
    assert (Hfound : found_on PropertyName Objects e <-> found_on PropertyName Objects' e).
    { unfold found_on. split; intros (o & Hin & Ho); exists o;
        (split; [apply Hsame; exact Hin | exact Ho]). }
    rewrite Hfound. reflexivity. }
  rewrite Heq. reflexivity.
Qed.

Lemma GetEnumForByteTrack_same_live_objects_witness :
  let o := mkUObject [("Mode"%string, EnumProperty (Some 7))] in
  let o' := mkUObject [("Mode"%string, ByteProperty (Some 7)); ("Size"%string, OtherProperty)] in
  GetEnumForByteTrack (mkSequencer (fun _ => [Some o; None; Some o'; Some o])) 0 "Mode"%string
  = GetEnumForByteTrack (mkSequencer (fun _ => [Some o'; Some o])) 1 "Mode"%string.
Proof.
  intros o o'.
  apply (GetEnumForByteTrack_same_live_objects
           (mkSequencer (fun _ => [Some o; None; Some o'; Some o]))
           (mkSequencer (fun _ => [Some o'; Some o])) 0 1 "Mode"%string).
  intros x. cbn. split; intros H;
    repeat (destruct H as [H | H]; [try discriminate H; injection H as <-; auto |]);
    destruct H.
Defined.

End BytePropertyTrackEditor.

(* ===================================================================== *)
(** ** Editor/BlueprintGraph/Private/K2Node_Timeline.cpp                  *)
(* ===================================================================== *)
Module K2Node_Timeline.

Definition FName : Set := string.

Inductive EEdGraphPinDirection : Set := EGPD_Input | EGPD_Output.

(** The pin categories of [UEdGraphSchema_K2] this file names. *)
Inductive PinCategory : Set := PC_Exec | PC_Float | PC_Byte | PC_Struct.

(** The objects passed as a pin's sub-category object:
    [FTimeline::GetTimelineDirectionEnum()], [TBaseStructure<FVector>::Get()]
    and [TBaseStructure<FLinearColor>::Get()]. *)
Inductive SubCategoryObject : Set :=
| TimelineDirectionEnum
| VectorStruct
| LinearColorStruct.

Record UEdGraphPin : Set := mkPin {
  Direction : EEdGraphPinDirection;
  Category : PinCategory;
  PinSubCategoryObject : option SubCategoryObject;
  PinName : FName;
  AutogeneratedDefaultValue : string
}.

(** A track of a timeline template: what [GetTrackName()] returns is all
    pin allocation reads of it. *)
Record FTTTrackBase : Set := mkTrack { GetTrackName : FName }.

Record UTimelineTemplate : Set := mkTemplate {
  GetVariableName : FName;
  FloatTracks : list FTTTrackBase;
  VectorTracks : list FTTTrackBase;
  LinearColorTracks : list FTTTrackBase;
  EventTracks : list FTTTrackBase;
  Timeline_bAutoPlay : bool;
  Timeline_bLoop : bool;
  Timeline_bReplicated : bool;
  Timeline_bIgnoreTimeDilation : bool
}.

Record UBlueprint : Set := mkBlueprint { Timelines : list UTimelineTemplate }.

(** [UBlueprint::FindTimelineTemplateByVariableName]: the first template
    of the blueprint with that variable name, null when there is none. *)
Fixpoint FindTimelineTemplateByVariableName_in (ts : list UTimelineTemplate) (TimelineName : FName)
    : option UTimelineTemplate :=
  match ts with
  | [] => None
  | t :: rest =>
      if String.eqb (GetVariableName t) TimelineName then Some t
      else FindTimelineTemplateByVariableName_in rest TimelineName
  end.

Definition FindTimelineTemplateByVariableName (Blueprint : UBlueprint) (TimelineName : FName)
    : option UTimelineTemplate :=
  FindTimelineTemplateByVariableName_in (Timelines Blueprint) TimelineName.

Record UK2Node_Timeline : Set := mkNode {
  Pins : list UEdGraphPin;
  TimelineName : FName;
  bCanRenameNode : bool;
  bAutoPlay : bool;
  bLoop : bool;
  bReplicated : bool;
  bIgnoreTimeDilation : bool
}.

Definition set_Pins (ps : list UEdGraphPin) (n : UK2Node_Timeline) : UK2Node_Timeline :=
  {| Pins := ps; TimelineName := TimelineName n; bCanRenameNode := bCanRenameNode n;
     bAutoPlay := bAutoPlay n; bLoop := bLoop n; bReplicated := bReplicated n;
     bIgnoreTimeDilation := bIgnoreTimeDilation n |}.

(** [CreatePin(Dir, Category, Name)] and
    [CreatePin(Dir, Category, SubCategoryObject, Name)]: a new pin at the
    end of [Pins], with an empty default value. *)
Definition CreatePin (Dir : EEdGraphPinDirection) (Cat : PinCategory)
    (Sub : option SubCategoryObject) (Name : FName) (n : UK2Node_Timeline) : UK2Node_Timeline :=
  set_Pins (Pins n ++ [mkPin Dir Cat Sub Name EmptyString]) n.

(** [K2Schema->SetPinAutogeneratedDefaultValue(Pin, Value)] on the pin that
    was created last. *)
Definition SetLastPinAutogeneratedDefaultValue (Value : string) (n : UK2Node_Timeline)
    : UK2Node_Timeline :=
  match rev (Pins n) with
  | [] => n
  | p :: before =>
      set_Pins (rev before ++
                [mkPin (Direction p) (Category p) (PinSubCategoryObject p) (PinName p) Value]) n
  end.

(** The pin names of the file. *)
Definition PlayPinName : FName := "Play"%string.
Definition PlayFromStartPinName : FName := "PlayFromStart"%string.
Definition StopPinName : FName := "Stop"%string.
Definition UpdatePinName : FName := "Update"%string.
Definition ReversePinName : FName := "Reverse"%string.
Definition ReverseFromEndPinName : FName := "ReverseFromEnd"%string.
Definition FinishedPinName : FName := "Finished"%string.
Definition NewTimePinName : FName := "NewTime"%string.
Definition SetNewTimePinName : FName := "SetNewTime"%string.
Definition DirectionPinName : FName := "Direction"%string.

(** The four loops over the tracks of the template (lines 92 to 112). *)
Definition CreateTrackPins (Dir : EEdGraphPinDirection) (Cat : PinCategory)
    (Sub : option SubCategoryObject) (Tracks : list FTTTrackBase) (n : UK2Node_Timeline)
    : UK2Node_Timeline :=
  fold_left (fun n Track => CreatePin Dir Cat Sub (GetTrackName Track) n) Tracks n.

(** Modelled from the spec: [Super::AllocateDefaultPins()], the base
    class's allocation, is not among the sources; no pin of the base class
    is described, so it adds none. *)
Definition Super_AllocateDefaultPins (n : UK2Node_Timeline) : UK2Node_Timeline := n.

(** [UK2Node_Timeline::AllocateDefaultPins], statement by statement. *)
Definition AllocateDefaultPins (Blueprint : UBlueprint) (n : UK2Node_Timeline) : UK2Node_Timeline :=
  let n := {| Pins := Pins n; TimelineName := TimelineName n; bCanRenameNode := true;
              bAutoPlay := bAutoPlay n; bLoop := bLoop n; bReplicated := bReplicated n;
              bIgnoreTimeDilation := bIgnoreTimeDilation n |} in
  let n := CreatePin EGPD_Input PC_Exec None PlayPinName n in
  let n := CreatePin EGPD_Input PC_Exec None PlayFromStartPinName n in
  let n := CreatePin EGPD_Input PC_Exec None StopPinName n in
  let n := CreatePin EGPD_Input PC_Exec None ReversePinName n in
  let n := CreatePin EGPD_Input PC_Exec None ReverseFromEndPinName n in
  let n := CreatePin EGPD_Output PC_Exec None UpdatePinName n in
  let n := CreatePin EGPD_Output PC_Exec None FinishedPinName n in
  let n := CreatePin EGPD_Input PC_Exec None SetNewTimePinName n in
  let n := CreatePin EGPD_Input PC_Float None NewTimePinName n in
  let n := SetLastPinAutogeneratedDefaultValue "0.0"%string n in
  let n := CreatePin EGPD_Output PC_Byte (Some TimelineDirectionEnum) DirectionPinName n in
  let n :=
    match FindTimelineTemplateByVariableName Blueprint (TimelineName n) with
    | Some Timeline =>
        let n := CreateTrackPins EGPD_Output PC_Float None (FloatTracks Timeline) n in
        let n := CreateTrackPins EGPD_Output PC_Struct (Some VectorStruct) (VectorTracks Timeline) n in
        let n := CreateTrackPins EGPD_Output PC_Struct (Some LinearColorStruct)
                   (LinearColorTracks Timeline) n in
        let n := CreateTrackPins EGPD_Output PC_Exec None (EventTracks Timeline) n in
        {| Pins := Pins n; TimelineName := TimelineName n; bCanRenameNode := bCanRenameNode n;
           bAutoPlay := Timeline_bAutoPlay Timeline; bLoop := Timeline_bLoop Timeline;
           bReplicated := Timeline_bReplicated Timeline;
           bIgnoreTimeDilation := Timeline_bIgnoreTimeDilation Timeline |}
    | None => n
    end in
  Super_AllocateDefaultPins n.

(** The ten pins every timeline node gets, in creation order. *)
Definition FixedPins : list UEdGraphPin :=
  [ mkPin EGPD_Input PC_Exec None PlayPinName EmptyString;
    mkPin EGPD_Input PC_Exec None PlayFromStartPinName EmptyString;
    mkPin EGPD_Input PC_Exec None StopPinName EmptyString;
    mkPin EGPD_Input PC_Exec None ReversePinName EmptyString;
    mkPin EGPD_Input PC_Exec None ReverseFromEndPinName EmptyString;
    mkPin EGPD_Output PC_Exec None UpdatePinName EmptyString;
    mkPin EGPD_Output PC_Exec None FinishedPinName EmptyString;
    mkPin EGPD_Input PC_Exec None SetNewTimePinName EmptyString;
    mkPin EGPD_Input PC_Float None NewTimePinName "0.0"%string;
    mkPin EGPD_Output PC_Byte (Some TimelineDirectionEnum) DirectionPinName EmptyString ].

(** The pin of a track, by track kind. *)
Definition FloatTrackPin (t : FTTTrackBase) : UEdGraphPin :=
  mkPin EGPD_Output PC_Float None (GetTrackName t) EmptyString.
Definition VectorTrackPin (t : FTTTrackBase) : UEdGraphPin :=
  mkPin EGPD_Output PC_Struct (Some VectorStruct) (GetTrackName t) EmptyString.
Definition LinearColorTrackPin (t : FTTTrackBase) : UEdGraphPin :=
  mkPin EGPD_Output PC_Struct (Some LinearColorStruct) (GetTrackName t) EmptyString.
Definition EventTrackPin (t : FTTTrackBase) : UEdGraphPin :=
  mkPin EGPD_Output PC_Exec None (GetTrackName t) EmptyString.

Definition TrackPins (Timeline : UTimelineTemplate) : list UEdGraphPin :=
  map FloatTrackPin (FloatTracks Timeline)
  ++ map VectorTrackPin (VectorTracks Timeline)
  ++ map LinearColorTrackPin (LinearColorTracks Timeline)
  ++ map EventTrackPin (EventTracks Timeline).

(** The shape of a pin: direction, category and sub-category object. *)
Definition PinShape : Set := (EEdGraphPinDirection * PinCategory * option SubCategoryObject)%type.

Definition shape (p : UEdGraphPin) : PinShape :=
  (Direction p, Category p, PinSubCategoryObject p).

#[global] Instance EEdGraphPinDirection_eq_dec : EqDecision EEdGraphPinDirection.
Proof. solve_decision. Defined.
#[global] Instance PinCategory_eq_dec : EqDecision PinCategory.
Proof. solve_decision. Defined.
#[global] Instance SubCategoryObject_eq_dec : EqDecision SubCategoryObject.
Proof. solve_decision. Defined.

(** How many pins of a list have a given shape. *)
Definition count_shape (sh : PinShape) (ps : list UEdGraphPin) : nat :=
  length (filter (fun p => shape p = sh) ps).

Definition ExecInput : PinShape := (EGPD_Input, PC_Exec, None).
Definition ExecOutput : PinShape := (EGPD_Output, PC_Exec, None).
Definition FloatInput : PinShape := (EGPD_Input, PC_Float, None).
Definition FloatOutput : PinShape := (EGPD_Output, PC_Float, None).
Definition VectorOutput : PinShape := (EGPD_Output, PC_Struct, Some VectorStruct).
Definition LinearColorOutput : PinShape := (EGPD_Output, PC_Struct, Some LinearColorStruct).
Definition DirectionOutput : PinShape := (EGPD_Output, PC_Byte, Some TimelineDirectionEnum).

(** *** Pin allocation *)

Lemma Pins_CreatePin Dir Cat Sub Name (n : UK2Node_Timeline) :
  Pins (CreatePin Dir Cat Sub Name n) = Pins n ++ [mkPin Dir Cat Sub Name EmptyString].
Proof. reflexivity. Qed.

Lemma TimelineName_CreatePin Dir Cat Sub Name (n : UK2Node_Timeline) :
  TimelineName (CreatePin Dir Cat Sub Name n) = TimelineName n.
Proof. reflexivity. Qed.

Lemma Pins_SetLast_CreatePin Value Dir Cat Sub Name (n : UK2Node_Timeline) :
  Pins (SetLastPinAutogeneratedDefaultValue Value (CreatePin Dir Cat Sub Name n))
  = Pins n ++ [mkPin Dir Cat Sub Name Value].
Proof.
  unfold SetLastPinAutogeneratedDefaultValue. rewrite Pins_CreatePin.
  rewrite rev_app_distr. cbn [rev app]. cbn [Pins set_Pins Direction Category
    PinSubCategoryObject PinName]. rewrite rev_involutive. reflexivity.
Qed.

Lemma TimelineName_SetLast Value (n : UK2Node_Timeline) :
  TimelineName (SetLastPinAutogeneratedDefaultValue Value n) = TimelineName n.
Proof.
  unfold SetLastPinAutogeneratedDefaultValue. destruct (rev (Pins n)); reflexivity.
Qed.

Lemma Pins_CreateTrackPins Dir Cat Sub (Tracks : list FTTTrackBase) :
  forall n : UK2Node_Timeline,
    Pins (CreateTrackPins Dir Cat Sub Tracks n)
    = Pins n ++ map (fun t => mkPin Dir Cat Sub (GetTrackName t) EmptyString) Tracks.
Proof.
  unfold CreateTrackPins.
  induction Tracks as [| t ts IH]; intros n; cbn [fold_left map].
  - rewrite app_nil_r. reflexivity.
  - rewrite IH, Pins_CreatePin, <- app_assoc. reflexivity.
Qed.

(** The pins after allocation: the pins the node had, the ten fixed pins,
    and the pins of the tracks of the bound template, if there is one. *)
Lemma Pins_AllocateDefaultPins (Blueprint : UBlueprint) (n : UK2Node_Timeline) :
  Pins (AllocateDefaultPins Blueprint n)
  = Pins n ++ FixedPins ++
    match FindTimelineTemplateByVariableName Blueprint (TimelineName n) with
    | Some Timeline => TrackPins Timeline
    | None => []
    end.
Proof.
  unfold AllocateDefaultPins, Super_AllocateDefaultPins. cbv zeta.
  rewrite !TimelineName_CreatePin, TimelineName_SetLast, !TimelineName_CreatePin.
  cbn [TimelineName].
  destruct (FindTimelineTemplateByVariableName Blueprint (TimelineName n)) as [Timeline |].
  - cbn [Pins]. rewrite !Pins_CreateTrackPins, Pins_CreatePin, Pins_SetLast_CreatePin,
      !Pins_CreatePin. cbn [Pins].
    unfold TrackPins, FixedPins, FloatTrackPin, VectorTrackPin, LinearColorTrackPin, EventTrackPin.
    rewrite <- !app_assoc. reflexivity.
  - rewrite Pins_CreatePin, Pins_SetLast_CreatePin, !Pins_CreatePin. cbn [Pins].
    unfold FixedPins. rewrite <- !app_assoc, app_nil_r. reflexivity.
Qed.

Lemma count_shape_app (sh : PinShape) (ps qs : list UEdGraphPin) :
  count_shape sh (ps ++ qs) = count_shape sh ps + count_shape sh qs.
Proof. unfold count_shape. rewrite filter_app, length_app. reflexivity. Qed.

Lemma count_shape_track_pins (sh : PinShape) Dir Cat Sub (Tracks : list FTTTrackBase) :
  count_shape sh (map (fun t => mkPin Dir Cat Sub (GetTrackName t) EmptyString) Tracks)
  = if decide ((Dir, Cat, Sub) = sh) then length Tracks else 0.
Proof.
  unfold count_shape.
  induction Tracks as [| t ts IH]; cbn [map].
  - rewrite filter_nil. destruct (decide _); reflexivity.
  - rewrite filter_cons.
    destruct (decide (shape (mkPin Dir Cat Sub (GetTrackName t) EmptyString) = sh)) as [He | Hne];
      cbn [length]; rewrite IH;
      destruct (decide ((Dir, Cat, Sub) = sh)) as [He' | Hne'];
      try reflexivity; contradiction.
Qed.

Lemma count_shape_TrackPins (Timeline : UTimelineTemplate) :
  count_shape FloatOutput (TrackPins Timeline) = length (FloatTracks Timeline)
  /\ count_shape VectorOutput (TrackPins Timeline) = length (VectorTracks Timeline)
  /\ count_shape LinearColorOutput (TrackPins Timeline) = length (LinearColorTracks Timeline)
  /\ count_shape ExecOutput (TrackPins Timeline) = length (EventTracks Timeline).
Proof.
  unfold TrackPins, FloatTrackPin, VectorTrackPin, LinearColorTrackPin, EventTrackPin.
  unfold FloatOutput, VectorOutput, LinearColorOutput, ExecOutput.
  repeat split; rewrite !count_shape_app, !count_shape_track_pins;
    repeat case_decide; try discriminate; try congruence; lia.
Qed.

Lemma TrackPins_Permutation (T T' : UTimelineTemplate) :
  FloatTracks T ≡ₚ FloatTracks T' ->
  VectorTracks T ≡ₚ VectorTracks T' ->
  LinearColorTracks T ≡ₚ LinearColorTracks T' ->
  EventTracks T ≡ₚ EventTracks T' ->
  TrackPins T ≡ₚ TrackPins T'.
Proof.
  intros Hf Hv Hc He. unfold TrackPins.
  repeat apply Permutation_app; apply Permutation_map; assumption.
Qed.

(** C6 (as amended).  For a timeline node bound to a template with N
    float, M vector, K linear-color and J event tracks,
    [AllocateDefaultPins] appends the ten fixed pins -- six execution
    inputs (Play, PlayFromStart, Stop, Reverse, ReverseFromEnd and
    SetNewTime), two execution outputs (Update, Finished), the float input
    NewTime with default 0.0 and the byte output Direction -- and then
    exactly N+M+K+J pins named after the tracks: N float outputs, M
    3-vector struct outputs, K linear-color struct outputs and J execution
    outputs; a reordering of the tracks only reorders these pins. *)
Theorem AllocateDefaultPins_track_parity (Blueprint : UBlueprint) (n : UK2Node_Timeline)
    (Timeline : UTimelineTemplate) :
  FindTimelineTemplateByVariableName Blueprint (TimelineName n) = Some Timeline ->
  let N := length (FloatTracks Timeline) in
  let M := length (VectorTracks Timeline) in
  let K := length (LinearColorTracks Timeline) in
  let J := length (EventTracks Timeline) in
  Pins (AllocateDefaultPins Blueprint n) = Pins n ++ FixedPins ++ TrackPins Timeline
  /\ length (TrackPins Timeline) = N + M + K + J
  /\ map PinName (TrackPins Timeline)
     = map GetTrackName (FloatTracks Timeline ++ VectorTracks Timeline
                         ++ LinearColorTracks Timeline ++ EventTracks Timeline)
  /\ count_shape FloatOutput (TrackPins Timeline) = N
  /\ count_shape VectorOutput (TrackPins Timeline) = M
  /\ count_shape LinearColorOutput (TrackPins Timeline) = K
  /\ count_shape ExecOutput (TrackPins Timeline) = J
  /\ length FixedPins = 10
  /\ count_shape ExecInput FixedPins = 6
  /\ count_shape ExecOutput FixedPins = 2
  /\ count_shape FloatInput FixedPins = 1
  /\ count_shape DirectionOutput FixedPins = 1
  /\ length (Pins (AllocateDefaultPins Blueprint n)) = length (Pins n) + 10 + (N + M + K + J)
  /\ (forall Timeline',
        FloatTracks Timeline ≡ₚ FloatTracks Timeline' ->
        VectorTracks Timeline ≡ₚ VectorTracks Timeline' ->
        LinearColorTracks Timeline ≡ₚ LinearColorTracks Timeline' ->
        EventTracks Timeline ≡ₚ EventTracks Timeline' ->
        TrackPins Timeline ≡ₚ TrackPins Timeline').
Proof.
  intros Hfind N M K J.
  pose proof (Pins_AllocateDefaultPins Blueprint n) as Hpins. rewrite Hfind in Hpins.
  assert (Hlen : length (TrackPins Timeline) = N + M + K + J).
  { unfold TrackPins. rewrite !length_app, !length_map. subst N M K J. lia. }
  destruct (count_shape_TrackPins Timeline) as (Hf & Hv & Hc & He).
  split; [exact Hpins |].
  split; [exact Hlen |].
  split.
  { unfold TrackPins. rewrite !map_app, !map_map. reflexivity. }
  split; [exact Hf |]. split; [exact Hv |]. split; [exact Hc |]. split; [exact He |].
  split; [reflexivity |]. split; [reflexivity |]. split; [reflexivity |].
  split; [reflexivity |]. split; [reflexivity |].
  split.
  { rewrite Hpins, !length_app, Hlen. change (length FixedPins) with 10. lia. }
  intros Timeline'. apply TrackPins_Permutation.
Qed.

Lemma AllocateDefaultPins_track_parity_witness :
  let Timeline := mkTemplate "Timeline_0"%string [mkTrack "Alpha"%string] [mkTrack "Offset"%string] []
                    [mkTrack "Hit"%string; mkTrack "Miss"%string] false true false false in
  let n := mkNode [] "Timeline_0"%string false false false false false in
  Pins (AllocateDefaultPins (mkBlueprint [Timeline]) n)
  = FixedPins ++ [FloatTrackPin (mkTrack "Alpha"%string); VectorTrackPin (mkTrack "Offset"%string);
                  EventTrackPin (mkTrack "Hit"%string); EventTrackPin (mkTrack "Miss"%string)].
Proof.
  intros Timeline n.
  destruct (AllocateDefaultPins_track_parity (mkBlueprint [Timeline]) n Timeline eq_refl)
    as [Hpins _].
  exact Hpins.
Defined.

(** The fixed pins are ten, six of them execution inputs: a node whose
    template has no track does not have five execution inputs, nor
    5 + 2 + 1 + 1 pins. *)
Lemma AllocateDefaultPins_six_execution_inputs :
  let Timeline := mkTemplate "Timeline_0"%string [] [] [] [] false false false false in
  let n := AllocateDefaultPins (mkBlueprint [Timeline])
             (mkNode [] "Timeline_0"%string false false false false false) in
  map PinName (filter (fun p => shape p = ExecInput) (Pins n))
  = [PlayPinName; PlayFromStartPinName; StopPinName; ReversePinName; ReverseFromEndPinName;
     SetNewTimePinName]
  /\ count_shape ExecInput (Pins n) <> 5
  /\ length (Pins n) <> 0 + (5 + 2 + 1 + 1).
Proof.
  cbv zeta. split; [vm_compute; reflexivity |].
  split; vm_compute; discriminate.
Qed.

(** *** Finding the pins again *)

(** [UEdGraphNode::FindPin(PinName)], which is not among the sources: the
    first pin of the node with that name, null when there is none. *)
Definition FindPin (Name : FName) (n : UK2Node_Timeline) : option UEdGraphPin :=
  List.find (fun Pin => String.eqb (PinName Pin) Name) (Pins n).

(** What a getter evaluates to: the pin, or the fatal assertion of one of
    the two [check]s of [GetPin]. *)
Inductive Checked (A : Type) : Type :=
| Returns (a : A)
| CheckFailed.
Arguments Returns {A} a.
Arguments CheckFailed {A}.

(** [GetPin] of the anonymous namespace. *)
Definition GetPin (Timeline : UK2Node_Timeline) (Name : FName)
    (DesiredDirection : EEdGraphPinDirection) : Checked UEdGraphPin :=
  match FindPin Name Timeline with
  | None => CheckFailed
  | Some Pin =>
      if decide (Direction Pin = DesiredDirection) then Returns Pin else CheckFailed
  end.

(** [UK2Node_Timeline::GetDirectionPin]. *)
Definition GetDirectionPin (n : UK2Node_Timeline) : option UEdGraphPin :=
  match FindPin DirectionPinName n with
  | Some Pin =>
      let bIsOutput := bool_decide (EGPD_Output = Direction Pin) in
      let bProperType := bool_decide (PC_Byte = Category Pin) in
      let bProperSubCategoryObj :=
        bool_decide (PinSubCategoryObject Pin = Some TimelineDirectionEnum) in
      if bIsOutput && bProperType && bProperSubCategoryObj then Some Pin else None
  | None => None
  end.

Definition GetPlayPin (n : UK2Node_Timeline) := GetPin n PlayPinName EGPD_Input.
Definition GetPlayFromStartPin (n : UK2Node_Timeline) := GetPin n PlayFromStartPinName EGPD_Input.
Definition GetStopPin (n : UK2Node_Timeline) := GetPin n StopPinName EGPD_Input.
Definition GetReversePin (n : UK2Node_Timeline) := GetPin n ReversePinName EGPD_Input.
Definition GetReverseFromEndPin (n : UK2Node_Timeline) := GetPin n ReverseFromEndPinName EGPD_Input.
Definition GetUpdatePin (n : UK2Node_Timeline) := GetPin n UpdatePinName EGPD_Output.
Definition GetFinishedPin (n : UK2Node_Timeline) := GetPin n FinishedPinName EGPD_Output.
Definition GetNewTimePin (n : UK2Node_Timeline) := GetPin n NewTimePinName EGPD_Input.
Definition GetSetNewTimePin (n : UK2Node_Timeline) := GetPin n SetNewTimePinName EGPD_Input.

(** X5.  On a node that had no pins, after [AllocateDefaultPins] every pin
    getter of the node returns without a failed assertion, and returns the
    fixed pin of that name, whatever the tracks of the bound template are
    called: a track named like a fixed pin (a float track called Stop, say)
    does not take the getter's pin, since the fixed pins come first.
    [GetDirectionPin] returns the byte output of the direction enum. *)
Theorem AllocateDefaultPins_getters (Blueprint : UBlueprint) (n : UK2Node_Timeline) :
  Pins n = [] ->
  let n' := AllocateDefaultPins Blueprint n in
  GetPlayPin n' = Returns (mkPin EGPD_Input PC_Exec None PlayPinName EmptyString)
  /\ GetPlayFromStartPin n'
     = Returns (mkPin EGPD_Input PC_Exec None PlayFromStartPinName EmptyString)
  /\ GetStopPin n' = Returns (mkPin EGPD_Input PC_Exec None StopPinName EmptyString)
  /\ GetReversePin n' = Returns (mkPin EGPD_Input PC_Exec None ReversePinName EmptyString)
  /\ GetReverseFromEndPin n'
     = Returns (mkPin EGPD_Input PC_Exec None ReverseFromEndPinName EmptyString)
  /\ GetUpdatePin n' = Returns (mkPin EGPD_Output PC_Exec None UpdatePinName EmptyString)
  /\ GetFinishedPin n' = Returns (mkPin EGPD_Output PC_Exec None FinishedPinName EmptyString)
  /\ GetNewTimePin n' = Returns (mkPin EGPD_Input PC_Float None NewTimePinName "0.0"%string)
  /\ GetSetNewTimePin n'
     = Returns (mkPin EGPD_Input PC_Exec None SetNewTimePinName EmptyString)
  /\ GetDirectionPin n'
     = Some (mkPin EGPD_Output PC_Byte (Some TimelineDirectionEnum) DirectionPinName EmptyString).
Proof.
  intros Hempty n'.
  pose proof (Pins_AllocateDefaultPins Blueprint n) as Hpins. fold n' in Hpins.
  rewrite Hempty in Hpins. cbn [app] in Hpins.
  unfold GetPlayPin, GetPlayFromStartPin, GetStopPin, GetReversePin, GetReverseFromEndPin,
    GetUpdatePin, GetFinishedPin, GetNewTimePin, GetSetNewTimePin, GetDirectionPin, GetPin,
    FindPin.
  rewrite Hpins. unfold FixedPins.
  repeat split; reflexivity.
Qed.

(** A template whose float track is called Stop. *)
Lemma AllocateDefaultPins_getters_witness :
  let Timeline := mkTemplate "Timeline_0"%string [mkTrack "Stop"%string] [] [] []
                    false false false false in
  let n := AllocateDefaultPins (mkBlueprint [Timeline])
             (mkNode [] "Timeline_0"%string false false false false false) in
  GetStopPin n = Returns (mkPin EGPD_Input PC_Exec None StopPinName EmptyString)
  /\ FindPin "Stop"%string n = Some (mkPin EGPD_Input PC_Exec None StopPinName EmptyString).
Proof.
  intros Timeline n.
  destruct (AllocateDefaultPins_getters (mkBlueprint [Timeline])
              (mkNode [] "Timeline_0"%string false false false false false) eq_refl)
    as (_ & _ & Hstop & _).
  split; [exact Hstop | reflexivity].
Defined.

(** *** Differences between two timeline nodes *)

(** The kinds of difference of DiffResults.h this file reports. *)
Inductive EDiffType : Set :=
| NO_DIFFERENCE
| TIMELINE_AUTOPLAY
| TIMELINE_LOOP
| TIMELINE_LENGTH
| TIMELINE_IGNOREDILATION
| TIMELINE_NUM_TRACKS
| TIMELINE_TRACK_MODIFIED.

#[global] Instance EDiffType_eq_dec : EqDecision EDiffType.
Proof. solve_decision. Defined.

(** An [FDiffSingleResult]: the kind of difference and the two nodes; a
    new one has the kind [NO_DIFFERENCE].  The tool tip, the display
    string and the colour, which are texts for the user built from the node
    title and the track name, are left out. *)
Record FDiffSingleResult : Set := mkDiffResult {
  Diff : EDiffType;
  Node1 : UK2Node_Timeline;
  Node2 : UK2Node_Timeline
}.

Definition set_Diff (d : EDiffType) (r : FDiffSingleResult) : FDiffSingleResult :=
  mkDiffResult d (Node1 r) (Node2 r).

Section FindDiffs.

(** What the records above leave out of a template and of a track: the
    length of the timeline, a [float] compared with [!=], and
    [operator==] of two tracks.  [FBlueprintEditorUtils::FindTimelineIndex]
    is not among the sources; [None] is [INDEX_NONE]. *)
Variable float : Type.
Variable TimelineLength : UTimelineTemplate -> float.
Variable float_ne : float -> float -> bool.
Variable track_eq : FTTTrackBase -> FTTTrackBase -> bool.
Variable FindTimelineIndex : UBlueprint -> FName -> option nat.

(** The loop of [FindExactTimelineDifference] over two arrays of one
    length: whether some index holds two tracks that are not equal. *)
Fixpoint some_track_differs (Tracks1 Tracks2 : list FTTTrackBase) : bool :=
  match Tracks1, Tracks2 with
  | t1 :: rest1, t2 :: rest2 =>
      if negb (track_eq t1 t2) then true else some_track_differs rest1 rest2
  | _, _ => false
  end.

(** [FindExactTimelineDifference]; [Result] is passed by value. *)
Definition FindExactTimelineDifference (Results : list FDiffSingleResult)
    (Result : FDiffSingleResult) (Tracks1 Tracks2 : list FTTTrackBase)
    : list FDiffSingleResult :=
  if negb (Nat.eqb (length Tracks1) (length Tracks2))
  then Results ++ [set_Diff TIMELINE_NUM_TRACKS Result]
  else if some_track_differs Tracks1 Tracks2
       then Results ++ [set_Diff TIMELINE_TRACK_MODIFIED Result]
       else Results.

(** The body of [FindDiffs] once both templates are at hand. *)
Definition FindDiffs_templates (Timeline1 Timeline2 : UK2Node_Timeline)
    (Template1 Template2 : UTimelineTemplate) (Results : list FDiffSingleResult)
    : list FDiffSingleResult :=
  let Diff := mkDiffResult NO_DIFFERENCE Timeline2 Timeline1 in
  let '(Diff, Results) :=
    if negb (Bool.eqb (Timeline_bAutoPlay Template1) (Timeline_bAutoPlay Template2))
    then (set_Diff TIMELINE_AUTOPLAY Diff, Results ++ [set_Diff TIMELINE_AUTOPLAY Diff])
    else (Diff, Results) in
  let '(Diff, Results) :=
    if negb (Bool.eqb (Timeline_bLoop Template1) (Timeline_bLoop Template2))
    then (set_Diff TIMELINE_LOOP Diff, Results ++ [set_Diff TIMELINE_LOOP Diff])
    else (Diff, Results) in
  let '(Diff, Results) :=
    if float_ne (TimelineLength Template1) (TimelineLength Template2)
    then (set_Diff TIMELINE_LENGTH Diff, Results ++ [set_Diff TIMELINE_LENGTH Diff])
    else (Diff, Results) in
  let '(Diff, Results) :=
    if negb (Bool.eqb (Timeline_bIgnoreTimeDilation Template1)
                      (Timeline_bIgnoreTimeDilation Template2))
    then (set_Diff TIMELINE_IGNOREDILATION Diff,
          Results ++ [set_Diff TIMELINE_IGNOREDILATION Diff])
    else (Diff, Results) in
  if decide (K2Node_Timeline.Diff Diff = NO_DIFFERENCE) then
    let Results :=
      FindExactTimelineDifference Results Diff (EventTracks Template1) (EventTracks Template2) in
    let Results :=
      FindExactTimelineDifference Results Diff (FloatTracks Template1) (FloatTracks Template2) in
    FindExactTimelineDifference Results Diff (VectorTracks Template1) (VectorTracks Template2)
  else Results.

(** [UK2Node_Timeline::FindDiffs]; [Timeline1] is [this] and [Timeline2]
    the other node, each with its blueprint.  [None] is an index past the
    end of [Timelines]. *)
Definition FindDiffs (Blueprint1 Blueprint2 : UBlueprint) (Timeline1 Timeline2 : UK2Node_Timeline)
    (Results : list FDiffSingleResult) : option (list FDiffSingleResult) :=
  match FindTimelineIndex Blueprint1 (TimelineName Timeline1),
        FindTimelineIndex Blueprint2 (TimelineName Timeline2) with
  | Some Index1, Some Index2 =>
      match Timelines Blueprint1 !! Index1, Timelines Blueprint2 !! Index2 with
      | Some Template1, Some Template2 =>
          Some (FindDiffs_templates Timeline1 Timeline2 Template1 Template2 Results)
      | _, _ => None
      end
  | _, _ => Some Results
  end.

(** The kinds reported for the four settings, in the order of the tests. *)
Definition setting_kinds (Template1 Template2 : UTimelineTemplate) : list EDiffType :=
  (if Bool.eqb (Timeline_bAutoPlay Template1) (Timeline_bAutoPlay Template2)
   then [] else [TIMELINE_AUTOPLAY])
  ++ (if Bool.eqb (Timeline_bLoop Template1) (Timeline_bLoop Template2)
      then [] else [TIMELINE_LOOP])
  ++ (if float_ne (TimelineLength Template1) (TimelineLength Template2)
      then [TIMELINE_LENGTH] else [])
  ++ (if Bool.eqb (Timeline_bIgnoreTimeDilation Template1)
                  (Timeline_bIgnoreTimeDilation Template2)
      then [] else [TIMELINE_IGNOREDILATION]).

(** The kind reported for one kind of track. *)
Definition track_kinds (Tracks1 Tracks2 : list FTTTrackBase) : list EDiffType :=
  if negb (Nat.eqb (length Tracks1) (length Tracks2)) then [TIMELINE_NUM_TRACKS]
  else if some_track_differs Tracks1 Tracks2 then [TIMELINE_TRACK_MODIFIED]
       else [].

Definition reported_kinds (Template1 Template2 : UTimelineTemplate) : list EDiffType :=
  match setting_kinds Template1 Template2 with
  | [] =>
      track_kinds (EventTracks Template1) (EventTracks Template2)
      ++ track_kinds (FloatTracks Template1) (FloatTracks Template2)
      ++ track_kinds (VectorTracks Template1) (VectorTracks Template2)
  | kinds => kinds
  end.

Lemma FindExactTimelineDifference_kinds (Results : list FDiffSingleResult)
    (Result : FDiffSingleResult) (Tracks1 Tracks2 : list FTTTrackBase) :
  FindExactTimelineDifference Results Result Tracks1 Tracks2
  = Results ++ map (fun k => set_Diff k Result) (track_kinds Tracks1 Tracks2).
Proof.
  unfold FindExactTimelineDifference, track_kinds.
  destruct (negb (Nat.eqb (length Tracks1) (length Tracks2))); [reflexivity |].
  destruct (some_track_differs Tracks1 Tracks2); [reflexivity |].
  cbn [map]. rewrite app_nil_r. reflexivity.
Qed.

Lemma FindDiffs_templates_kinds (Timeline1 Timeline2 : UK2Node_Timeline)
    (Template1 Template2 : UTimelineTemplate) (Results : list FDiffSingleResult) :
  FindDiffs_templates Timeline1 Timeline2 Template1 Template2 Results
  = Results ++ map (fun k => mkDiffResult k Timeline2 Timeline1)
                   (reported_kinds Template1 Template2).
Proof.
  unfold FindDiffs_templates, reported_kinds, setting_kinds.
  destruct (Bool.eqb (Timeline_bAutoPlay Template1) (Timeline_bAutoPlay Template2));
    destruct (Bool.eqb (Timeline_bLoop Template1) (Timeline_bLoop Template2));
    destruct (float_ne (TimelineLength Template1) (TimelineLength Template2));
    destruct (Bool.eqb (Timeline_bIgnoreTimeDilation Template1)
                       (Timeline_bIgnoreTimeDilation Template2));
    cbn [negb app map set_Diff Node1 Node2 Diff];
    try (destruct (decide _) as [Hd | Hd]; [discriminate Hd |]);
    rewrite <- ?app_assoc; try reflexivity.
  destruct (decide _) as [_ | Hd]; [| contradiction].
  rewrite !FindExactTimelineDifference_kinds, !map_app, <- !app_assoc.
  reflexivity.
Qed.

(** The four settings [FindDiffs] compares are the same. *)
Definition same_settings (Template1 Template2 : UTimelineTemplate) : Prop :=
  Timeline_bAutoPlay Template1 = Timeline_bAutoPlay Template2
  /\ Timeline_bLoop Template1 = Timeline_bLoop Template2
  /\ float_ne (TimelineLength Template1) (TimelineLength Template2) = false
  /\ Timeline_bIgnoreTimeDilation Template1 = Timeline_bIgnoreTimeDilation Template2.

(** Two arrays of tracks are the same: as many tracks, equal one by one. *)
Definition same_tracks (Tracks1 Tracks2 : list FTTTrackBase) : Prop :=
  length Tracks1 = length Tracks2 /\ some_track_differs Tracks1 Tracks2 = false.

(** What [FindDiffs] reads of a template. *)
Definition compared_alike (T T' : UTimelineTemplate) : Prop :=
  Timeline_bAutoPlay T = Timeline_bAutoPlay T'
  /\ Timeline_bLoop T = Timeline_bLoop T'
  /\ TimelineLength T = TimelineLength T'
  /\ Timeline_bIgnoreTimeDilation T = Timeline_bIgnoreTimeDilation T'
  /\ EventTracks T = EventTracks T'
  /\ FloatTracks T = FloatTracks T'
  /\ VectorTracks T = VectorTracks T'.

Lemma setting_kinds_nil (Template1 Template2 : UTimelineTemplate) :
  setting_kinds Template1 Template2 = [] <-> same_settings Template1 Template2.
Proof.
  unfold setting_kinds, same_settings.
  destruct (Bool.eqb_spec (Timeline_bAutoPlay Template1) (Timeline_bAutoPlay Template2));
    destruct (Bool.eqb_spec (Timeline_bLoop Template1) (Timeline_bLoop Template2));
    destruct (float_ne (TimelineLength Template1) (TimelineLength Template2));
    destruct (Bool.eqb_spec (Timeline_bIgnoreTimeDilation Template1)
                            (Timeline_bIgnoreTimeDilation Template2));
    cbn [app]; split; try discriminate; try tauto;
    intros (? & ? & ? & ?); try discriminate; contradiction.
Qed.

Lemma setting_kinds_bound (Template1 Template2 : UTimelineTemplate) :
  (length (setting_kinds Template1 Template2) <= 4)%nat
  /\ forall k, In k (setting_kinds Template1 Template2) ->
       k = TIMELINE_AUTOPLAY \/ k = TIMELINE_LOOP \/ k = TIMELINE_LENGTH
       \/ k = TIMELINE_IGNOREDILATION.
Proof.
  unfold setting_kinds.
  destruct (Bool.eqb (Timeline_bAutoPlay Template1) (Timeline_bAutoPlay Template2));
    destruct (Bool.eqb (Timeline_bLoop Template1) (Timeline_bLoop Template2));
    destruct (float_ne (TimelineLength Template1) (TimelineLength Template2));
    destruct (Bool.eqb (Timeline_bIgnoreTimeDilation Template1)
                       (Timeline_bIgnoreTimeDilation Template2));
    cbn [app length In]; (split; [lia | intros k Hk; intuition auto]).
Qed.

Lemma track_kinds_nil (Tracks1 Tracks2 : list FTTTrackBase) :
  track_kinds Tracks1 Tracks2 = [] <-> same_tracks Tracks1 Tracks2.
Proof.
  unfold track_kinds, same_tracks.
  destruct (Nat.eqb_spec (length Tracks1) (length Tracks2)) as [He | Hne]; cbn [negb].
  - destruct (some_track_differs Tracks1 Tracks2); split; try discriminate; auto.
    intros [_ H]. discriminate H.
  - split; [discriminate | intros [H _]; contradiction].
Qed.

Lemma track_kinds_bound (Tracks1 Tracks2 : list FTTTrackBase) :
  (length (track_kinds Tracks1 Tracks2) <= 1)%nat
  /\ forall k, In k (track_kinds Tracks1 Tracks2) ->
       k = TIMELINE_NUM_TRACKS \/ k = TIMELINE_TRACK_MODIFIED.
Proof.
  unfold track_kinds.
  destruct (negb (Nat.eqb (length Tracks1) (length Tracks2)));
    [| destruct (some_track_differs Tracks1 Tracks2)];
    cbn [length In]; (split; [lia | intros k Hk; intuition auto]).
Qed.

(** X6.  [FindDiffs] adds nothing when one of the two timelines is not
    found.  With both templates at hand it appends its results to
    [Results], each naming the other node first and this node second, and
    it adds none exactly when the templates have the same auto-play, loop
    and ignore-time-dilation flags, lengths that do not differ, and the
    same event, float and vector tracks.  When a setting differs only
    settings are reported (at most four results) and the tracks are not
    compared; otherwise at most one result per kind of track is added.
    The linear-color tracks, the replicated flag and the name of a
    template are never read: templates alike in what is compared give the
    same results. *)
Theorem FindDiffs_reports (Blueprint1 Blueprint2 : UBlueprint)
    (Timeline1 Timeline2 : UK2Node_Timeline) (Results : list FDiffSingleResult) :
  ((FindTimelineIndex Blueprint1 (TimelineName Timeline1) = None
    \/ FindTimelineIndex Blueprint2 (TimelineName Timeline2) = None) ->
   FindDiffs Blueprint1 Blueprint2 Timeline1 Timeline2 Results = Some Results)
  /\ (forall Index1 Index2 Template1 Template2,
        FindTimelineIndex Blueprint1 (TimelineName Timeline1) = Some Index1 ->
        FindTimelineIndex Blueprint2 (TimelineName Timeline2) = Some Index2 ->
        Timelines Blueprint1 !! Index1 = Some Template1 ->
        Timelines Blueprint2 !! Index2 = Some Template2 ->
        FindDiffs Blueprint1 Blueprint2 Timeline1 Timeline2 Results
        = Some (FindDiffs_templates Timeline1 Timeline2 Template1 Template2 Results))
  /\ forall Template1 Template2,
       exists New,
         FindDiffs_templates Timeline1 Timeline2 Template1 Template2 Results = Results ++ New
         /\ (forall r, In r New -> Node1 r = Timeline2 /\ Node2 r = Timeline1)
         /\ (New = [] <->
             same_settings Template1 Template2
             /\ same_tracks (EventTracks Template1) (EventTracks Template2)
             /\ same_tracks (FloatTracks Template1) (FloatTracks Template2)
             /\ same_tracks (VectorTracks Template1) (VectorTracks Template2))
         /\ (~ same_settings Template1 Template2 ->
             (1 <= length New <= 4)%nat
             /\ forall r, In r New ->
                  Diff r = TIMELINE_AUTOPLAY \/ Diff r = TIMELINE_LOOP
                  \/ Diff r = TIMELINE_LENGTH \/ Diff r = TIMELINE_IGNOREDILATION)
         /\ (same_settings Template1 Template2 ->
             (length New <= 3)%nat
             /\ forall r, In r New ->
                  Diff r = TIMELINE_NUM_TRACKS \/ Diff r = TIMELINE_TRACK_MODIFIED)
         /\ (forall Template1' Template2',
               compared_alike Template1 Template1' -> compared_alike Template2 Template2' ->
               FindDiffs_templates Timeline1 Timeline2 Template1' Template2' Results
               = Results ++ New).
Proof.
  split; [| split].
  - unfold FindDiffs. intros [-> | H2]; [reflexivity |]. rewrite H2.
    destruct (FindTimelineIndex Blueprint1 (TimelineName Timeline1)); reflexivity.
  - intros Index1 Index2 Template1 Template2 H1 H2 HT1 HT2.
    unfold FindDiffs. rewrite H1, H2, HT1, HT2. reflexivity.
  - intros Template1 Template2.
    exists (map (fun k => mkDiffResult k Timeline2 Timeline1)
                (reported_kinds Template1 Template2)).
    split; [apply FindDiffs_templates_kinds |].
    split.
    { intros r Hr. apply in_map_iff in Hr as (k & <- & _). split; reflexivity. }
    pose proof (setting_kinds_nil Template1 Template2) as Hnil.
    pose proof (setting_kinds_bound Template1 Template2) as [Hlen Hkinds].
    pose proof (track_kinds_nil (EventTracks Template1) (EventTracks Template2)) as He.
    pose proof (track_kinds_nil (FloatTracks Template1) (FloatTracks Template2)) as Hf.
    pose proof (track_kinds_nil (VectorTracks Template1) (VectorTracks Template2)) as Hv.
    pose proof (track_kinds_bound (EventTracks Template1) (EventTracks Template2)) as [Hle Hke].
    pose proof (track_kinds_bound (FloatTracks Template1) (FloatTracks Template2)) as [Hlf Hkf].
    pose proof (track_kinds_bound (VectorTracks Template1) (VectorTracks Template2)) as [Hlv Hkv].
    unfold reported_kinds.
    destruct (setting_kinds Template1 Template2) as [| k0 ks] eqn:Hset.
    + assert (Hsame : same_settings Template1 Template2) by (apply Hnil; reflexivity).
      split; [| split; [| split]].
      * split.
        -- intros Hmap. apply map_eq_nil in Hmap.
           apply app_eq_nil in Hmap as [H1 Hmap]. apply app_eq_nil in Hmap as [H2 H3].
           split; [exact Hsame |]. split; [apply He; exact H1 |].
           split; [apply Hf; exact H2 | apply Hv; exact H3].
        -- intros (_ & H1 & H2 & H3). apply He in H1. apply Hf in H2. apply Hv in H3.
           rewrite H1, H2, H3. reflexivity.
      * intros Hno. contradiction.
      * intros _. rewrite length_map, !length_app. split; [lia |].
        intros r Hr. apply in_map_iff in Hr as (k & <- & Hk). cbn [Diff].
        apply in_app_or in Hk as [Hk | Hk]; [auto |].
        apply in_app_or in Hk as [Hk | Hk]; auto.
      * intros T1' T2' (A1 & A2 & A3 & A4 & A5 & A6 & A7) (B1 & B2 & B3 & B4 & B5 & B6 & B7).
        rewrite FindDiffs_templates_kinds. unfold reported_kinds, setting_kinds.
        rewrite <- A1, <- A2, <- A3, <- A4, <- A5, <- A6, <- A7,
                <- B1, <- B2, <- B3, <- B4, <- B5, <- B6, <- B7.
        fold (setting_kinds Template1 Template2). rewrite Hset. reflexivity.
    + assert (Hdiff : ~ same_settings Template1 Template2).
      { intros Hsame. apply Hnil in Hsame. discriminate Hsame. }
      split; [| split; [| split]].
      * split; [intros Hmap; discriminate Hmap | intros [Hsame _]; contradiction].
      * intros _. rewrite length_map. split; [cbn [length] in *; lia |].
        intros r Hr. apply in_map_iff in Hr as (k & <- & Hk). cbn [Diff]. apply Hkinds, Hk.
      * intros Hsame. contradiction.
      * intros T1' T2' (A1 & A2 & A3 & A4 & A5 & A6 & A7) (B1 & B2 & B3 & B4 & B5 & B6 & B7).
        rewrite FindDiffs_templates_kinds. unfold reported_kinds, setting_kinds.
        rewrite <- A1, <- A2, <- A3, <- A4, <- A5, <- A6, <- A7,
                <- B1, <- B2, <- B3, <- B4, <- B5, <- B6, <- B7.
        fold (setting_kinds Template1 Template2). rewrite Hset. reflexivity.
Qed.

End FindDiffs.
End K2Node_Timeline.

(* ===================================================================== *)
(** ** 32-bit integers                                                    *)
(* ===================================================================== *)
Module Int32.
Local Open Scope Z_scope.

(** [int32]: the integers from [INT32_MIN] to [INT32_MAX].  A sum or a
    product that leaves that range wraps around ([int32_wrap]), which is
    what the compiled arithmetic does.  [/] and [%] truncate towards zero;
    a division by zero and the division of [INT32_MIN] by [-1] raise the
    divide error of the processor. *)
Definition INT32_MIN : Z := - 2 ^ 31.
Definition INT32_MAX : Z := 2 ^ 31 - 1.
Definition int32_wrap (z : Z) : Z := (z + 2 ^ 31) mod 2 ^ 32 - 2 ^ 31.
Definition is_int32 (z : Z) : Prop := INT32_MIN <= z <= INT32_MAX.

Definition divide_error (a b : Z) : bool := (b =? 0) || ((a =? INT32_MIN) && (b =? -1)).

Definition int32_div (a b : Z) : option Z :=
  if divide_error a b then None else Some (Z.quot a b).

Definition int32_rem (a b : Z) : option Z :=
  if divide_error a b then None else Some (Z.rem a b).


(** A value inside the range of [int32] is not changed by the wrap-around. *)
Lemma int32_wrap_small (z : Z) : is_int32 z -> int32_wrap z = z.
Proof.
  unfold is_int32, INT32_MIN, INT32_MAX, int32_wrap. intros Hz.
  rewrite Z.mod_small by lia. lia.
Qed.


(** A sum that passes [INT32_MAX] by less than [2 ^ 32] comes out
    [2 ^ 32] lower. *)
Lemma int32_wrap_over (z : Z) :
  INT32_MAX < z <= INT32_MAX + 2 ^ 32 -> int32_wrap z = z - 2 ^ 32.
Proof.
  unfold INT32_MAX, int32_wrap. intros Hz.
  replace (z + 2 ^ 31) with ((z - 2 ^ 32 + 2 ^ 31) + 1 * 2 ^ 32) by lia.
  rewrite Z.mod_add by lia. rewrite Z.mod_small by lia. lia.
Qed.

End Int32.

(* ===================================================================== *)
(** ** Runtime/MovieSceneTracks/Private/Tracks/MovieSceneCameraCutTrack.cpp *)
(* ===================================================================== *)
Module MovieSceneCameraCutTrack.
Import Int32.
Local Open Scope Z_scope.

(** [FFrameNumber] wraps an [int32]: its values are the integers from
    [INT32_MIN] to [INT32_MAX], and a sum that leaves that range wraps
    around ([int32_wrap]), which is what the compiled addition does. *)
Definition FFrameNumber : Set := Z.
Definition FMovieSceneObjectBindingID : Set := nat.

(** A camera-cut section object.  [SectionObject] is its identity (what a
    [UMovieSceneSection*] compares by); [StartFrame] is [Some f] when
    [HasStartFrame()] holds and [GetInclusiveStartFrame()] is [f], and
    [EndFrame] likewise for [HasEndFrame()] and [GetExclusiveEndFrame()]. *)
Record UMovieSceneCameraCutSection : Set := mkSection {
  SectionObject : nat;
  StartFrame : option FFrameNumber;
  EndFrame : option FFrameNumber;
  CameraBindingID : FMovieSceneObjectBindingID
}.

Record FFrameRate : Set := mkFrameRate { Numerator : Z; Denominator : Z }.

(** The owning movie scene: the exclusive upper bound of its playback
    range, [MovieScene::DiscreteExclusiveUpper(GetPlaybackRange())], and
    its tick resolution. *)
Record UMovieScene : Set := mkMovieScene {
  ExclusivePlayEnd : FFrameNumber;
  GetTickResolution : FFrameRate
}.

Record UMovieSceneCameraCutTrack : Set := mkTrack {
  Sections : list UMovieSceneCameraCutSection;
  bCanBlend : bool
}.

(** Modelled from the spec: the frame-rate arithmetic of
    [(StartTime + .5f * TickResolution).FrameNumber] is not among the
    sources.  [.5f * Rate] is half of one tick-resolution unit, the frame
    time reached after half a second at [Rate], and [FrameNumber] is the
    whole frame of a frame time: the start plus the whole part of
    [Numerator / (2 * Denominator)].  For an [int32] numerator and a
    non-zero [int32] denominator that whole part is an [int32] again; the
    sum with the start is an [int32] addition. *)
Definition HalfTickResolution (Rate : FFrameRate) : FFrameNumber :=
  Numerator Rate / (2 * Denominator Rate).

(** The loop of [FindEndTimeForCameraCut] (lines 237 to 244): the start of
    the first section, in array order, that starts strictly after
    [StartTime]. *)
Fixpoint first_start_after (StartTime : FFrameNumber) (Secs : list UMovieSceneCameraCutSection)
    : option FFrameNumber :=
  match Secs with
  | [] => None
  | Section :: rest =>
      match StartFrame Section with
      | Some InclusiveStartFrame =>
          if StartTime <? InclusiveStartFrame then Some InclusiveStartFrame
          else first_start_after StartTime rest
      | None => first_start_after StartTime rest
      end
  end.

(** The end time before the zero-length test of line 246. *)
Definition DefaultEndTime (OwnerScene : UMovieScene) (Secs : list UMovieSceneCameraCutSection)
    (StartTime : FFrameNumber) : FFrameNumber :=
  match first_start_after StartTime Secs with
  | Some InclusiveStartFrame => InclusiveStartFrame
  | None => Z.max (ExclusivePlayEnd OwnerScene) StartTime
  end.

(** [UMovieSceneCameraCutTrack::FindEndTimeForCameraCut]. *)
Definition FindEndTimeForCameraCut (OwnerScene : UMovieScene)
    (Secs : list UMovieSceneCameraCutSection) (StartTime : FFrameNumber) : FFrameNumber :=
  let ExclusiveEndTime := DefaultEndTime OwnerScene Secs StartTime in
  if StartTime =? ExclusiveEndTime
  then int32_wrap (StartTime + HalfTickResolution (GetTickResolution OwnerScene))
  else ExclusiveEndTime.

(** The test of line 48. *)
Definition occupies (StartTime NewSectionEndTime : FFrameNumber)
    (Section : UMovieSceneCameraCutSection) : bool :=
  match StartFrame Section, EndFrame Section with
  | Some s, Some e => (s =? StartTime) && (e =? NewSectionEndTime)
  | _, _ => false
  end.

(** The loop of lines 46 to 53: the first section with exactly that range. *)
Definition FindExistingSection (StartTime NewSectionEndTime : FFrameNumber)
    (Secs : list UMovieSceneCameraCutSection) : option UMovieSceneCameraCutSection :=
  List.find (occupies StartTime NewSectionEndTime) Secs.

(** *** Effects on the section array

    What a method does to [Sections], in order.  The three functions of
    [MovieSceneHelpers] are not among the sources: a method's calls to them
    are recorded with their arguments, and what they do to the array is a
    parameter of the model. *)
Inductive Effect : Set :=
| Sections_Add (NewSection : UMovieSceneCameraCutSection)
| Sections_Remove (Section : nat)
| Sections_RemoveAt (SectionIndex : nat)
| Section_SetCameraBindingID (Section : nat) (CameraBindingID : FMovieSceneObjectBindingID)
| SortConsecutiveSections
| FixupConsecutiveSections (Section : UMovieSceneCameraCutSection) (bDelete : bool)
| FixupConsecutiveBlendingSections (Section : UMovieSceneCameraCutSection) (bDelete : bool).

Record MovieSceneHelpers : Type := mkHelpers {
  do_SortConsecutiveSections :
    list UMovieSceneCameraCutSection -> list UMovieSceneCameraCutSection;
  do_FixupConsecutiveSections :
    list UMovieSceneCameraCutSection -> UMovieSceneCameraCutSection -> bool ->
    list UMovieSceneCameraCutSection;
  do_FixupConsecutiveBlendingSections :
    list UMovieSceneCameraCutSection -> UMovieSceneCameraCutSection -> bool ->
    list UMovieSceneCameraCutSection
}.

Definition set_binding (Section : nat) (b : FMovieSceneObjectBindingID)
    (s : UMovieSceneCameraCutSection) : UMovieSceneCameraCutSection :=
  if Nat.eqb (SectionObject s) Section
  then mkSection (SectionObject s) (StartFrame s) (EndFrame s) b
  else s.

(** One effect on the array.  [Sections.Remove] takes out every entry that
    points to the object; [SetCameraBindingID] changes the object, hence
    every entry that points to it. *)
Definition apply_effect (H : MovieSceneHelpers) (e : Effect)
    (Secs : list UMovieSceneCameraCutSection) : list UMovieSceneCameraCutSection :=
  match e with
  | Sections_Add NewSection => Secs ++ [NewSection]
  | Sections_Remove Section =>
      List.filter (fun s => negb (Nat.eqb (SectionObject s) Section)) Secs
  | Sections_RemoveAt SectionIndex => delete SectionIndex Secs
  | Section_SetCameraBindingID Section b => map (set_binding Section b) Secs
  | SortConsecutiveSections => do_SortConsecutiveSections H Secs
  | FixupConsecutiveSections Section bDelete => do_FixupConsecutiveSections H Secs Section bDelete
  | FixupConsecutiveBlendingSections Section bDelete =>
      do_FixupConsecutiveBlendingSections H Secs Section bDelete
  end.

(** The methods are written in a state monad over the track that keeps
    the log of the effects. *)
Definition M (A : Type) : Type :=
  MovieSceneHelpers -> UMovieSceneCameraCutTrack ->
  A * UMovieSceneCameraCutTrack * list Effect.

Definition ret {A : Type} (a : A) : M A := fun _ t => (a, t, []).

Definition bind {A B : Type} (m : M A) (k : A -> M B) : M B :=
  fun H t =>
    let '(a, t1, log1) := m H t in
    let '(b, t2, log2) := k a H t1 in
    (b, t2, log1 ++ log2).

Definition this : M UMovieSceneCameraCutTrack := fun _ t => (t, t, []).

Definition effect (e : Effect) : M unit :=
  fun H t => (tt, mkTrack (apply_effect H e (Sections t)) (bCanBlend t), [e]).

#[global] Instance M_ret : MRet M := @ret.
#[global] Instance M_bind : MBind M := fun A B k m => bind m k.

(** Lines 40 to 67 of [AddNewCameraCut]: swap the camera of the existing
    section, or create and add a new one.  [NewObject] is the identity of
    the object [NewObject<UMovieSceneCameraCutSection>] would create. *)
Definition AddOrSwapSection (OwnerScene : UMovieScene) (CameraBindingID : FMovieSceneObjectBindingID)
    (StartTime : FFrameNumber) (NewObject : nat) : M UMovieSceneCameraCutSection :=
  track ← this;
  let NewSectionEndTime := FindEndTimeForCameraCut OwnerScene (Sections track) StartTime in
  match FindExistingSection StartTime NewSectionEndTime (Sections track) with
  | Some ExistingSection =>
      effect (Section_SetCameraBindingID (SectionObject ExistingSection) CameraBindingID) ;;
      mret (set_binding (SectionObject ExistingSection) CameraBindingID ExistingSection)
  | None =>
      let NewSection := mkSection NewObject (Some StartTime) (Some NewSectionEndTime) CameraBindingID in
      effect (Sections_Add NewSection) ;;
      mret NewSection
  end.

(** [UMovieSceneCameraCutTrack::AddNewCameraCut]. *)
Definition AddNewCameraCut (OwnerScene : UMovieScene) (CameraBindingID : FMovieSceneObjectBindingID)
    (StartTime : FFrameNumber) (NewObject : nat) : M UMovieSceneCameraCutSection :=
  NewSection ← AddOrSwapSection OwnerScene CameraBindingID StartTime NewObject;
  effect SortConsecutiveSections ;;
  track ← this;
  (if bCanBlend track
   then effect (FixupConsecutiveBlendingSections NewSection false)
   else effect (FixupConsecutiveSections NewSection false)) ;;
  mret NewSection.

(** [UMovieSceneCameraCutTrack::OnSectionMoved]. *)
Definition OnSectionMoved (Section : UMovieSceneCameraCutSection) : M unit :=
  track ← this;
  if bCanBlend track
  then effect (FixupConsecutiveBlendingSections Section false)
  else effect (FixupConsecutiveSections Section false).

(** [UMovieSceneCameraCutTrack::RemoveSection]. *)
Definition RemoveSection (Section : UMovieSceneCameraCutSection) : M unit :=
  effect (Sections_Remove (SectionObject Section)) ;;
  track ← this;
  if bCanBlend track
  then effect (FixupConsecutiveSections Section true)
  else effect (FixupConsecutiveBlendingSections Section true).

(** [UMovieSceneCameraCutTrack::RemoveSectionAt]; [Sections[SectionIndex]]
    is a checked access, and [None] is its failure. *)
Definition RemoveSectionAt (SectionIndex : nat) : MovieSceneHelpers -> UMovieSceneCameraCutTrack ->
    option (unit * UMovieSceneCameraCutTrack * list Effect) :=
  fun H t =>
    match Sections t !! SectionIndex with
    | None => None
    | Some SectionToDelete =>
        Some ((track ← this;
               (if bCanBlend track
                then effect (FixupConsecutiveSections SectionToDelete true)
                else effect (FixupConsecutiveBlendingSections SectionToDelete true)) ;;
               effect (Sections_RemoveAt SectionIndex) ;;
               effect SortConsecutiveSections) H t)
    end.

(** The log of a run. *)
Definition effects_of {A : Type} (r : A * UMovieSceneCameraCutTrack * list Effect) : list Effect :=
  snd r.
Definition track_of {A : Type} (r : A * UMovieSceneCameraCutTrack * list Effect)
    : UMovieSceneCameraCutTrack :=
  snd (fst r).
Definition value_of {A : Type} (r : A * UMovieSceneCameraCutTrack * list Effect) : A :=
  fst (fst r).

(** Helpers that leave the array as it is, for the examples. *)
Definition inert_helpers : MovieSceneHelpers :=
  mkHelpers (fun Secs => Secs) (fun Secs _ _ => Secs) (fun Secs _ _ => Secs).

(** The fix-up a method picks for the flag: the blend-aware one with
    blending enabled, the plain one otherwise. *)
Definition fixup_for (bBlend : bool) (Section : UMovieSceneCameraCutSection) (bDelete : bool)
    : Effect :=
  if bBlend then FixupConsecutiveBlendingSections Section bDelete
  else FixupConsecutiveSections Section bDelete.

(** *** The end time of a new camera cut *)

Lemma first_start_after_Some (StartTime f : FFrameNumber) (Secs : list UMovieSceneCameraCutSection) :
  first_start_after StartTime Secs = Some f <->
  exists before Section after,
    Secs = before ++ Section :: after
    /\ StartFrame Section = Some f /\ StartTime < f
    /\ forall s g, In s before -> StartFrame s = Some g -> g <= StartTime.
Proof.
  induction Secs as [| s Secs IH]; cbn [first_start_after].
  - split; [discriminate |]. intros (before & Section & after & Heq & _).
    destruct before; discriminate.
  - destruct (StartFrame s) as [g |] eqn:Hs.
    + destruct (Z.ltb_spec StartTime g) as [Hlt | Hge].
      * split.
        -- intros [= <-]. exists [], s, Secs. repeat split; auto.
           intros s0 g0 [].
        -- intros (before & Section & after & Heq & Hstart & Hafter & Hbefore).
           destruct before as [| b before]; cbn in Heq; injection Heq as <- _.
           ++ congruence.
           ++ specialize (Hbefore s g (or_introl eq_refl) Hs). lia.
      * rewrite IH. split.
        -- intros (before & Section & after & -> & Hstart & Hafter & Hbefore).
           exists (s :: before), Section, after. repeat split; auto.
           intros s0 g0 [<- | Hin] Hs0; [congruence | eauto].
        -- intros (before & Section & after & Heq & Hstart & Hafter & Hbefore).
           destruct before as [| b before]; cbn in Heq; injection Heq as <- Heq.
           ++ assert (f = g) by congruence. lia.
           ++ exists before, Section, after. repeat split; auto.
              intros s0 g0 Hin. apply Hbefore. right. exact Hin.
    + rewrite IH. split.
      * intros (before & Section & after & -> & Hstart & Hafter & Hbefore).
        exists (s :: before), Section, after. repeat split; auto.
        intros s0 g0 [<- | Hin] Hs0; [congruence | eauto].
      * intros (before & Section & after & Heq & Hstart & Hafter & Hbefore).
        destruct before as [| b before]; cbn in Heq; injection Heq as <- Heq.
        -- congruence.
        -- exists before, Section, after. repeat split; auto.
           intros s0 g0 Hin. apply Hbefore. right. exact Hin.
Qed.

Lemma first_start_after_None (StartTime : FFrameNumber) (Secs : list UMovieSceneCameraCutSection) :
  first_start_after StartTime Secs = None <->
  forall s g, In s Secs -> StartFrame s = Some g -> g <= StartTime.
Proof.
  induction Secs as [| s Secs IH]; cbn [first_start_after].
  - split; [intros _ s g [] | reflexivity].
  - destruct (StartFrame s) as [g |] eqn:Hs.
    + destruct (Z.ltb_spec StartTime g) as [Hlt | Hge].
      * split; [discriminate |]. intros Hall.
        specialize (Hall s g (or_introl eq_refl) Hs). lia.
      * rewrite IH. split.
        -- intros Hall s0 g0 [<- | Hin] Hs0; [| eauto].
           assert (g0 = g) by congruence. lia.
        -- intros Hall s0 g0 Hin. apply Hall. right. exact Hin.
    + rewrite IH. split.
      * intros Hall s0 g0 [<- | Hin] Hs0; [congruence | eauto].
      * intros Hall s0 g0 Hin. apply Hall. right. exact Hin.
Qed.

Lemma DefaultEndTime_ge (OwnerScene : UMovieScene) (Secs : list UMovieSceneCameraCutSection)
    (StartTime : FFrameNumber) :
  StartTime <= DefaultEndTime OwnerScene Secs StartTime.
Proof.
  unfold DefaultEndTime.
  destruct (first_start_after StartTime Secs) as [f |] eqn:Hf; [| lia].
  apply first_start_after_Some in Hf. destruct Hf as (_ & _ & _ & _ & _ & Hlt & _). lia.
Qed.

Lemma FindEndTimeForCameraCut_cases (OwnerScene : UMovieScene)
    (Secs : list UMovieSceneCameraCutSection) (StartTime : FFrameNumber) :
  (DefaultEndTime OwnerScene Secs StartTime = StartTime ->
   FindEndTimeForCameraCut OwnerScene Secs StartTime
   = int32_wrap (StartTime + HalfTickResolution (GetTickResolution OwnerScene)))
  /\ (DefaultEndTime OwnerScene Secs StartTime <> StartTime ->
      FindEndTimeForCameraCut OwnerScene Secs StartTime = DefaultEndTime OwnerScene Secs StartTime).
Proof.
  unfold FindEndTimeForCameraCut. cbv zeta.
  destruct (Z.eqb_spec StartTime (DefaultEndTime OwnerScene Secs StartTime)) as [He | Hne];
    split; intros Hd; congruence.
Qed.

Lemma FindEndTimeForCameraCut_after_start (OwnerScene : UMovieScene)
    (Secs : list UMovieSceneCameraCutSection) (StartTime : FFrameNumber) :
  0 < HalfTickResolution (GetTickResolution OwnerScene) ->
  INT32_MIN <= StartTime ->
  StartTime + HalfTickResolution (GetTickResolution OwnerScene) <= INT32_MAX ->
  StartTime < FindEndTimeForCameraCut OwnerScene Secs StartTime.
Proof.
  intros Hhalf Hmin Hmax. pose proof (DefaultEndTime_ge OwnerScene Secs StartTime) as Hge.
  unfold FindEndTimeForCameraCut. cbv zeta.
  destruct (Z.eqb_spec StartTime (DefaultEndTime OwnerScene Secs StartTime)); [| lia].
  rewrite int32_wrap_small by (unfold is_int32; lia). lia.
Qed.

(** Where the end time is not after the start. *)
Lemma FindEndTimeForCameraCut_not_after_start (OwnerScene : UMovieScene)
    (Secs : list UMovieSceneCameraCutSection) (StartTime : FFrameNumber) :
  let Half := HalfTickResolution (GetTickResolution OwnerScene) in
  DefaultEndTime OwnerScene Secs StartTime = StartTime ->
  is_int32 StartTime -> 0 <= Half <= INT32_MAX ->
  (Half = 0 -> FindEndTimeForCameraCut OwnerScene Secs StartTime = StartTime)
  /\ (INT32_MAX < StartTime + Half ->
      FindEndTimeForCameraCut OwnerScene Secs StartTime = StartTime + Half - 2 ^ 32
      /\ FindEndTimeForCameraCut OwnerScene Secs StartTime < StartTime).
Proof.
  intros Half Hd Hs Hh.
  destruct (FindEndTimeForCameraCut_cases OwnerScene Secs StartTime) as [Hpush _].
  rewrite (Hpush Hd). fold Half. split.
  - intros ->. rewrite Z.add_0_r. apply int32_wrap_small. exact Hs.
  - intros Hover. unfold is_int32, INT32_MIN, INT32_MAX in *.
    rewrite int32_wrap_over by (unfold INT32_MAX; lia). lia.
Qed.

Lemma occupies_true (StartTime EndTime : FFrameNumber) (s : UMovieSceneCameraCutSection) :
  occupies StartTime EndTime s = true <->
  StartFrame s = Some StartTime /\ EndFrame s = Some EndTime.
Proof.
  unfold occupies. destruct (StartFrame s) as [a |], (EndFrame s) as [b |];
    try (split; [discriminate | intros [? ?]; discriminate]).
  rewrite andb_true_iff, !Z.eqb_eq. split; [intros [-> ->]; auto | intros [[= ->] [= ->]]; auto].
Qed.

(** *** Insertion *)

Ltac run_track_method :=
  unfold effects_of, track_of, value_of, AddNewCameraCut, AddOrSwapSection, OnSectionMoved,
    RemoveSection, fixup_for, mbind, M_bind, bind, mret, M_ret, ret, this, effect;
  cbn [fst snd Sections bCanBlend app].

(** What [AddNewCameraCut] does after the insertion step: one sort and one
    fix-up, the blend-aware one when blending is enabled. *)
Lemma AddNewCameraCut_effects (H : MovieSceneHelpers) (OwnerScene : UMovieScene)
    (track : UMovieSceneCameraCutTrack) (CameraBindingID : FMovieSceneObjectBindingID)
    (StartTime : FFrameNumber) (NewObject : nat) :
  let r := AddOrSwapSection OwnerScene CameraBindingID StartTime NewObject H track in
  value_of (AddNewCameraCut OwnerScene CameraBindingID StartTime NewObject H track) = value_of r
  /\ effects_of (AddNewCameraCut OwnerScene CameraBindingID StartTime NewObject H track)
     = effects_of r ++ [SortConsecutiveSections; fixup_for (bCanBlend track) (value_of r) false].
Proof.
  run_track_method.
  destruct (FindExistingSection StartTime _ (Sections track));
    cbn [fst snd Sections bCanBlend app]; destruct (bCanBlend track); split; reflexivity.
Qed.

(** C2.  What [AddNewCameraCut] does.  It never adds a duplicate section:
    if a section occupies exactly the range from the start to the computed
    end, its camera binding is swapped in place and nothing is added;
    otherwise no section has that range and one new section with it is
    added.  The computed end is the start of the first section that starts
    strictly after the requested start, else the exclusive upper bound of
    the playback range raised to at least the start; when it equals the
    start, the end is the [int32] sum of the start and the whole frames in
    half of one tick-resolution unit.  That end is after the start when the
    half unit is at least one frame and the sum stays within [int32].  It
    is not otherwise: with a half unit of no whole frame (a tick resolution
    below 2 per second) the section returned ends where it starts, a
    zero-length section, and when the sum passes [INT32_MAX] it wraps
    around and the section ends before it starts. *)
Theorem AddNewCameraCut_swap_or_add (H : MovieSceneHelpers) (OwnerScene : UMovieScene)
    (track : UMovieSceneCameraCutTrack) (CameraBindingID : FMovieSceneObjectBindingID)
    (StartTime : FFrameNumber) (NewObject : nat) :
  let Secs := Sections track in
  let Default := DefaultEndTime OwnerScene Secs StartTime in
  let EndTime := FindEndTimeForCameraCut OwnerScene Secs StartTime in
  let r := AddOrSwapSection OwnerScene CameraBindingID StartTime NewObject H track in
  let NewSection := value_of (AddNewCameraCut OwnerScene CameraBindingID StartTime NewObject H track) in
  (* the computed end *)
  (forall f, first_start_after StartTime Secs = Some f -> Default = f /\ StartTime < f)
  /\ (first_start_after StartTime Secs = None ->
      Default = Z.max (ExclusivePlayEnd OwnerScene) StartTime)
  /\ (Default = StartTime ->
      EndTime = int32_wrap (StartTime + HalfTickResolution (GetTickResolution OwnerScene)))
  /\ (Default <> StartTime -> EndTime = Default)
  (* a section with exactly that range: its camera is swapped in place *)
  /\ (forall s, In s Secs -> StartFrame s = Some StartTime -> EndFrame s = Some EndTime ->
        exists Existing,
          FindExistingSection StartTime EndTime Secs = Some Existing
          /\ NewSection = set_binding (SectionObject Existing) CameraBindingID Existing
          /\ Sections (track_of r) = map (set_binding (SectionObject Existing) CameraBindingID) Secs
          /\ length (Sections (track_of r)) = length Secs
          /\ effects_of r = [Section_SetCameraBindingID (SectionObject Existing) CameraBindingID])
  (* no such section: a new one is added, and it duplicates none *)
  /\ ((forall s, In s Secs -> ~ (StartFrame s = Some StartTime /\ EndFrame s = Some EndTime)) ->
      NewSection = mkSection NewObject (Some StartTime) (Some EndTime) CameraBindingID
      /\ Sections (track_of r) = Secs ++ [NewSection]
      /\ effects_of r = [Sections_Add NewSection])
  (* the returned section *)
  /\ StartFrame NewSection = Some StartTime
  /\ EndFrame NewSection = Some EndTime
  /\ MovieSceneCameraCutTrack.CameraBindingID NewSection = CameraBindingID
  (* the length of the returned section *)
  /\ (0 < HalfTickResolution (GetTickResolution OwnerScene) ->
      INT32_MIN <= StartTime ->
      StartTime + HalfTickResolution (GetTickResolution OwnerScene) <= INT32_MAX ->
      StartTime < EndTime)
  /\ (Default = StartTime -> is_int32 StartTime ->
      HalfTickResolution (GetTickResolution OwnerScene) = 0 ->
      StartFrame NewSection = Some StartTime /\ EndFrame NewSection = Some StartTime)
  /\ (Default = StartTime -> is_int32 StartTime ->
      0 <= HalfTickResolution (GetTickResolution OwnerScene) <= INT32_MAX ->
      INT32_MAX < StartTime + HalfTickResolution (GetTickResolution OwnerScene) ->
      EndTime = StartTime + HalfTickResolution (GetTickResolution OwnerScene) - 2 ^ 32
      /\ EndTime < StartTime).
Proof.
  intros Secs Default EndTime r NewSection.
  destruct (AddNewCameraCut_effects H OwnerScene track CameraBindingID StartTime NewObject)
    as [Hvalue _].
  fold r in Hvalue. fold NewSection in Hvalue.
  assert (Hfound : forall Existing,
    FindExistingSection StartTime EndTime Secs = Some Existing ->
    NewSection = set_binding (SectionObject Existing) CameraBindingID Existing
    /\ Sections (track_of r) = map (set_binding (SectionObject Existing) CameraBindingID) Secs
    /\ effects_of r = [Section_SetCameraBindingID (SectionObject Existing) CameraBindingID]
    /\ StartFrame Existing = Some StartTime /\ EndFrame Existing = Some EndTime).
  { intros Existing Hex. rewrite Hvalue. subst r. run_track_method.
    fold Secs. fold EndTime. rewrite Hex. cbn [fst snd Sections app].
    apply find_some in Hex. destruct Hex as [_ Hocc]. apply occupies_true in Hocc.
    repeat split; tauto. }
  assert (Hnone :
    FindExistingSection StartTime EndTime Secs = None ->
    NewSection = mkSection NewObject (Some StartTime) (Some EndTime) CameraBindingID
    /\ Sections (track_of r) = Secs ++ [NewSection]
    /\ effects_of r = [Sections_Add NewSection]).
  { intros Hex. rewrite Hvalue. subst r. run_track_method.
    fold Secs. fold EndTime. rewrite Hex. cbn [fst snd Sections app]. repeat split. }
  destruct (FindEndTimeForCameraCut_cases OwnerScene Secs StartTime) as [Hpush Hkeep].
  split.
  { intros f Hf. unfold Default, DefaultEndTime. rewrite Hf. split; [reflexivity |].
    apply first_start_after_Some in Hf. destruct Hf as (_ & _ & _ & _ & _ & Hlt & _). exact Hlt. }
  split.
  { intros Hf. unfold Default, DefaultEndTime. rewrite Hf. reflexivity. }
  split; [exact Hpush |]. split; [exact Hkeep |].
  split.
  { intros s Hin Hs He.
    destruct (FindExistingSection StartTime EndTime Secs) as [Existing |] eqn:Hex.
    - exists Existing. destruct (Hfound Existing eq_refl) as (Hv & Hsecs & Heff & _).
      repeat split; auto. rewrite Hsecs. apply length_map.
    - exfalso. unfold FindExistingSection in Hex.
      pose proof (find_none _ _ Hex s Hin) as Hocc.
      assert (Htrue : occupies StartTime EndTime s = true) by (apply occupies_true; auto).
      congruence. }
  split.
  { intros Hno. apply Hnone.
    destruct (FindExistingSection StartTime EndTime Secs) as [Existing |] eqn:Hex; [| reflexivity].
    exfalso. apply find_some in Hex. destruct Hex as [Hin Hocc].
    apply occupies_true in Hocc. exact (Hno Existing Hin Hocc). }
  assert (Hshape : StartFrame NewSection = Some StartTime /\ EndFrame NewSection = Some EndTime
                   /\ MovieSceneCameraCutTrack.CameraBindingID NewSection = CameraBindingID).
  { destruct (FindExistingSection StartTime EndTime Secs) as [Existing |] eqn:Hex.
    - destruct (Hfound Existing eq_refl) as (-> & _ & _ & Hs & He).
      unfold set_binding. rewrite Nat.eqb_refl. cbn. auto.
    - destruct (Hnone eq_refl) as (-> & _ & _). cbn. auto. }
  destruct Hshape as (Hs & He & Hb).
  split; [exact Hs |]. split; [exact He |]. split; [exact Hb |].
  split; [apply FindEndTimeForCameraCut_after_start |].
  split.
  - intros Hd Hint Hzero. split; [exact Hs |]. rewrite He. f_equal.
    apply (FindEndTimeForCameraCut_not_after_start OwnerScene Secs StartTime Hd Hint);
      [rewrite Hzero; unfold INT32_MAX; lia | exact Hzero].
  - intros Hd Hint Hhalf Hover.
    apply (FindEndTimeForCameraCut_not_after_start OwnerScene Secs StartTime Hd Hint Hhalf).
    exact Hover.
Qed.

(** A cut added past the playback end of an empty track at 24000 ticks per
    second is 12000 ticks long; adding it again swaps the camera. *)
Lemma AddNewCameraCut_swap_or_add_witness :
  let OwnerScene := mkMovieScene 100 (mkFrameRate 24000 1) in
  value_of (AddNewCameraCut OwnerScene 7%nat 100 1%nat inert_helpers (mkTrack [] false))
  = mkSection 1%nat (Some 100) (Some 12100) 7%nat
  /\ 100 < FindEndTimeForCameraCut OwnerScene [] 100.
Proof.
  intros OwnerScene.
  pose proof (AddNewCameraCut_swap_or_add inert_helpers OwnerScene (mkTrack [] false) 7%nat 100 1%nat)
    as Hthm.
  cbv zeta in Hthm.
  destruct Hthm as (_ & _ & _ & _ & _ & Hnew & _ & _ & _ & Hlen & _).
  split.
  - destruct (Hnew ltac:(intros s [])) as [Hv _]. exact Hv.
  - apply Hlen; [reflexivity | discriminate | discriminate].
Defined.

(** With a tick resolution of one tick per second, half of one unit is no
    whole frame: the section added at the playback end of an empty track
    has the range from 0 to 0. *)
Lemma AddNewCameraCut_zero_length :
  let OwnerScene := mkMovieScene 0 (mkFrameRate 1 1) in
  let NewSection := value_of (AddNewCameraCut OwnerScene 7%nat 0 1%nat inert_helpers (mkTrack [] false)) in
  NewSection = mkSection 1%nat (Some 0) (Some 0) 7%nat
  /\ StartFrame NewSection = EndFrame NewSection
  /\ Sections (track_of (AddOrSwapSection OwnerScene 7%nat 0 1%nat inert_helpers (mkTrack [] false)))
     = [mkSection 1%nat (Some 0) (Some 0) 7%nat].
Proof. cbv zeta. repeat split; vm_compute; reflexivity. Qed.

(** At the last frame number the sum wraps around: the section added at
    [INT32_MAX] with 24000 ticks per second ends before it starts. *)
Lemma AddNewCameraCut_end_before_start :
  let OwnerScene := mkMovieScene 0 (mkFrameRate 24000 1) in
  value_of (AddNewCameraCut OwnerScene 7%nat INT32_MAX 1%nat inert_helpers (mkTrack [] false))
  = mkSection 1%nat (Some 2147483647) (Some (-2147471649)) 7%nat.
Proof. vm_compute. reflexivity. Qed.

(** *** Removal *)

(** C1.  What the two removal methods do, next to insertion and moving.
    [AddNewCameraCut] and [OnSectionMoved] pick the blend-aware fix-up when
    [bCanBlend] is set and the plain one otherwise.  [RemoveSection] and
    [RemoveSectionAt] pick the other way round: the plain fix-up when
    [bCanBlend] is set, the blend-aware one when it is not.
    [RemoveSectionAt] runs its fix-up, then removes the entry, then sorts;
    [RemoveSection] removes the section first, runs its fix-up afterwards
    and does not sort. *)
Theorem Remove_fixup_choice (H : MovieSceneHelpers) (OwnerScene : UMovieScene)
    (track : UMovieSceneCameraCutTrack) (Section : UMovieSceneCameraCutSection)
    (SectionIndex : nat) (CameraBindingID : FMovieSceneObjectBindingID)
    (StartTime : FFrameNumber) (NewObject : nat) :
  effects_of (RemoveSection Section H track)
  = [Sections_Remove (SectionObject Section); fixup_for (negb (bCanBlend track)) Section true]
  /\ match Sections track !! SectionIndex with
     | Some SectionToDelete =>
         option_map effects_of (RemoveSectionAt SectionIndex H track)
         = Some [fixup_for (negb (bCanBlend track)) SectionToDelete true;
                 Sections_RemoveAt SectionIndex; SortConsecutiveSections]
     | None => RemoveSectionAt SectionIndex H track = None
     end
  /\ effects_of (OnSectionMoved Section H track) = [fixup_for (bCanBlend track) Section false]
  /\ (let r := AddNewCameraCut OwnerScene CameraBindingID StartTime NewObject H track in
      exists first, effects_of r
                    = [first; SortConsecutiveSections; fixup_for (bCanBlend track) (value_of r) false]).
Proof.
  split.
  { run_track_method. destruct (bCanBlend track); reflexivity. }
  split.
  { unfold RemoveSectionAt. destruct (Sections track !! SectionIndex) as [S |]; [| reflexivity].
    run_track_method. destruct (bCanBlend track); reflexivity. }
  split.
  { run_track_method. destruct (bCanBlend track); reflexivity. }
  cbv zeta.
  destruct (AddNewCameraCut_effects H OwnerScene track CameraBindingID StartTime NewObject)
    as [Hv He].
  cbv zeta in Hv, He. rewrite He, Hv.
  unfold AddOrSwapSection. run_track_method.
  destruct (FindExistingSection StartTime _ (Sections track));
    cbn [fst snd app]; eexists; reflexivity.
Qed.

(** A track with blending enabled and two consecutive cuts: insertion ends
    with the blend-aware fix-up, and removing the first cut, by index or by
    reference, runs the plain one. *)
Example Remove_on_blending_track :
  let A := mkSection 1%nat (Some 0) (Some 50) 7%nat in
  let B := mkSection 2%nat (Some 50) (Some 100) 8%nat in
  let track := mkTrack [A; B] true in
  option_map effects_of (RemoveSectionAt 0 inert_helpers track)
  = Some [FixupConsecutiveSections A true; Sections_RemoveAt 0; SortConsecutiveSections]
  /\ effects_of (RemoveSection A inert_helpers track)
     = [Sections_Remove 1%nat; FixupConsecutiveSections A true]
  /\ effects_of (AddNewCameraCut (mkMovieScene 200 (mkFrameRate 24000 1)) 9%nat 100 3%nat
                   inert_helpers track)
     = [Sections_Add (mkSection 3%nat (Some 100) (Some 200) 9%nat); SortConsecutiveSections;
        FixupConsecutiveBlendingSections (mkSection 3%nat (Some 100) (Some 200) 9%nat) false].
Proof. cbv zeta. repeat split; vm_compute; reflexivity. Qed.

(** *** Easing *)

(** [EMovieSceneTrackEasingSupportFlags] of MovieSceneTrack.h, which is
    not among the sources: a set of four capabilities kept as bits, with
    [|] their union. *)
Definition EMovieSceneTrackEasingSupportFlags : Set := Z.
Definition Easing_None : EMovieSceneTrackEasingSupportFlags := 0.
Definition AutomaticEaseIn : EMovieSceneTrackEasingSupportFlags := Z.shiftl 1 0.
Definition AutomaticEaseOut : EMovieSceneTrackEasingSupportFlags := Z.shiftl 1 1.
Definition ManualEaseIn : EMovieSceneTrackEasingSupportFlags := Z.shiftl 1 2.
Definition ManualEaseOut : EMovieSceneTrackEasingSupportFlags := Z.shiftl 1 3.
Definition AutomaticEasing : EMovieSceneTrackEasingSupportFlags :=
  Z.lor AutomaticEaseIn AutomaticEaseOut.
Definition ManualEasing : EMovieSceneTrackEasingSupportFlags :=
  Z.lor ManualEaseIn ManualEaseOut.

(** A capability is offered by a result. *)
Definition offers (Flag Result : EMovieSceneTrackEasingSupportFlags) : Prop :=
  Z.land Result Flag = Flag.

(** [UMovieSceneCameraCutTrack::SupportsEasing]; [ForSection] is
    [Params.ForSection], a section object or null, compared with the
    entries of [Sections] as a pointer. *)
Definition SupportsEasing (t : UMovieSceneCameraCutTrack) (ForSection : option nat)
    : EMovieSceneTrackEasingSupportFlags :=
  if negb (bCanBlend t) then Easing_None
  else
    match ForSection with
    | Some Section =>
        let NumSections := length (Sections t) in
        if Nat.eqb NumSections 1 then Z.lor AutomaticEasing ManualEasing
        else if (1 <? NumSections)%nat then
          if bool_decide (option_map SectionObject (Sections t !! 0%nat) = Some Section)
          then Z.lor AutomaticEasing ManualEaseIn
          else if bool_decide (option_map SectionObject (last (Sections t)) = Some Section)
               then Z.lor AutomaticEasing ManualEaseOut
               else AutomaticEasing
        else AutomaticEasing
    | None => AutomaticEasing
    end.

Example SupportsEasing_three_sections :
  let t := mkTrack [mkSection 1 (Some 0) (Some 10) 0%nat; mkSection 2 (Some 10) (Some 20) 0%nat;
                    mkSection 3 (Some 20) (Some 30) 0%nat] true in
  SupportsEasing t (Some 1%nat) = 7 /\ SupportsEasing t (Some 2%nat) = 3
  /\ SupportsEasing t (Some 3%nat) = 11.
Proof. repeat split; reflexivity. Qed.

Lemma last_In {A : Type} (l : list A) (x : A) : last l = Some x -> In x l.
Proof. intros H. apply list_elem_of_In. apply last_Some in H as [l' ->]. set_solver. Qed.

(** X7.  Easing by position.  Without blending no easing is offered for
    any section.  With blending, automatic easing is always offered; a
    track of one section offers manual ease-in and ease-out for any section
    asked about; and in a track of two or more sections, each entered
    once, manual ease-in is offered for the first section only, manual
    ease-out for the last only, and never both for one section. *)
Theorem SupportsEasing_by_position (t : UMovieSceneCameraCutTrack) :
  (bCanBlend t = false -> forall ForSection, SupportsEasing t ForSection = Easing_None)
  /\ (bCanBlend t = true ->
      forall ForSection, offers AutomaticEasing (SupportsEasing t ForSection))
  /\ (bCanBlend t = true -> length (Sections t) = 1%nat ->
      forall Section,
        offers ManualEaseIn (SupportsEasing t (Some Section))
        /\ offers ManualEaseOut (SupportsEasing t (Some Section)))
  /\ (bCanBlend t = true -> (2 <= length (Sections t))%nat ->
      NoDup (map SectionObject (Sections t)) ->
      forall Section,
        (offers ManualEaseIn (SupportsEasing t (Some Section))
         <-> option_map SectionObject (head (Sections t)) = Some Section)
        /\ (offers ManualEaseOut (SupportsEasing t (Some Section))
            <-> option_map SectionObject (last (Sections t)) = Some Section)
        /\ ~ (offers ManualEaseIn (SupportsEasing t (Some Section))
              /\ offers ManualEaseOut (SupportsEasing t (Some Section)))).
Proof.
  destruct t as [Secs blend]. cbn [bCanBlend Sections].
  split; [| split; [| split]].
  - intros -> F. reflexivity.
  - intros -> F. unfold SupportsEasing, offers. cbn [negb bCanBlend Sections].
    destruct F as [s |]; [| reflexivity].
    destruct (Nat.eqb (length Secs) 1); [reflexivity |].
    destruct (1 <? length Secs)%nat; [| reflexivity].
    repeat case_bool_decide; reflexivity.
  - intros -> Hone s. unfold SupportsEasing, offers. cbn [negb bCanBlend Sections].
    rewrite Hone. split; reflexivity.
  - intros -> Htwo Hnodup s. unfold SupportsEasing, offers. cbn [negb bCanBlend Sections].
    destruct (Nat.eqb_spec (length Secs) 1) as [H1 | _]; [lia |].
    destruct (Nat.ltb_spec 1 (length Secs)) as [_ | H1]; [| lia].
    destruct Secs as [| a rest]; [cbn in Htwo; lia |].
    cbn [lookup list_lookup head option_map].
    assert (Hfirst_last : forall x, last (a :: rest) = Some x -> SectionObject x <> SectionObject a).
    { intros x Hx Heq. destruct rest as [| b rest]; [cbn in Htwo; lia |].
      change (last (a :: b :: rest)) with (last (b :: rest)) in Hx.
      apply last_In in Hx. cbn [map] in Hnodup. apply NoDup_cons in Hnodup as [Hnot _].
      apply Hnot. rewrite <- Heq. apply list_elem_of_In.
      exact (in_map SectionObject (b :: rest) x Hx). }
    case_bool_decide as Hhead.
    + assert (Hlast : option_map SectionObject (last (a :: rest)) <> Some s).
      { destruct (last (a :: rest)) as [x |] eqn:Hx; [| discriminate].
        cbn. intros [= Hxs]. injection Hhead as Has.
        apply (Hfirst_last x eq_refl). congruence. }
      split; [split; [intros _; exact Hhead | reflexivity] |].
      split; [split; [intros Hc; discriminate Hc | intros Hc; contradiction] |].
      intros [_ Hc]. discriminate Hc.
    + case_bool_decide as Hlast.
      * split; [split; [intros Hc; discriminate Hc | intros Hc; contradiction] |].
        split; [split; [intros _; exact Hlast | reflexivity] |].
        intros [Hc _]. discriminate Hc.
      * split; [split; [intros Hc; discriminate Hc | intros Hc; contradiction] |].
        split; [split; [intros Hc; discriminate Hc | intros Hc; contradiction] |].
        intros [Hc _]. discriminate Hc.
Qed.

(** *** The end of a new cut in a sorted track *)

(** The sections are in the order of their start frames, as
    [SortConsecutiveSections] leaves them. *)
Definition sorted_by_start (Secs : list UMovieSceneCameraCutSection) : Prop :=
  forall i j s s' g g', (i < j)%nat ->
    Secs !! i = Some s -> Secs !! j = Some s' ->
    StartFrame s = Some g -> StartFrame s' = Some g' -> g <= g'.

(** X8.  In a track whose sections are in the order of their start
    frames, the end time found for a new camera cut is never after the
    start of a section that starts after the cut: the new cut reaches up to
    the next cut and does not overlap it.  When some section starts after
    the cut, the end time is the start of one of them; when none does, it
    is the exclusive end of the playback range if that is after the start,
    and else the [int32] sum of the start and half a second of ticks, which
    is half a second after the start unless it passes [INT32_MAX] and
    wraps around. *)
Theorem FindEndTimeForCameraCut_up_to_next (OwnerScene : UMovieScene)
    (Secs : list UMovieSceneCameraCutSection) (StartTime : FFrameNumber) :
  sorted_by_start Secs ->
  let EndTime := FindEndTimeForCameraCut OwnerScene Secs StartTime in
  (forall s g, In s Secs -> StartFrame s = Some g -> StartTime < g -> EndTime <= g)
  /\ ((exists s, In s Secs /\ StartFrame s = Some EndTime /\ StartTime < EndTime)
      \/ ((forall s g, In s Secs -> StartFrame s = Some g -> g <= StartTime)
          /\ EndTime = (if StartTime <? ExclusivePlayEnd OwnerScene
                        then ExclusivePlayEnd OwnerScene
                        else int32_wrap
                               (StartTime + HalfTickResolution (GetTickResolution OwnerScene)))
          /\ (is_int32 (StartTime + HalfTickResolution (GetTickResolution OwnerScene)) ->
              int32_wrap (StartTime + HalfTickResolution (GetTickResolution OwnerScene))
              = StartTime + HalfTickResolution (GetTickResolution OwnerScene)))).
Proof.
  intros Hsorted EndTime. subst EndTime.
  unfold FindEndTimeForCameraCut, DefaultEndTime. cbv zeta.
  destruct (first_start_after StartTime Secs) as [f |] eqn:Hf.
  - apply first_start_after_Some in Hf.
    destruct Hf as (before & S & after & -> & HS & Hlt & Hbefore).
    destruct (Z.eqb_spec StartTime f) as [He | _]; [lia |].
    split.
    + intros s g Hin Hs Hg.
      apply list_elem_of_In, list_elem_of_lookup in Hin as [j Hj].
      destruct (Nat.lt_trichotomy j (length before)) as [Hjlt | [Hjeq | Hjgt]].
      * rewrite lookup_app_l in Hj by exact Hjlt.
        assert (Hin : In s before)
          by (apply list_elem_of_In, list_elem_of_lookup; exists j; exact Hj).
        specialize (Hbefore s g Hin Hs). lia.
      * subst j. rewrite list_lookup_middle in Hj by reflexivity.
        injection Hj as <-. assert (g = f) by congruence. lia.
      * apply (Hsorted (length before) j S s f g Hjgt); [| exact Hj | exact HS | exact Hs].
        apply list_lookup_middle. reflexivity.
    + left. exists S. split; [| split; [exact HS | exact Hlt]].
      apply in_or_app. right. left. reflexivity.
  - pose proof (proj1 (first_start_after_None StartTime Secs) Hf) as Hnone.
    split.
    + intros s g Hin Hs Hg. specialize (Hnone s g Hin Hs). lia.
    + right. split; [exact Hnone |]. split; [| apply int32_wrap_small].
      destruct (Z.eqb_spec StartTime (Z.max (ExclusivePlayEnd OwnerScene) StartTime)) as [He | Hne];
        destruct (Z.ltb_spec StartTime (ExclusivePlayEnd OwnerScene)); lia.
Qed.

Lemma FindEndTimeForCameraCut_up_to_next_witness :
  let Secs := [mkSection 1 (Some 0) (Some 40) 0%nat; mkSection 2 (Some 40) (Some 90) 0%nat;
               mkSection 3 (Some 90) (Some 200) 0%nat] in
  let OwnerScene := mkMovieScene 200 (mkFrameRate 24000 1) in
  FindEndTimeForCameraCut OwnerScene Secs 50 = 90
  /\ FindEndTimeForCameraCut OwnerScene Secs 50 <= 90.
Proof.
  intros Secs OwnerScene. split; [reflexivity |].
  refine (proj1 (FindEndTimeForCameraCut_up_to_next OwnerScene Secs 50 _)
            (mkSection 3 (Some 90) (Some 200) 0%nat) 90 _ eq_refl _).
  - intros i j s s' g g' Hij Hi Hj Hs Hs'.
    destruct i as [| [| [| i]]]; destruct j as [| [| [| j]]]; cbn in Hi, Hj;
      try discriminate; try lia;
      injection Hi as <-; injection Hj as <-; cbn in Hs, Hs';
      injection Hs as <-; injection Hs' as <-; lia.
  - cbn. auto.
  - lia.
Defined.

End MovieSceneCameraCutTrack.

(* ===================================================================== *)
(** ** Algo::LowerBound and Algo::UpperBound                              *)
(* ===================================================================== *)
Module Algo.

Section BinarySearch.
Context {A : Type}.

(** Modelled from the spec: [Algo::LowerBound], [Algo::LowerBoundBy] and
    [Algo::UpperBound] are not among the sources; the specification has
    them as binary searches.  Both are the same halving loop over a window
    [Start, Start + Size) of the range,

      while (Size > 0) {
        LeftoverSize = Size % 2;  Size = Size / 2;
        CheckIndex = Start + Size;  StartIfLess = CheckIndex + LeftoverSize;
        Start = Goes_right(First[CheckIndex]) ? StartIfLess : Start;
      }
      return Start;

    where the test is [SortPredicate(Projection(element), Value)] for the
    lower bound and [!SortPredicate(Value, element)] for the upper bound.
    [rounds] bounds the iterations; [length First] of them always
    suffice. *)
Fixpoint BoundLoop (goes_right : A -> bool) (First : list A) (rounds Start Size : nat) : nat :=
  match rounds with
  | O => Start
  | S rounds' =>
      if Nat.eqb Size 0 then Start
      else
        let LeftoverSize := Size mod 2 in
        let Size' := Size / 2 in
        let CheckIndex := Start + Size' in
        let StartIfLess := CheckIndex + LeftoverSize in
        match First !! CheckIndex with
        | Some CheckValue =>
            BoundLoop goes_right First rounds'
              (if goes_right CheckValue then StartIfLess else Start) Size'
        | None => Start
        end
  end.

(** [Algo::LowerBoundBy(Range, Value, Projection, SortPredicate)]: the
    test is given as [less_than_Value x = SortPredicate(Projection(x), Value)]. *)
Definition LowerBound (Range : list A) (less_than_Value : A -> bool) : nat :=
  BoundLoop less_than_Value Range (length Range) 0 (length Range).

(** [Algo::UpperBound(Range, Value)]: the test is given as
    [Value_less_than x = SortPredicate(Value, x)]. *)
Definition UpperBound (Range : list A) (Value_less_than : A -> bool) : nat :=
  BoundLoop (fun x => negb (Value_less_than x)) Range (length Range) 0 (length Range).

(** A range is partitioned by a test when the elements that pass it come
    before those that do not: what a sorted range is for both tests. *)
Definition partitioned (test : A -> bool) (l : list A) : Prop :=
  forall i j x y, (i <= j)%nat -> l !! i = Some x -> l !! j = Some y ->
                  test y = true -> test x = true.

(** The index [r] splits the range: the test holds before it and fails
    from it on. *)
Definition splits (test : A -> bool) (l : list A) (r : nat) : Prop :=
  (r <= length l)%nat
  /\ (forall i x, (i < r)%nat -> l !! i = Some x -> test x = true)
  /\ (forall i x, (r <= i)%nat -> l !! i = Some x -> test x = false).

Lemma splits_unique (test : A -> bool) (l : list A) (r r' : nat) :
  splits test l r -> splits test l r' -> r = r'.
Proof.
  intros (Hr & Hlt & Hge) (Hr' & Hlt' & Hge').
  destruct (Nat.lt_trichotomy r r') as [Hc | [Hc | Hc]]; [| exact Hc |].
  - destruct (lookup_lt_is_Some_2 l r ltac:(lia)) as [x Hx].
    pose proof (Hlt' r x Hc Hx). pose proof (Hge r x (Nat.le_refl r) Hx). congruence.
  - destruct (lookup_lt_is_Some_2 l r' ltac:(lia)) as [x Hx].
    pose proof (Hlt r' x Hc Hx). pose proof (Hge' r' x (Nat.le_refl r') Hx). congruence.
Qed.

Lemma BoundLoop_splits (test : A -> bool) (l : list A) :
  partitioned test l ->
  forall rounds Start Size,
    (Size <= rounds)%nat ->
    (Start + Size <= length l)%nat ->
    (forall i x, (i < Start)%nat -> l !! i = Some x -> test x = true) ->
    (forall i x, (Start + Size <= i)%nat -> l !! i = Some x -> test x = false) ->
    splits test l (BoundLoop test l rounds Start Size).
Proof.
  intros Hpart. induction rounds as [| rounds IH]; intros Start Size Hfuel Hlen Hlo Hhi.
  - assert (Size = 0)%nat by lia. subst Size. cbn [BoundLoop].
    split; [lia |]. split; [exact Hlo |].
    intros i x Hi. apply Hhi. lia.
  - cbn [BoundLoop]. destruct (Nat.eqb_spec Size 0) as [-> | Hpos].
    + split; [lia |]. split; [exact Hlo |]. intros i x Hi. apply Hhi. lia.
    + cbv zeta.
      pose proof (Nat.div_mod_eq Size 2) as Hdm.
      pose proof (Nat.mod_upper_bound Size 2 ltac:(lia)) as Hmod.
      assert (Hhalf : (Size / 2 < Size)%nat) by (apply Nat.div_lt; lia).
      destruct (lookup_lt_is_Some_2 l (Start + Size / 2) ltac:(lia)) as [v Hv].
      rewrite Hv.
      destruct (test v) eqn:Htest.
      * apply IH; [lia | lia | |].
        -- intros i x Hi Hx.
           destruct (Nat.le_gt_cases i (Start + Size / 2)) as [Hle | Hgt].
           ++ exact (Hpart i (Start + Size / 2)%nat x v Hle Hx Hv Htest).
           ++ assert (i = Start + Size / 2)%nat by lia. subst i. congruence.
        -- intros i x Hi. apply Hhi. lia.
      * apply IH; [lia | lia | exact Hlo |].
        intros i x Hi Hx.
        destruct (test x) eqn:Hx'; [| reflexivity].
        pose proof (Hpart (Start + Size / 2)%nat i v x Hi Hv Hx Hx'). congruence.
Qed.

Lemma LowerBound_splits (l : list A) (test : A -> bool) :
  partitioned test l -> splits test l (LowerBound l test).
Proof.
  intros Hpart. unfold LowerBound.
  apply BoundLoop_splits; [exact Hpart | lia | lia | intros i x Hi; lia |].
  intros i x Hi Hx. apply lookup_lt_Some in Hx. lia.
Qed.

Lemma UpperBound_splits (l : list A) (test : A -> bool) :
  partitioned (fun x => negb (test x)) l ->
  splits (fun x => negb (test x)) l (UpperBound l test).
Proof.
  intros Hpart. unfold UpperBound.
  apply BoundLoop_splits; [exact Hpart | lia | lia | intros i x Hi; lia |].
  intros i x Hi Hx. apply lookup_lt_Some in Hx. lia.
Qed.

End BinarySearch.

Example LowerBound_example :
  LowerBound [1; 5; 15; 30]%Z (fun x => (x <? 6)%Z) = 2.
Proof. reflexivity. Qed.

Example UpperBound_example :
  UpperBound [1; 5; 5; 30]%Z (fun x => (5 <? x)%Z) = 3.
Proof. reflexivity. Qed.

End Algo.

(* ===================================================================== *)
(** ** Runtime/Engine/Private/Materials/MaterialCachedData.cpp            *)
(* ===================================================================== *)
Module MaterialCachedData.
Local Open Scope Z_scope.

(** [EMaterialParameterAssociation], in declaration order; [CompareFunc]
    compares associations by their enumerator values. *)
Inductive EMaterialParameterAssociation : Set :=
| LayerParameter
| BlendParameter
| GlobalParameter.

Definition association_value (a : EMaterialParameterAssociation) : Z :=
  match a with
  | LayerParameter => 0
  | BlendParameter => 1
  | GlobalParameter => 2
  end.

(** [EMaterialParameterType]: the kinds that index [Entries]. *)
Inductive EMaterialParameterType : Set :=
| Scalar
| Vector
| Texture
| Font
| RuntimeVirtualTexture.

(** An [FGuid] is four 32-bit words, valid when one of them is not zero;
    [FGuid()] is the invalid, all-zero one. *)
Record FGuid : Set := mkGuid { GuidA : Z; GuidB : Z; GuidC : Z; GuidD : Z }.

Definition FGuid_default : FGuid := mkGuid 0 0 0 0.

Definition IsValid (g : FGuid) : bool :=
  negb (Z.lor (Z.lor (Z.lor (GuidA g) (GuidB g)) (GuidC g)) (GuidD g) =? 0).

Definition FName : Set := string.

Record FMaterialParameterInfo : Set := mkInfo {
  Name : FName;
  Association : EMaterialParameterAssociation;
  Index : Z
}.

(** An [FHashedMaterialParameterInfo]: the name is kept as its 64-bit hash
    only. *)
Record FHashedMaterialParameterInfo : Set := mkHashedInfo {
  HashedName : Z;
  HashedAssociation : EMaterialParameterAssociation;
  HashedIndex : Z
}.

#[global] Instance EMaterialParameterAssociation_eq_dec : EqDecision EMaterialParameterAssociation.
Proof. solve_decision. Defined.
#[global] Instance EMaterialParameterType_eq_dec : EqDecision EMaterialParameterType.
Proof. solve_decision. Defined.
#[global] Instance FMaterialParameterInfo_eq_dec : EqDecision FMaterialParameterInfo.
Proof. solve_decision. Defined.

(** The four parallel arrays of one parameter kind. *)
Record FMaterialCachedParameterEntry : Set := mkEntry {
  NameHashes : list Z;
  ParameterInfos : list FMaterialParameterInfo;
  ExpressionGuids : list FGuid;
  Overrides : list bool
}.

(** [FMaterialCachedParameterEntry::Reset]. *)
Definition Entry_Reset : FMaterialCachedParameterEntry := mkEntry [] [] [] [].

(** [FMaterialCachedParameters], as far as the parameter tables go: the
    array [Entries], indexed by kind. *)
Record FMaterialCachedParameters : Set := mkCachedParameters {
  Entries : EMaterialParameterType -> FMaterialCachedParameterEntry
}.

Definition CachedParameters_Reset : FMaterialCachedParameters :=
  mkCachedParameters (fun _ => Entry_Reset).

(** [TArray::Insert(Item, Index)]. *)
Definition Insert {T : Type} (Item : T) (Index : nat) (l : list T) : list T :=
  take Index l ++ Item :: drop Index l.

Definition INDEX_NONE : Z := -1.

(** The two lambdas of [FindParameterLowerBoundIndex]. *)
Definition ProjectionFunc (InParameterInfo : FMaterialParameterInfo) : FHashedMaterialParameterInfo :=
  mkHashedInfo 0 (Association InParameterInfo) (Index InParameterInfo).

Definition CompareFunc (Lhs Rhs : FHashedMaterialParameterInfo) : bool :=
  if decide (HashedAssociation Lhs <> HashedAssociation Rhs)
  then association_value (HashedAssociation Lhs) <? association_value (HashedAssociation Rhs)
  else HashedIndex Lhs <? HashedIndex Rhs.

(** [FindParameterLowerBoundIndex]. *)
Definition FindParameterLowerBoundIndex (Entry : FMaterialCachedParameterEntry)
    (HashedParameterInfo : FHashedMaterialParameterInfo) : nat :=
  let NameHash := HashedName HashedParameterInfo in
  let LowerIndex := Algo.LowerBound (NameHashes Entry) (fun x => x <? NameHash) in
  if (LowerIndex <? length (NameHashes Entry))%nat then
    let NameHashesUpper := drop LowerIndex (NameHashes Entry) in
    let UpperIndex :=
      (LowerIndex + Algo.UpperBound NameHashesUpper (fun x => (NameHash <? x)%Z))%nat in
    if (0 <? UpperIndex - LowerIndex)%nat then
      let ParameterInfos :=
        take (UpperIndex - LowerIndex) (drop LowerIndex (ParameterInfos Entry)) in
      (LowerIndex +
       Algo.LowerBound ParameterInfos
         (fun x => CompareFunc (ProjectionFunc x) HashedParameterInfo))%nat
    else LowerIndex
  else LowerIndex.

Section WithNameHash.

(** [FHashedName(Name).GetHash()]: the 64-bit hash of a name.  The hash
    function is not part of this file; all that is used of it is that it is
    a function of the name. *)
Variable GetHash : FName -> Z.

(** [FHashedMaterialParameterInfo(ParameterInfo)]. *)
Definition Hashed (ParameterInfo : FMaterialParameterInfo) : FHashedMaterialParameterInfo :=
  mkHashedInfo (GetHash (Name ParameterInfo)) (Association ParameterInfo) (Index ParameterInfo).

(** [TryAddParameter] on the entry of the kind.  The result is [None] when
    a checked array access is out of range. *)
Definition TryAddParameter_Entry (Entry : FMaterialCachedParameterEntry)
    (ParameterInfo : FMaterialParameterInfo) (ExpressionGuid : FGuid) (bOverride : bool)
    : option (FMaterialCachedParameterEntry * Z) :=
  let HashedParameterInfo := Hashed ParameterInfo in
  let Index := FindParameterLowerBoundIndex Entry HashedParameterInfo in
  let Inserted :=
    mkEntry (Insert (HashedName HashedParameterInfo) Index (NameHashes Entry))
            (Insert ParameterInfo Index (ParameterInfos Entry))
            (Insert ExpressionGuid Index (ExpressionGuids Entry))
            (Insert bOverride Index (Overrides Entry)) in
  if (length (NameHashes Entry) <=? Index)%nat then Some (Inserted, Z.of_nat Index)
  else
    match ParameterInfos Entry !! Index with
    | None => None
    | Some Existing =>
        if decide (Existing <> ParameterInfo) then Some (Inserted, Z.of_nat Index)
        else
          match Overrides Entry !! Index with
          | None => None
          | Some false => Some (Entry, INDEX_NONE)
          | Some true =>
              match ExpressionGuids Entry !! Index with
              | None => None
              | Some Guid =>
                  if negb (IsValid Guid)
                  then Some (mkEntry (NameHashes Entry) (ParameterInfos Entry)
                                     (<[Index := ExpressionGuid]> (ExpressionGuids Entry))
                                     (Overrides Entry), INDEX_NONE)
                  else Some (Entry, INDEX_NONE)
              end
          end
    end.

Definition set_Entry (Type_ : EMaterialParameterType) (Entry : FMaterialCachedParameterEntry)
    (CachedParameters : FMaterialCachedParameters) : FMaterialCachedParameters :=
  mkCachedParameters
    (fun t => if decide (t = Type_) then Entry else Entries CachedParameters t).

(** [TryAddParameter]: [Entry] is [CachedParameters.Entries[(int32)Type]]. *)
Definition TryAddParameter (CachedParameters : FMaterialCachedParameters)
    (Type_ : EMaterialParameterType) (ParameterInfo : FMaterialParameterInfo)
    (ExpressionGuid : FGuid) (bOverride : bool) : option (FMaterialCachedParameters * Z) :=
  match TryAddParameter_Entry (Entries CachedParameters Type_) ParameterInfo ExpressionGuid bOverride with
  | Some (Entry, Index) => Some (set_Entry Type_ Entry CachedParameters, Index)
  | None => None
  end.

(** [FMaterialCachedParameters::FindParameterIndex(Type, HashedParameterInfo)]. *)
Definition FindParameterIndex (CachedParameters : FMaterialCachedParameters)
    (Type_ : EMaterialParameterType) (HashedParameterInfo : FHashedMaterialParameterInfo) : Z :=
  let Entry := Entries CachedParameters Type_ in
  let Index := FindParameterLowerBoundIndex Entry HashedParameterInfo in
  match NameHashes Entry !! Index, ParameterInfos Entry !! Index with
  | Some NameHash, Some Info =>
      if (NameHash =? HashedName HashedParameterInfo)
         && bool_decide (Association Info = HashedAssociation HashedParameterInfo)
         && (MaterialCachedData.Index Info =? HashedIndex HashedParameterInfo)
      then Z.of_nat Index else INDEX_NONE
  | _, _ => INDEX_NONE
  end.

(** One call of [TryAddParameter], as the callers of this file make it. *)
Record Insertion : Set := mkInsertion {
  InsType : EMaterialParameterType;
  InsInfo : FMaterialParameterInfo;
  InsGuid : FGuid;
  InsOverride : bool
}.

(** A sequence of insertions, from left to right. *)
Fixpoint TryAddParameters (ops : list Insertion) (CachedParameters : FMaterialCachedParameters)
    : option FMaterialCachedParameters :=
  match ops with
  | [] => Some CachedParameters
  | op :: rest =>
      match TryAddParameter CachedParameters (InsType op) (InsInfo op) (InsGuid op) (InsOverride op) with
      | Some (CachedParameters', _) => TryAddParameters rest CachedParameters'
      | None => None
      end
  end.

(** *** The order of a table *)

(** The sort key of an entry: name hash, then association, then index. *)
Definition Key : Set := (Z * Z * Z)%type.

Definition key_of (p : FMaterialParameterInfo) : Key :=
  (GetHash (Name p), association_value (Association p), Index p).

Definition key_of_hashed (k : FHashedMaterialParameterInfo) : Key :=
  (HashedName k, association_value (HashedAssociation k), HashedIndex k).

Definition key_lt (x y : Key) : Prop :=
  x.1.1 < y.1.1 \/ (x.1.1 = y.1.1 /\ (x.1.2 < y.1.2 \/ (x.1.2 = y.1.2 /\ x.2 < y.2))).

Definition key_le (x y : Key) : Prop :=
  x.1.1 < y.1.1 \/ (x.1.1 = y.1.1 /\ (x.1.2 < y.1.2 \/ (x.1.2 = y.1.2 /\ x.2 <= y.2))).

(** A table is well formed when its four arrays have one length, every
    stored hash is the hash of the stored name, and the keys never
    decrease. *)
Record WellFormed (Entry : FMaterialCachedParameterEntry) : Prop := mkWellFormed {
  wf_infos : length (ParameterInfos Entry) = length (NameHashes Entry);
  wf_guids : length (ExpressionGuids Entry) = length (NameHashes Entry);
  wf_overrides : length (Overrides Entry) = length (NameHashes Entry);
  wf_hashes : forall i p, ParameterInfos Entry !! i = Some p ->
                          NameHashes Entry !! i = Some (GetHash (Name p));
  wf_sorted : forall i j p q, (i < j)%nat ->
                              ParameterInfos Entry !! i = Some p ->
                              ParameterInfos Entry !! j = Some q ->
                              key_le (key_of p) (key_of q)
}.

Ltac key_arith :=
  unfold key_lt, key_le, key_of, key_of_hashed, Hashed in *;
  cbn [fst snd HashedName HashedAssociation HashedIndex] in *; lia.

Lemma association_value_inj (a b : EMaterialParameterAssociation) :
  association_value a = association_value b -> a = b.
Proof. destruct a, b; cbn; intros H; try reflexivity; discriminate. Qed.

Lemma CompareFunc_spec (q : FMaterialParameterInfo) (k : FHashedMaterialParameterInfo) :
  CompareFunc (ProjectionFunc q) k = true <->
  association_value (Association q) < association_value (HashedAssociation k)
  \/ (association_value (Association q) = association_value (HashedAssociation k)
      /\ Index q < HashedIndex k).
Proof.
  unfold CompareFunc, ProjectionFunc. cbn [HashedAssociation HashedIndex].
  destruct (decide (Association q <> HashedAssociation k)) as [Hne | He].
  - rewrite Z.ltb_lt. split; [auto |]. intros [Hlt | [Heq _]]; [exact Hlt |].
    apply association_value_inj in Heq. contradiction.
  - apply dec_stable in He. rewrite He, Z.ltb_lt. split; [auto |]. intros [Hlt | [_ Hlt]]; lia.
Qed.

Lemma length_Insert {T : Type} (x : T) (n : nat) (l : list T) :
  length (Insert x n l) = S (length l).
Proof.
  unfold Insert. rewrite length_app. cbn [length].
  rewrite length_take, length_drop. lia.
Qed.

Lemma lookup_Insert_lt {T : Type} (x : T) (n i : nat) (l : list T) :
  (n <= length l)%nat -> (i < n)%nat -> Insert x n l !! i = l !! i.
Proof.
  intros Hn Hi. unfold Insert.
  rewrite lookup_app_l by (rewrite length_take; lia).
  apply lookup_take_lt. exact Hi.
Qed.

Lemma lookup_Insert_eq {T : Type} (x : T) (n : nat) (l : list T) :
  (n <= length l)%nat -> Insert x n l !! n = Some x.
Proof.
  intros Hn. unfold Insert.
  rewrite lookup_app_r by (rewrite length_take; lia).
  rewrite length_take. replace (n - n `min` length l)%nat with 0%nat by lia. reflexivity.
Qed.

Lemma lookup_Insert_gt {T : Type} (x : T) (n i : nat) (l : list T) :
  (n <= length l)%nat -> (n < i)%nat -> Insert x n l !! i = l !! (i - 1)%nat.
Proof.
  intros Hn Hi. unfold Insert.
  rewrite lookup_app_r by (rewrite length_take; lia).
  rewrite length_take. replace (i - n `min` length l)%nat with (S (i - n - 1)) by lia.
  change ((x :: drop n l) !! S (i - n - 1)%nat) with (drop n l !! (i - n - 1)%nat).
  rewrite lookup_drop. f_equal. lia.
Qed.

(** *** The two-stage search *)

Lemma WellFormed_hash_at (Entry : FMaterialCachedParameterEntry) (i : nat) (x : Z) :
  WellFormed Entry -> NameHashes Entry !! i = Some x ->
  exists q, ParameterInfos Entry !! i = Some q /\ x = GetHash (Name q).
Proof.
  intros Hwf Hx. pose proof (lookup_lt_Some _ _ _ Hx) as Hi.
  rewrite <- (wf_infos _ Hwf) in Hi.
  destruct (lookup_lt_is_Some_2 _ _ Hi) as [q Hq].
  exists q. split; [exact Hq |].
  pose proof (wf_hashes _ Hwf i q Hq) as Hh. congruence.
Qed.

Lemma WellFormed_hashes_sorted (Entry : FMaterialCachedParameterEntry) (i j : nat) (x y : Z) :
  WellFormed Entry -> (i <= j)%nat ->
  NameHashes Entry !! i = Some x -> NameHashes Entry !! j = Some y -> x <= y.
Proof.
  intros Hwf Hij Hx Hy.
  destruct (Nat.eq_dec i j) as [-> | Hne]; [assert (x = y) by congruence; lia |].
  destruct (WellFormed_hash_at _ _ _ Hwf Hx) as (p & Hp & ->).
  destruct (WellFormed_hash_at _ _ _ Hwf Hy) as (q & Hq & ->).
  pose proof (wf_sorted _ Hwf i j p q ltac:(lia) Hp Hq). key_arith.
Qed.

(** Under the order of the table the search returns the position that
    splits it at the key looked for: smaller keys before, the others from
    there on. *)
Lemma FindParameterLowerBoundIndex_splits (Entry : FMaterialCachedParameterEntry)
    (k : FHashedMaterialParameterInfo) :
  WellFormed Entry ->
  let r := FindParameterLowerBoundIndex Entry k in
  (r <= length (ParameterInfos Entry))%nat
  /\ (forall i q, (i < r)%nat -> ParameterInfos Entry !! i = Some q ->
                  key_lt (key_of q) (key_of_hashed k))
  /\ (forall i q, (r <= i)%nat -> ParameterInfos Entry !! i = Some q ->
                  key_le (key_of_hashed k) (key_of q)).
Proof.
  intros Hwf. unfold FindParameterLowerBoundIndex. cbv zeta.
  set (h := HashedName k).
  set (hashes := NameHashes Entry). set (infos := ParameterInfos Entry).
  assert (Hlen : length infos = length hashes) by apply (wf_infos _ Hwf).
  assert (Hhash : forall i q, infos !! i = Some q -> hashes !! i = Some (GetHash (Name q)))
    by apply (wf_hashes _ Hwf).
  (* first stage: the name hash *)
  assert (Hpart1 : Algo.partitioned (fun x => x <? h) hashes).
  { intros i j x y Hij Hx Hy Hlt. apply Z.ltb_lt in Hlt. apply Z.ltb_lt.
    pose proof (WellFormed_hashes_sorted _ _ _ _ _ Hwf Hij Hx Hy). lia. }
  destruct (Algo.LowerBound_splits hashes _ Hpart1) as (HL & HLlt & HLge).
  set (L := Algo.LowerBound hashes (fun x => x <? h)) in *.
  assert (Hbelow : forall i q, (i < L)%nat -> infos !! i = Some q -> GetHash (Name q) < h).
  { intros i q Hi Hq. apply Z.ltb_lt. exact (HLlt i _ Hi (Hhash i q Hq)). }
  assert (Hfrom : forall i q, (L <= i)%nat -> infos !! i = Some q -> h <= GetHash (Name q)).
  { intros i q Hi Hq. apply Z.ltb_ge. exact (HLge i _ Hi (Hhash i q Hq)). }
  destruct (Nat.ltb_spec L (length hashes)) as [HLn | HLn].
  2:{ split; [lia |]. split.
      - intros i q Hi Hq. pose proof (Hbelow i q Hi Hq). key_arith.
      - intros i q Hi Hq. apply lookup_lt_Some in Hq. lia. }
  (* the run of equal hashes *)
  assert (Hpart2 : Algo.partitioned (fun x => negb (h <? x)) (drop L hashes)).
  { intros i j x y Hij Hx Hy Hle. rewrite lookup_drop in Hx, Hy.
    apply negb_true_iff, Z.ltb_ge in Hle. apply negb_true_iff, Z.ltb_ge.
    pose proof (WellFormed_hashes_sorted _ (L + i) (L + j) _ _ Hwf ltac:(lia) Hx Hy). lia. }
  destruct (Algo.UpperBound_splits (drop L hashes) _ Hpart2) as (HU & HUlt & HUge).
  set (U := Algo.UpperBound (drop L hashes) (fun x => h <? x)) in *.
  rewrite length_drop in HU.
  replace (L + U - L)%nat with U by lia.
  assert (Hrun : forall i q, (L <= i < L + U)%nat -> infos !! i = Some q -> GetHash (Name q) = h).
  { intros i q Hi Hq. pose proof (Hfrom i q ltac:(lia) Hq) as Hge.
    assert (Hd : drop L hashes !! (i - L)%nat = Some (GetHash (Name q))).
    { rewrite lookup_drop. replace (L + (i - L))%nat with i by lia. exact (Hhash i q Hq). }
    pose proof (HUlt (i - L)%nat _ ltac:(lia) Hd) as Hle.
    apply negb_true_iff, Z.ltb_ge in Hle. lia. }
  assert (Habove : forall i q, (L + U <= i)%nat -> infos !! i = Some q -> h < GetHash (Name q)).
  { intros i q Hi Hq.
    assert (Hd : drop L hashes !! (i - L)%nat = Some (GetHash (Name q))).
    { rewrite lookup_drop. replace (L + (i - L))%nat with i by lia. exact (Hhash i q Hq). }
    pose proof (HUge (i - L)%nat _ ltac:(lia) Hd) as Hgt.
    apply negb_false_iff, Z.ltb_lt in Hgt. exact Hgt. }
  destruct (Nat.ltb_spec 0 U) as [HUpos | HUzero].
  2:{ assert (U = 0)%nat by lia. split; [lia |]. split.
      - intros i q Hi Hq. pose proof (Hbelow i q Hi Hq). key_arith.
      - intros i q Hi Hq. pose proof (Habove i q ltac:(lia) Hq). key_arith. }
  (* second stage: association and index within the run *)
  set (run := take U (drop L infos)).
  assert (Hrun_at : forall j q, run !! j = Some q -> (j < U)%nat /\ infos !! (L + j)%nat = Some q).
  { intros j q Hq. unfold run in Hq.
    destruct (Nat.lt_ge_cases j U) as [Hj | Hj].
    - rewrite lookup_take_lt in Hq by exact Hj. rewrite lookup_drop in Hq. auto.
    - rewrite lookup_take_ge in Hq by exact Hj. discriminate. }
  assert (Hrun_len : length run = U).
  { unfold run. rewrite length_take, length_drop. lia. }
  assert (Hpart3 : Algo.partitioned (fun x => CompareFunc (ProjectionFunc x) k) run).
  { intros i j p q Hij Hp Hq Hcmp.
    destruct (Hrun_at i p Hp) as [Hi Hp']. destruct (Hrun_at j q Hq) as [Hj Hq'].
    apply CompareFunc_spec in Hcmp. apply CompareFunc_spec.
    destruct (Nat.eq_dec i j) as [-> | Hne]; [assert (p = q) by congruence; subst; exact Hcmp |].
    pose proof (wf_sorted _ Hwf (L + i) (L + j) p q ltac:(lia) Hp' Hq') as Hle.
    pose proof (Hrun (L + i)%nat p ltac:(lia) Hp'). pose proof (Hrun (L + j)%nat q ltac:(lia) Hq').
    key_arith. }
  destruct (Algo.LowerBound_splits run _ Hpart3) as (HR & HRlt & HRge).
  set (R := Algo.LowerBound run (fun x => CompareFunc (ProjectionFunc x) k)) in *.
  rewrite Hrun_len in HR.
  assert (Hrun_of : forall i q, (L <= i < L + U)%nat -> infos !! i = Some q ->
                                run !! (i - L)%nat = Some q).
  { intros i q Hi Hq. unfold run. rewrite lookup_take_lt by lia. rewrite lookup_drop.
    replace (L + (i - L))%nat with i by lia. exact Hq. }
  split; [lia |]. split.
  - intros i q Hi Hq.
    destruct (Nat.lt_ge_cases i L) as [HiL | HiL].
    + pose proof (Hbelow i q HiL Hq). key_arith.
    + pose proof (Hrun i q ltac:(lia) Hq) as Hh.
      pose proof (HRlt (i - L)%nat q ltac:(lia) (Hrun_of i q ltac:(lia) Hq)) as Hcmp.
      apply CompareFunc_spec in Hcmp. key_arith.
  - intros i q Hi Hq.
    destruct (Nat.lt_ge_cases i (L + U)) as [HiU | HiU].
    + pose proof (Hrun i q ltac:(lia) Hq) as Hh.
      pose proof (HRge (i - L)%nat q ltac:(lia) (Hrun_of i q ltac:(lia) Hq)) as Hcmp.
      assert (Hn : ~ (association_value (Association q) < association_value (HashedAssociation k)
                      \/ (association_value (Association q) = association_value (HashedAssociation k)
                          /\ Index q < HashedIndex k))).
      { intros Hc. apply CompareFunc_spec in Hc. congruence. }
      key_arith.
    + pose proof (Habove i q HiU Hq). key_arith.
Qed.

(** *** Insertion keeps the order *)

Lemma lookup_Insert_cases {T : Type} (x y : T) (n i : nat) (l : list T) :
  (n <= length l)%nat -> Insert x n l !! i = Some y ->
  ((i < n)%nat /\ l !! i = Some y)
  \/ (i = n /\ y = x)
  \/ ((n < i)%nat /\ l !! (i - 1)%nat = Some y).
Proof.
  intros Hn Hy. destruct (Nat.lt_trichotomy i n) as [Hi | [-> | Hi]].
  - left. rewrite lookup_Insert_lt in Hy by assumption. auto.
  - right. left. rewrite lookup_Insert_eq in Hy by assumption. split; congruence.
  - right. right. rewrite lookup_Insert_gt in Hy by assumption. auto.
Qed.

(** The entry after an insertion at [r]. *)
Definition Inserted_at (r : nat) (Entry : FMaterialCachedParameterEntry)
    (ParameterInfo : FMaterialParameterInfo) (ExpressionGuid : FGuid) (bOverride : bool)
    : FMaterialCachedParameterEntry :=
  mkEntry (Insert (GetHash (Name ParameterInfo)) r (NameHashes Entry))
          (Insert ParameterInfo r (ParameterInfos Entry))
          (Insert ExpressionGuid r (ExpressionGuids Entry))
          (Insert bOverride r (Overrides Entry)).

Lemma Inserted_at_WellFormed (Entry : FMaterialCachedParameterEntry)
    (p : FMaterialParameterInfo) (g : FGuid) (ov : bool) :
  WellFormed Entry ->
  WellFormed (Inserted_at (FindParameterLowerBoundIndex Entry (Hashed p)) Entry p g ov).
Proof.
  intros Hwf.
  destruct (FindParameterLowerBoundIndex_splits Entry (Hashed p) Hwf) as (Hr & Hlt & Hge).
  set (r := FindParameterLowerBoundIndex Entry (Hashed p)) in *.
  pose proof (wf_infos _ Hwf) as Hli.
  constructor; unfold Inserted_at; cbn [NameHashes ParameterInfos ExpressionGuids Overrides].
  - rewrite !length_Insert. lia.
  - rewrite !length_Insert. pose proof (wf_guids _ Hwf). lia.
  - rewrite !length_Insert. pose proof (wf_overrides _ Hwf). lia.
  - intros i q Hq.
    apply lookup_Insert_cases in Hq; [| exact Hr].
    destruct Hq as [[Hi Hq] | [[-> ->] | [Hi Hq]]].
    + rewrite lookup_Insert_lt by lia. exact (wf_hashes _ Hwf i q Hq).
    + apply lookup_Insert_eq. lia.
    + rewrite lookup_Insert_gt by lia. exact (wf_hashes _ Hwf _ q Hq).
  - intros i j a b Hij Ha Hb.
    apply lookup_Insert_cases in Ha; [| exact Hr].
    apply lookup_Insert_cases in Hb; [| exact Hr].
    destruct Ha as [[Hi Ha] | [[-> ->] | [Hi Ha]]];
      destruct Hb as [[Hj Hb] | [[-> ->] | [Hj Hb]]]; try lia.
    + exact (wf_sorted _ Hwf i j a b Hij Ha Hb).
    + pose proof (Hlt i a Hi Ha). key_arith.
    + exact (wf_sorted _ Hwf i (j - 1) a b ltac:(lia) Ha Hb).
    + pose proof (Hge (j - 1)%nat b ltac:(lia) Hb). key_arith.
    + exact (wf_sorted _ Hwf (i - 1) (j - 1) a b ltac:(lia) Ha Hb).
Qed.

(** What one call does to a well-formed entry: either the parameter is
    inserted at the position the search gave, or it is found there and at
    most its expression guid changes. *)
Lemma TryAddParameter_Entry_cases (Entry : FMaterialCachedParameterEntry)
    (p : FMaterialParameterInfo) (g : FGuid) (ov : bool) :
  WellFormed Entry ->
  let r := FindParameterLowerBoundIndex Entry (Hashed p) in
  (ParameterInfos Entry !! r <> Some p
   /\ TryAddParameter_Entry Entry p g ov = Some (Inserted_at r Entry p g ov, Z.of_nat r))
  \/ (ParameterInfos Entry !! r = Some p
      /\ exists ov0 g0,
           Overrides Entry !! r = Some ov0 /\ ExpressionGuids Entry !! r = Some g0
           /\ TryAddParameter_Entry Entry p g ov
              = Some (mkEntry (NameHashes Entry) (ParameterInfos Entry)
                              (if ov0 && negb (IsValid g0)
                               then <[r := g]> (ExpressionGuids Entry)
                               else ExpressionGuids Entry)
                              (Overrides Entry), INDEX_NONE)).
Proof.
  intros Hwf r. unfold TryAddParameter_Entry. cbv zeta. fold r.
  change (HashedName (Hashed p)) with (GetHash (Name p)).
  fold (Inserted_at r Entry p g ov).
  destruct (Nat.leb_spec (length (NameHashes Entry)) r) as [Hout | Hin].
  - left. split; [| reflexivity].
    rewrite lookup_ge_None_2; [discriminate |]. rewrite (wf_infos _ Hwf). exact Hout.
  - destruct (lookup_lt_is_Some_2 (ParameterInfos Entry) r) as [q Hq];
      [rewrite (wf_infos _ Hwf); exact Hin |].
    rewrite Hq. destruct (decide (q <> p)) as [Hne | He].
    + left. split; [congruence | reflexivity].
    + apply dec_stable in He. subst q. right. split; [reflexivity |].
      destruct (lookup_lt_is_Some_2 (Overrides Entry) r) as [ov0 Hov];
        [rewrite (wf_overrides _ Hwf); exact Hin |].
      destruct (lookup_lt_is_Some_2 (ExpressionGuids Entry) r) as [g0 Hg];
        [rewrite (wf_guids _ Hwf); exact Hin |].
      exists ov0, g0. rewrite Hov, Hg. split; [reflexivity |]. split; [reflexivity |].
      destruct ov0; cbn [andb]; [| destruct Entry; reflexivity].
      destruct (negb (IsValid g0)); [reflexivity | destruct Entry; reflexivity].
Qed.

Lemma TryAddParameter_Entry_WellFormed (Entry : FMaterialCachedParameterEntry)
    (p : FMaterialParameterInfo) (g : FGuid) (ov : bool) :
  WellFormed Entry ->
  exists Entry' Index_,
    TryAddParameter_Entry Entry p g ov = Some (Entry', Index_) /\ WellFormed Entry'.
Proof.
  intros Hwf.
  destruct (TryAddParameter_Entry_cases Entry p g ov Hwf) as [[_ Hadd] | (_ & ov0 & g0 & _ & _ & Hkeep)].
  - eexists _, _. split; [exact Hadd |]. apply Inserted_at_WellFormed. exact Hwf.
  - eexists _, _. split; [exact Hkeep |].
    constructor; cbn [NameHashes ParameterInfos ExpressionGuids Overrides].
    + apply (wf_infos _ Hwf).
    + destruct (ov0 && negb (IsValid g0)); [rewrite length_insert |]; apply (wf_guids _ Hwf).
    + apply (wf_overrides _ Hwf).
    + apply (wf_hashes _ Hwf).
    + apply (wf_sorted _ Hwf).
Qed.

Lemma Entry_Reset_WellFormed : WellFormed Entry_Reset.
Proof.
  constructor; cbn; try reflexivity.
  - intros i p H. rewrite lookup_nil in H. discriminate.
  - intros i j p q _ H. rewrite lookup_nil in H. discriminate.
Qed.

(** *** What is stored, and where *)

Lemma In_Insert {T : Type} (x y : T) (n : nat) (l : list T) :
  In y (Insert x n l) <-> y = x \/ In y l.
Proof.
  assert (Hl : In y l <-> In y (take n l) \/ In y (drop n l))
    by (rewrite <- in_app_iff, take_drop; reflexivity).
  unfold Insert. rewrite in_app_iff, Hl. cbn [In]. intuition congruence.
Qed.

Lemma In_lookup {T : Type} (x : T) (l : list T) :
  In x l <-> exists i, l !! i = Some x.
Proof. rewrite <- list_elem_of_In. apply list_elem_of_lookup. Qed.

Lemma TryAddParameter_Entry_stored (Entry Entry' : FMaterialCachedParameterEntry)
    (p : FMaterialParameterInfo) (g : FGuid) (ov : bool) (Index_ : Z) :
  WellFormed Entry ->
  TryAddParameter_Entry Entry p g ov = Some (Entry', Index_) ->
  forall q, In q (ParameterInfos Entry') <-> q = p \/ In q (ParameterInfos Entry).
Proof.
  intros Hwf Hrun q.
  destruct (TryAddParameter_Entry_cases Entry p g ov Hwf)
    as [[_ Hadd] | (Hat & ov0 & g0 & _ & _ & Hkeep)].
  - rewrite Hadd in Hrun. injection Hrun as <- _.
    unfold Inserted_at. cbn [ParameterInfos]. apply In_Insert.
  - rewrite Hkeep in Hrun. injection Hrun as <- _. cbn [ParameterInfos].
    split; [auto |]. intros [-> | Hin]; [| exact Hin].
    apply In_lookup. eauto.
Qed.

(** No two distinct names of the list have the same hash. *)
Definition NoCollision (names : list FName) : Prop :=
  forall a b, In a names -> In b names -> GetHash a = GetHash b -> a = b.

(** The keys strictly increase: no two entries have the same key. *)
Definition StrictlySorted (Entry : FMaterialCachedParameterEntry) : Prop :=
  forall i j p q, (i < j)%nat ->
                  ParameterInfos Entry !! i = Some p ->
                  ParameterInfos Entry !! j = Some q ->
                  key_lt (key_of p) (key_of q).

Lemma key_eq_info (names : list FName) (p q : FMaterialParameterInfo) :
  NoCollision names -> In (Name p) names -> In (Name q) names ->
  key_le (key_of p) (key_of q) -> ~ key_lt (key_of p) (key_of q) -> p = q.
Proof.
  intros Hnc Hp Hq Hle Hnlt.
  assert (Hh : GetHash (Name p) = GetHash (Name q)) by key_arith.
  assert (Ha : association_value (Association p) = association_value (Association q)) by key_arith.
  assert (Hi : Index p = Index q) by key_arith.
  apply (Hnc _ _ Hp Hq) in Hh. apply association_value_inj in Ha.
  destruct p, q; cbn in *; congruence.
Qed.

Lemma TryAddParameter_Entry_StrictlySorted (names : list FName)
    (Entry Entry' : FMaterialCachedParameterEntry)
    (p : FMaterialParameterInfo) (g : FGuid) (ov : bool) (Index_ : Z) :
  WellFormed Entry -> StrictlySorted Entry ->
  NoCollision names -> In (Name p) names ->
  (forall q, In q (ParameterInfos Entry) -> In (Name q) names) ->
  TryAddParameter_Entry Entry p g ov = Some (Entry', Index_) ->
  StrictlySorted Entry'.
Proof.
  intros Hwf Hstrict Hnc Hp Hnames Hrun.
  destruct (FindParameterLowerBoundIndex_splits Entry (Hashed p) Hwf) as (Hr & Hlt & Hge).
  destruct (TryAddParameter_Entry_cases Entry p g ov Hwf)
    as [[Hnot Hadd] | (Hat & ov0 & g0 & _ & _ & Hkeep)].
  2:{ rewrite Hkeep in Hrun. injection Hrun as <- _. exact Hstrict. }
  rewrite Hadd in Hrun. injection Hrun as <- _.
  set (r := FindParameterLowerBoundIndex Entry (Hashed p)) in *.
  assert (Hgt : forall j q, (r <= j)%nat -> ParameterInfos Entry !! j = Some q ->
                            key_lt (key_of p) (key_of q)).
  { intros j q Hj Hq.
    destruct (Nat.eq_dec j r) as [-> | Hne].
    - pose proof (Hge r q (Nat.le_refl r) Hq) as Hle.
      assert (Hdec : key_lt (key_of p) (key_of q) \/ ~ key_lt (key_of p) (key_of q))
        by key_arith.
      destruct Hdec as [Hyes | Hno]; [exact Hyes |].
      exfalso. apply Hnot.
      assert (Hq_in : In (Name q) names) by (apply Hnames; apply In_lookup; eauto).
      assert (Hle' : key_le (key_of p) (key_of q)) by key_arith.
      pose proof (key_eq_info names p q Hnc Hp Hq_in Hle' Hno). congruence.
    - destruct (lookup_lt_is_Some_2 (ParameterInfos Entry) r) as [q0 Hq0];
        [apply lookup_lt_Some in Hq; lia |].
      pose proof (Hge r q0 (Nat.le_refl r) Hq0).
      pose proof (Hstrict r j q0 q ltac:(lia) Hq0 Hq). key_arith. }
  intros i j a b Hij Ha Hb. unfold Inserted_at in Ha, Hb. cbn [ParameterInfos] in Ha, Hb.
  apply lookup_Insert_cases in Ha; [| exact Hr].
  apply lookup_Insert_cases in Hb; [| exact Hr].
  destruct Ha as [[Hi Ha] | [[-> ->] | [Hi Ha]]];
    destruct Hb as [[Hj Hb] | [[-> ->] | [Hj Hb]]]; try lia.
  - exact (Hstrict i j a b Hij Ha Hb).
  - pose proof (Hlt i a Hi Ha). key_arith.
  - exact (Hstrict i (j - 1)%nat a b ltac:(lia) Ha Hb).
  - exact (Hgt (j - 1)%nat b ltac:(lia) Hb).
  - exact (Hstrict (i - 1)%nat (j - 1)%nat a b ltac:(lia) Ha Hb).
Qed.

(** In a strictly sorted table the search finds every stored parameter at
    the index where it is stored. *)
Lemma FindParameterLowerBoundIndex_stored (Entry : FMaterialCachedParameterEntry)
    (p : FMaterialParameterInfo) (i : nat) :
  WellFormed Entry -> StrictlySorted Entry ->
  ParameterInfos Entry !! i = Some p ->
  FindParameterLowerBoundIndex Entry (Hashed p) = i.
Proof.
  intros Hwf Hstrict Hp.
  destruct (FindParameterLowerBoundIndex_splits Entry (Hashed p) Hwf) as (Hr & Hlt & Hge).
  set (r := FindParameterLowerBoundIndex Entry (Hashed p)) in *.
  destruct (Nat.lt_trichotomy r i) as [Hc | [Hc | Hc]]; [| exact Hc |].
  - destruct (lookup_lt_is_Some_2 (ParameterInfos Entry) r) as [q Hq];
      [apply lookup_lt_Some in Hp; lia |].
    pose proof (Hge r q (Nat.le_refl r) Hq). pose proof (Hstrict r i q p Hc Hq Hp). key_arith.
  - pose proof (Hlt i p Hc Hp). key_arith.
Qed.

Lemma FindParameterLowerBoundIndex_unique (Entry : FMaterialCachedParameterEntry)
    (k : FHashedMaterialParameterInfo) (r : nat) :
  WellFormed Entry ->
  (r <= length (ParameterInfos Entry))%nat ->
  (forall i q, (i < r)%nat -> ParameterInfos Entry !! i = Some q ->
               key_lt (key_of q) (key_of_hashed k)) ->
  (forall i q, (r <= i)%nat -> ParameterInfos Entry !! i = Some q ->
               key_le (key_of_hashed k) (key_of q)) ->
  FindParameterLowerBoundIndex Entry k = r.
Proof.
  intros Hwf Hr Hlt Hge.
  destruct (FindParameterLowerBoundIndex_splits Entry k Hwf) as (Hr' & Hlt' & Hge').
  set (r' := FindParameterLowerBoundIndex Entry k) in *.
  destruct (Nat.lt_trichotomy r' r) as [Hc | [Hc | Hc]]; [| exact Hc |].
  - destruct (lookup_lt_is_Some_2 (ParameterInfos Entry) r' ltac:(lia)) as [q Hq].
    pose proof (Hlt r' q Hc Hq). pose proof (Hge' r' q (Nat.le_refl r') Hq). key_arith.
  - destruct (lookup_lt_is_Some_2 (ParameterInfos Entry) r ltac:(lia)) as [q Hq].
    pose proof (Hlt' r q Hc Hq). pose proof (Hge r q (Nat.le_refl r) Hq). key_arith.
Qed.

(** After an insertion the search finds the inserted parameter where it
    was put (hash collisions or not). *)
Lemma FindParameterLowerBoundIndex_Inserted (Entry : FMaterialCachedParameterEntry)
    (p : FMaterialParameterInfo) (g : FGuid) (ov : bool) :
  WellFormed Entry ->
  let r := FindParameterLowerBoundIndex Entry (Hashed p) in
  FindParameterLowerBoundIndex (Inserted_at r Entry p g ov) (Hashed p) = r.
Proof.
  intros Hwf r.
  destruct (FindParameterLowerBoundIndex_splits Entry (Hashed p) Hwf) as (Hr & Hlt & Hge).
  fold r in Hr, Hlt, Hge.
  apply FindParameterLowerBoundIndex_unique.
  - apply Inserted_at_WellFormed. exact Hwf.
  - unfold Inserted_at. cbn [ParameterInfos]. rewrite length_Insert. lia.
  - intros i q Hi Hq. unfold Inserted_at in Hq. cbn [ParameterInfos] in Hq.
    rewrite lookup_Insert_lt in Hq by lia. exact (Hlt i q Hi Hq).
  - intros i q Hi Hq. unfold Inserted_at in Hq. cbn [ParameterInfos] in Hq.
    apply lookup_Insert_cases in Hq; [| exact Hr].
    destruct Hq as [[Hc _] | [[_ ->] | [Hc Hq]]]; [lia | key_arith |].
    exact (Hge (i - 1)%nat q ltac:(lia) Hq).
Qed.

(** *** The tables of all kinds *)

Definition AllWellFormed (CachedParameters : FMaterialCachedParameters) : Prop :=
  forall t, WellFormed (Entries CachedParameters t).

Definition stored_in (CachedParameters : FMaterialCachedParameters) (t : EMaterialParameterType)
    (q : FMaterialParameterInfo) : Prop :=
  In q (ParameterInfos (Entries CachedParameters t)).

Lemma Entries_set_Entry (t t' : EMaterialParameterType) (Entry : FMaterialCachedParameterEntry)
    (CachedParameters : FMaterialCachedParameters) :
  Entries (set_Entry t Entry CachedParameters) t'
  = if decide (t' = t) then Entry else Entries CachedParameters t'.
Proof. reflexivity. Qed.

Lemma TryAddParameter_step (CachedParameters : FMaterialCachedParameters)
    (t : EMaterialParameterType) (p : FMaterialParameterInfo) (g : FGuid) (ov : bool) :
  AllWellFormed CachedParameters ->
  exists Entry' Index_,
    TryAddParameter_Entry (Entries CachedParameters t) p g ov = Some (Entry', Index_)
    /\ TryAddParameter CachedParameters t p g ov
       = Some (set_Entry t Entry' CachedParameters, Index_)
    /\ AllWellFormed (set_Entry t Entry' CachedParameters)
    /\ (forall t' q, stored_in (set_Entry t Entry' CachedParameters) t' q <->
                     (t' = t /\ q = p) \/ stored_in CachedParameters t' q).
Proof.
  intros Hwf.
  destruct (TryAddParameter_Entry_WellFormed _ p g ov (Hwf t)) as (Entry' & Index_ & Hrun & Hwf').
  exists Entry', Index_. split; [exact Hrun |].
  split; [unfold TryAddParameter; rewrite Hrun; reflexivity |].
  split.
  - intros t'. rewrite Entries_set_Entry. destruct (decide (t' = t)); [exact Hwf' | apply Hwf].
  - intros t' q. unfold stored_in. rewrite Entries_set_Entry.
    destruct (decide (t' = t)) as [-> | Hne].
    + rewrite (TryAddParameter_Entry_stored _ _ _ _ _ _ (Hwf t) Hrun). tauto.
    + tauto.
Qed.

Lemma TryAddParameters_invariant (ops : list Insertion) :
  forall CachedParameters,
    AllWellFormed CachedParameters ->
    exists CachedParameters',
      TryAddParameters ops CachedParameters = Some CachedParameters'
      /\ AllWellFormed CachedParameters'
      /\ (forall t q, stored_in CachedParameters' t q <->
                      stored_in CachedParameters t q
                      \/ exists op, In op ops /\ InsType op = t /\ InsInfo op = q).
Proof.
  induction ops as [| op ops IH]; intros cp Hwf.
  - exists cp. split; [reflexivity |]. split; [exact Hwf |].
    intros t q. split; [auto |]. intros [H | (op & [] & _)]. exact H.
  - destruct (TryAddParameter_step cp (InsType op) (InsInfo op) (InsGuid op) (InsOverride op) Hwf)
      as (Entry' & Index_ & _ & Hrun & Hwf1 & Hst1).
    destruct (IH _ Hwf1) as (cp' & Hrest & Hwf' & Hst').
    exists cp'. split; [cbn [TryAddParameters]; rewrite Hrun; exact Hrest |].
    split; [exact Hwf' |].
    intros t q. rewrite Hst', Hst1. split.
    + intros [[[-> ->] | H] | (op' & Hin & Ht & Hq)].
      * right. exists op. cbn [In]. auto.
      * left. exact H.
      * right. exists op'. cbn [In]. auto.
    + intros [H | (op' & [<- | Hin] & Ht & Hq)].
      * left. right. exact H.
      * left. left. auto.
      * right. exists op'. auto.
Qed.

Lemma TryAddParameters_StrictlySorted (names : list FName) (ops : list Insertion) :
  NoCollision names ->
  (forall op, In op ops -> In (Name (InsInfo op)) names) ->
  forall CachedParameters CachedParameters',
    AllWellFormed CachedParameters ->
    (forall t, StrictlySorted (Entries CachedParameters t)) ->
    (forall t q, stored_in CachedParameters t q -> In (Name q) names) ->
    TryAddParameters ops CachedParameters = Some CachedParameters' ->
    forall t, StrictlySorted (Entries CachedParameters' t).
Proof.
  intros Hnc. induction ops as [| op ops IH]; intros Hops cp cp' Hwf Hstrict Hnames Hrun.
  - cbn in Hrun. injection Hrun as <-. exact Hstrict.
  - destruct (TryAddParameter_step cp (InsType op) (InsInfo op) (InsGuid op) (InsOverride op) Hwf)
      as (Entry' & Index_ & Hentry & Hstep & Hwf1 & Hst1).
    cbn [TryAddParameters] in Hrun. rewrite Hstep in Hrun.
    apply (IH (fun o Ho => Hops o (or_intror Ho)) _ _ Hwf1); [| | exact Hrun].
    + intros t. rewrite Entries_set_Entry. destruct (decide (t = InsType op)) as [-> | Hne];
        [| apply Hstrict].
      apply (TryAddParameter_Entry_StrictlySorted names _ _ _ _ _ _ (Hwf _) (Hstrict _) Hnc
               (Hops op (or_introl eq_refl)) (Hnames _) Hentry).
    + intros t q Hq. apply Hst1 in Hq. destruct Hq as [[-> ->] | Hq].
      * apply Hops. left. reflexivity.
      * exact (Hnames t q Hq).
Qed.

Lemma CachedParameters_Reset_WellFormed : AllWellFormed CachedParameters_Reset.
Proof. intros t. apply Entry_Reset_WellFormed. Qed.

(** The lookup of a stored parameter in a strictly sorted table. *)
Lemma FindParameterIndex_stored (CachedParameters : FMaterialCachedParameters)
    (t : EMaterialParameterType) (p : FMaterialParameterInfo) (i : nat) :
  WellFormed (Entries CachedParameters t) ->
  StrictlySorted (Entries CachedParameters t) ->
  ParameterInfos (Entries CachedParameters t) !! i = Some p ->
  FindParameterIndex CachedParameters t (Hashed p) = Z.of_nat i.
Proof.
  intros Hwf Hstrict Hp. unfold FindParameterIndex. cbv zeta.
  rewrite (FindParameterLowerBoundIndex_stored _ p i Hwf Hstrict Hp).
  rewrite (wf_hashes _ Hwf i p Hp), Hp.
  cbn [Hashed HashedName HashedAssociation HashedIndex].
  rewrite !Z.eqb_refl, bool_decide_eq_true_2 by reflexivity. reflexivity.
Qed.

(** C3 (as amended).  After any sequence of [TryAddParameter] insertions
    into empty tables, for every parameter kind: the insertions all
    succeed, the name-hash array never decreases, and within a run of equal
    hashes the (association, index) pairs never decrease.  Provided no two
    distinct inserted names have the same name hash, the two-stage binary
    search for a previously inserted (name, association, index) triple
    returns exactly the one index where that entry is stored. *)
Theorem TryAddParameters_sorted_and_found (ops : list Insertion) :
  exists CachedParameters,
    TryAddParameters ops CachedParameters_Reset = Some CachedParameters
    /\ forall t,
         let Entry := Entries CachedParameters t in
         (forall i j x y, (i <= j)%nat ->
            NameHashes Entry !! i = Some x -> NameHashes Entry !! j = Some y -> x <= y)
         /\ (forall i j p q, (i <= j)%nat ->
               ParameterInfos Entry !! i = Some p -> ParameterInfos Entry !! j = Some q ->
               NameHashes Entry !! i = NameHashes Entry !! j ->
               association_value (Association p) < association_value (Association q)
               \/ (Association p = Association q /\ Index p <= Index q))
         /\ (NoCollision (map (fun op => Name (InsInfo op)) ops) ->
             forall op, In op ops -> InsType op = t ->
               exists i,
                 ParameterInfos Entry !! i = Some (InsInfo op)
                 /\ NameHashes Entry !! i = Some (GetHash (Name (InsInfo op)))
                 /\ FindParameterIndex CachedParameters t (Hashed (InsInfo op)) = Z.of_nat i
                 /\ forall j, ParameterInfos Entry !! j = Some (InsInfo op) -> j = i).
Proof.
  destruct (TryAddParameters_invariant ops _ CachedParameters_Reset_WellFormed)
    as (cp & Hrun & Hwf & Hst).
  exists cp. split; [exact Hrun |]. intros t Entry. subst Entry.
  split; [intros i j x y; apply WellFormed_hashes_sorted; apply Hwf |].
  split.
  - intros i j p q Hij Hp Hq Hh.
    destruct (Nat.eq_dec i j) as [-> | Hne].
    { assert (p = q) by congruence. subst q. right. split; [reflexivity | lia]. }
    pose proof (wf_sorted _ (Hwf t) i j p q ltac:(lia) Hp Hq) as Hle.
    rewrite (wf_hashes _ (Hwf t) i p Hp), (wf_hashes _ (Hwf t) j q Hq) in Hh.
    injection Hh as Hh.
    assert (Hcases : association_value (Association p) < association_value (Association q)
                     \/ (association_value (Association p) = association_value (Association q)
                         /\ Index p <= Index q)) by key_arith.
    destruct Hcases as [Hlt | [Heq Hle']]; [left; exact Hlt |].
    right. split; [apply association_value_inj; exact Heq | exact Hle'].
  - intros Hnc op Hin Ht.
    set (names := map (fun op => Name (InsInfo op)) ops) in *.
    assert (Hops : forall o, In o ops -> In (Name (InsInfo o)) names).
    { intros o Ho. unfold names. apply in_map_iff. exists o. auto. }
    assert (Hstrict : forall t', StrictlySorted (Entries cp t')).
    { apply (TryAddParameters_StrictlySorted names ops Hnc Hops CachedParameters_Reset cp
               CachedParameters_Reset_WellFormed); [| | exact Hrun].
      - intros t' i j p q _ Hp. cbn in Hp. rewrite lookup_nil in Hp. discriminate.
      - intros t' q []. }
    assert (Hstored : stored_in cp t (InsInfo op)).
    { apply Hst. right. exists op. auto. }
    apply In_lookup in Hstored. destruct Hstored as [i Hi].
    exists i. split; [exact Hi |].
    split; [exact (wf_hashes _ (Hwf t) i _ Hi) |].
    split; [exact (FindParameterIndex_stored cp t _ i (Hwf t) (Hstrict t) Hi) |].
    intros j Hj.
    destruct (Nat.lt_trichotomy j i) as [Hc | [Hc | Hc]]; [| exact Hc |].
    + pose proof (Hstrict t j i _ _ Hc Hj Hi). key_arith.
    + pose proof (Hstrict t i j _ _ Hc Hi Hj). key_arith.
Qed.

(** C4.  On a well-formed table that does not hold the parameter yet, the
    insertion as a layer or function override with the invalid guid
    [FGuid()] followed by the insertion of the same (kind, name,
    association, index) from an expression with guid [ExpressionGuid]
    succeed, the first returning the index of the new entry and the second
    [INDEX_NONE]; afterwards the table has one entry more than before, the
    parameter is stored at that index and nowhere else, and the expression
    guid of that entry is the one of the second insertion. *)
Theorem TryAddParameter_override_then_expression (CachedParameters : FMaterialCachedParameters)
    (t : EMaterialParameterType) (ParameterInfo : FMaterialParameterInfo) (ExpressionGuid : FGuid) :
  AllWellFormed CachedParameters ->
  ~ stored_in CachedParameters t ParameterInfo ->
  exists (i : nat) CachedParameters1 CachedParameters2,
    TryAddParameter CachedParameters t ParameterInfo FGuid_default true
    = Some (CachedParameters1, Z.of_nat i)
    /\ TryAddParameter CachedParameters1 t ParameterInfo ExpressionGuid false
       = Some (CachedParameters2, INDEX_NONE)
    /\ ParameterInfos (Entries CachedParameters2 t)
       = Insert ParameterInfo i (ParameterInfos (Entries CachedParameters t))
    /\ length (ParameterInfos (Entries CachedParameters2 t))
       = S (length (ParameterInfos (Entries CachedParameters t)))
    /\ (forall j, ParameterInfos (Entries CachedParameters2 t) !! j = Some ParameterInfo <-> j = i)
    /\ ExpressionGuids (Entries CachedParameters2 t) !! i = Some ExpressionGuid
    /\ Overrides (Entries CachedParameters2 t) !! i = Some true
    /\ AllWellFormed CachedParameters2
    /\ (forall t', t' <> t -> Entries CachedParameters2 t' = Entries CachedParameters t').
Proof.
  intros Hwf Hnew.
  set (Entry := Entries CachedParameters t).
  set (r := FindParameterLowerBoundIndex Entry (Hashed ParameterInfo)).
  destruct (FindParameterLowerBoundIndex_splits Entry (Hashed ParameterInfo) (Hwf t))
    as (Hr & _ & _). fold r in Hr.
  set (Entry1 := Inserted_at r Entry ParameterInfo FGuid_default true).
  (* the first call inserts *)
  assert (H1 : TryAddParameter_Entry Entry ParameterInfo FGuid_default true
               = Some (Entry1, Z.of_nat r)).
  { destruct (TryAddParameter_Entry_cases Entry ParameterInfo FGuid_default true (Hwf t))
      as [[_ Hadd] | (Hat & _)]; [exact Hadd |].
    exfalso. apply Hnew. apply In_lookup. eauto. }
  assert (Hwf1 : WellFormed Entry1) by (apply Inserted_at_WellFormed; apply Hwf).
  assert (Hr1 : FindParameterLowerBoundIndex Entry1 (Hashed ParameterInfo) = r)
    by (apply FindParameterLowerBoundIndex_Inserted; apply Hwf).
  pose proof (wf_infos _ (Hwf t)) as Hli. pose proof (wf_guids _ (Hwf t)) as Hlg.
  pose proof (wf_overrides _ (Hwf t)) as Hlo. fold Entry in Hli, Hlg, Hlo.
  assert (Hat1 : ParameterInfos Entry1 !! r = Some ParameterInfo)
    by (apply lookup_Insert_eq; exact Hr).
  assert (Hov1 : Overrides Entry1 !! r = Some true)
    by (apply lookup_Insert_eq; lia).
  assert (Hg1 : ExpressionGuids Entry1 !! r = Some FGuid_default)
    by (apply lookup_Insert_eq; lia).
  (* the second call finds the entry and latches the guid *)
  set (Entry2 := mkEntry (NameHashes Entry1) (ParameterInfos Entry1)
                         (<[r := ExpressionGuid]> (ExpressionGuids Entry1)) (Overrides Entry1)).
  assert (H2 : TryAddParameter_Entry Entry1 ParameterInfo ExpressionGuid false
               = Some (Entry2, INDEX_NONE)).
  { destruct (TryAddParameter_Entry_cases Entry1 ParameterInfo ExpressionGuid false Hwf1)
      as [[Hnot _] | (_ & ov0 & g0 & Hov & Hg & Hkeep)].
    - rewrite Hr1 in Hnot. contradiction.
    - rewrite Hr1 in Hov, Hg, Hkeep.
      assert (ov0 = true) by congruence. assert (g0 = FGuid_default) by congruence.
      subst ov0 g0. exact Hkeep. }
  exists r, (set_Entry t Entry1 CachedParameters),
    (set_Entry t Entry2 (set_Entry t Entry1 CachedParameters)).
  assert (Hsame : Entries (set_Entry t Entry1 CachedParameters) t = Entry1).
  { rewrite Entries_set_Entry. destruct (decide (t = t)); [reflexivity | contradiction]. }
  assert (Hsame2 : Entries (set_Entry t Entry2 (set_Entry t Entry1 CachedParameters)) t = Entry2).
  { rewrite Entries_set_Entry. destruct (decide (t = t)); [reflexivity | contradiction]. }
  split.
  { unfold TryAddParameter. fold Entry. rewrite H1. reflexivity. }
  split.
  { unfold TryAddParameter. rewrite Hsame, H2. reflexivity. }
  rewrite Hsame2. cbn [ParameterInfos ExpressionGuids Overrides Entry2].
  split; [reflexivity |].
  split; [unfold Entry1, Inserted_at; cbn [ParameterInfos]; apply length_Insert |].
  split.
  { intros j. split; [| intros ->; exact Hat1].
    intros Hj. unfold Entry1, Inserted_at in Hj. cbn [ParameterInfos] in Hj.
    apply lookup_Insert_cases in Hj; [| exact Hr].
    destruct Hj as [[_ Hj] | [[-> _] | [_ Hj]]]; [| reflexivity |];
      exfalso; apply Hnew; apply In_lookup; eauto. }
  split.
  { apply list_lookup_insert_eq. apply lookup_lt_Some in Hg1. exact Hg1. }
  split; [exact Hov1 |].
  split.
  { intros t'. rewrite Entries_set_Entry. destruct (decide (t' = t)) as [-> | Hne].
    - constructor; cbn [NameHashes ParameterInfos ExpressionGuids Overrides Entry2].
      + apply (wf_infos _ Hwf1).
      + rewrite length_insert. apply (wf_guids _ Hwf1).
      + apply (wf_overrides _ Hwf1).
      + apply (wf_hashes _ Hwf1).
      + apply (wf_sorted _ Hwf1).
    - rewrite Entries_set_Entry. destruct (decide (t' = t)); [contradiction | apply Hwf]. }
  intros t' Hne. rewrite !Entries_set_Entry.
  destruct (decide (t' = t)); [contradiction | reflexivity].
Qed.

(** *** Names with the same hash *)

(** Two distinct names with one hash, inserted with the same association
    and index: the second is put in front of the first, and the search for
    the first returns the index of the second. *)
Lemma collision_hides_first_entry (t : EMaterialParameterType) (a b : FName)
    (assoc : EMaterialParameterAssociation) (idx : Z) (g1 g2 : FGuid) (ov1 ov2 : bool) :
  a <> b -> GetHash a = GetHash b ->
  let pA := mkInfo a assoc idx in
  let pB := mkInfo b assoc idx in
  exists CachedParameters,
    TryAddParameters [mkInsertion t pA g1 ov1; mkInsertion t pB g2 ov2] CachedParameters_Reset
    = Some CachedParameters
    /\ ParameterInfos (Entries CachedParameters t) = [pB; pA]
    /\ FindParameterIndex CachedParameters t (Hashed pA) = 0.
Proof.
  intros Hab Hhash pA pB.
  (* the first insertion, into the empty table *)
  assert (H1 : TryAddParameter_Entry Entry_Reset pA g1 ov1
               = Some (mkEntry [GetHash a] [pA] [g1] [ov1], 0)) by reflexivity.
  set (Entry1 := mkEntry [GetHash a] [pA] [g1] [ov1]).
  assert (Hwf1 : WellFormed Entry1).
  { destruct (TryAddParameter_Entry_WellFormed Entry_Reset pA g1 ov1 Entry_Reset_WellFormed)
      as (e & i & He & Hwf). rewrite H1 in He. injection He as <- _. exact Hwf. }
  (* the second insertion lands in front of the first *)
  assert (Hr1 : FindParameterLowerBoundIndex Entry1 (Hashed pB) = 0%nat).
  { apply FindParameterLowerBoundIndex_unique; [exact Hwf1 | cbn; lia | intros i q Hi; lia |].
    intros i q _ Hq. destruct i as [| i]; cbn in Hq; [| discriminate].
    injection Hq as <-. unfold pA, pB, key_le, key_of, key_of_hashed, Hashed.
    cbn [fst snd HashedName HashedAssociation HashedIndex Name Association Index]. lia. }
  assert (H2 : TryAddParameter_Entry Entry1 pB g2 ov2
               = Some (mkEntry [GetHash b; GetHash a] [pB; pA] [g2; g1] [ov2; ov1], 0)).
  { destruct (TryAddParameter_Entry_cases Entry1 pB g2 ov2 Hwf1) as [[_ Hadd] | [Hat _]].
    - rewrite Hadd, Hr1. reflexivity.
    - rewrite Hr1 in Hat. cbn in Hat. injection Hat as Hat. unfold pA, pB in Hat. congruence. }
  set (Entry2 := mkEntry [GetHash b; GetHash a] [pB; pA] [g2; g1] [ov2; ov1]).
  assert (Hwf2 : WellFormed Entry2).
  { destruct (TryAddParameter_Entry_WellFormed Entry1 pB g2 ov2 Hwf1) as (e & i & He & Hwf).
    rewrite H2 in He. injection He as <- _. exact Hwf. }
  assert (Hr2 : FindParameterLowerBoundIndex Entry2 (Hashed pA) = 0%nat).
  { apply FindParameterLowerBoundIndex_unique; [exact Hwf2 | cbn; lia | intros i q Hi; lia |].
    intros i q _ Hq. destruct i as [| [| i]]; cbn in Hq;
      [| | discriminate]; injection Hq as <-;
      unfold pA, pB, key_le, key_of, key_of_hashed, Hashed;
      cbn [fst snd HashedName HashedAssociation HashedIndex Name Association Index]; lia. }
  exists (set_Entry t Entry2 (set_Entry t Entry1 CachedParameters_Reset)).
  assert (Hsame1 : Entries (set_Entry t Entry1 CachedParameters_Reset) t = Entry1).
  { rewrite Entries_set_Entry. destruct (decide (t = t)); [reflexivity | contradiction]. }
  assert (Hsame2 : Entries (set_Entry t Entry2 (set_Entry t Entry1 CachedParameters_Reset)) t
                   = Entry2).
  { rewrite Entries_set_Entry. destruct (decide (t = t)); [reflexivity | contradiction]. }
  assert (S1 : TryAddParameter CachedParameters_Reset t pA g1 ov1
               = Some (set_Entry t Entry1 CachedParameters_Reset, 0)).
  { unfold TryAddParameter. change (Entries CachedParameters_Reset t) with Entry_Reset.
    rewrite H1. reflexivity. }
  assert (S2 : TryAddParameter (set_Entry t Entry1 CachedParameters_Reset) t pB g2 ov2
               = Some (set_Entry t Entry2 (set_Entry t Entry1 CachedParameters_Reset), 0)).
  { unfold TryAddParameter. rewrite Hsame1, H2. reflexivity. }
  split.
  { cbn [TryAddParameters InsType InsInfo InsGuid InsOverride]. rewrite S1, S2. reflexivity. }
  split; [rewrite Hsame2; reflexivity |].
  unfold FindParameterIndex. cbv zeta. rewrite Hsame2, Hr2.
  cbn [Entry2 NameHashes ParameterInfos lookup list_lookup].
  cbn [Hashed HashedName HashedAssociation HashedIndex pA pB Association Index Name].
  rewrite Hhash, !Z.eqb_refl, bool_decide_eq_true_2 by reflexivity. reflexivity.
Qed.

End WithNameHash.

(** *** Examples *)

(** A toy name hash for the examples: the length of the name. *)
Definition length_hash (n : FName) : Z := Z.of_nat (String.length n).

Definition Roughness : FMaterialParameterInfo := mkInfo "Roughness"%string GlobalParameter (-1).
Definition Opacity : FMaterialParameterInfo := mkInfo "Opacity"%string GlobalParameter (-1).
Definition Metallic : FMaterialParameterInfo := mkInfo "Metallic"%string GlobalParameter (-1).
Definition Specular : FMaterialParameterInfo := mkInfo "Specular"%string GlobalParameter (-1).

Example TryAddParameters_three :
  option_map (fun cp => ParameterInfos (Entries cp Scalar))
    (TryAddParameters length_hash
       [mkInsertion Scalar Roughness FGuid_default true;
        mkInsertion Scalar Opacity (mkGuid 1 2 3 4) false;
        mkInsertion Scalar (mkInfo "Opacity"%string LayerParameter 0) FGuid_default true;
        mkInsertion Scalar Roughness (mkGuid 5 6 7 8) false]
       CachedParameters_Reset)
  = Some [mkInfo "Opacity"%string LayerParameter 0; Opacity; Roughness].
Proof. vm_compute. reflexivity. Qed.

Lemma TryAddParameters_sorted_and_found_witness :
  exists CachedParameters i,
    TryAddParameters length_hash
      [mkInsertion Scalar Roughness FGuid_default true;
       mkInsertion Scalar Opacity (mkGuid 1 2 3 4) false] CachedParameters_Reset
    = Some CachedParameters
    /\ ParameterInfos (Entries CachedParameters Scalar) !! i = Some Roughness
    /\ FindParameterIndex CachedParameters Scalar (Hashed length_hash Roughness)
       = Z.of_nat i.
Proof.
  destruct (TryAddParameters_sorted_and_found length_hash
              [mkInsertion Scalar Roughness FGuid_default true;
               mkInsertion Scalar Opacity (mkGuid 1 2 3 4) false])
    as (cp & Hrun & Hall).
  destruct (Hall Scalar) as (_ & _ & Hfound).
  assert (Hnc : NoCollision length_hash
                  (map (fun op => Name (InsInfo op))
                     [mkInsertion Scalar Roughness FGuid_default true;
                      mkInsertion Scalar Opacity (mkGuid 1 2 3 4) false])).
  { intros a b Ha Hb Hh. cbn in Ha, Hb.
    destruct Ha as [<- | [<- | []]]; destruct Hb as [<- | [<- | []]];
      try reflexivity; vm_compute in Hh; discriminate. }
  destruct (Hfound Hnc (mkInsertion Scalar Roughness FGuid_default true)
              (or_introl eq_refl) eq_refl) as (i & Hi & _ & Hfind & _).
  exists cp, i. split; [exact Hrun |]. split; [exact Hi | exact Hfind].
Defined.

(** Under a name hash that gives two names the same value, the search for
    the parameter inserted first returns index 0, where the other
    parameter is stored; the first one is at index 1. *)
Lemma FindParameterIndex_with_colliding_names :
  let ops := [mkInsertion Scalar Metallic (mkGuid 1 2 3 4) false;
              mkInsertion Scalar Specular (mkGuid 5 6 7 8) false] in
  length_hash (Name Metallic) = length_hash (Name Specular)
  /\ exists CachedParameters,
       TryAddParameters length_hash ops CachedParameters_Reset = Some CachedParameters
       /\ ParameterInfos (Entries CachedParameters Scalar) = [Specular; Metallic]
       /\ FindParameterIndex CachedParameters Scalar (Hashed length_hash Metallic) = 0
       /\ ParameterInfos (Entries CachedParameters Scalar) !! 0%nat <> Some Metallic.
Proof.
  cbv zeta. split; [reflexivity |].
  destruct (collision_hides_first_entry length_hash Scalar "Metallic"%string "Specular"%string
              GlobalParameter (-1) (mkGuid 1 2 3 4) (mkGuid 5 6 7 8) false false)
    as (cp & Hrun & Hinfos & Hfind); [discriminate | reflexivity |].
  exists cp. split; [exact Hrun |]. split; [exact Hinfos |]. split; [exact Hfind |].
  rewrite Hinfos. cbn. discriminate.
Qed.

Lemma TryAddParameter_override_then_expression_witness :
  exists CachedParameters1 CachedParameters2,
    TryAddParameter length_hash CachedParameters_Reset Scalar Roughness FGuid_default true
    = Some (CachedParameters1, 0)
    /\ TryAddParameter length_hash CachedParameters1 Scalar Roughness (mkGuid 5 6 7 8) false
       = Some (CachedParameters2, INDEX_NONE)
    /\ ParameterInfos (Entries CachedParameters2 Scalar) = [Roughness]
    /\ ExpressionGuids (Entries CachedParameters2 Scalar) !! 0%nat = Some (mkGuid 5 6 7 8).
Proof.
  destruct (TryAddParameter_override_then_expression length_hash CachedParameters_Reset Scalar
              Roughness (mkGuid 5 6 7 8) (CachedParameters_Reset_WellFormed length_hash)
              ltac:(intros []))
    as (i & cp1 & cp2 & H1 & H2 & Hinfos & Hlen & Honly & Hguid & _).
  assert (Hi : i = 0%nat).
  { cbn in Hlen. destruct (Nat.eq_dec i 0%nat) as [-> | Hne]; [reflexivity |].
    pose proof (proj2 (Honly i) eq_refl) as Hat. apply lookup_lt_Some in Hat. lia. }
  subst i. exists cp1, cp2.
  split; [exact H1 |]. split; [exact H2 |]. split; [exact Hinfos | exact Hguid].
Defined.

(** *** Queries on the tables *)

Section Queries.

Variable GetHash : FName -> Z.

(** A stored parameter answers to a hashed key: the three comparisons of
    [FindParameterIndex]. *)
Definition answers (q : FMaterialParameterInfo) (k : FHashedMaterialParameterInfo) : Prop :=
  GetHash (Name q) = HashedName k
  /\ Association q = HashedAssociation k
  /\ Index q = HashedIndex k.

Lemma answers_key (q : FMaterialParameterInfo) (k : FHashedMaterialParameterInfo) :
  answers q k <-> key_of GetHash q = key_of_hashed k.
Proof.
  unfold answers, key_of, key_of_hashed. split.
  - intros (H1 & H2 & H3). rewrite H1, H2, H3. reflexivity.
  - intros [= H1 H2 H3].
    split; [exact H1 | split; [apply association_value_inj; exact H2 | exact H3]].
Qed.

Lemma key_lt_irrefl (x : Key) : ~ key_lt x x.
Proof. unfold key_lt. lia. Qed.

Lemma key_le_antisym (x y : Key) : key_le x y -> key_le y x -> x = y.
Proof.
  destruct x as [[a b] c], y as [[a' b'] c']. unfold key_le. cbn [fst snd].
  intros H1 H2. assert (a = a' /\ b = b' /\ c = c') as (-> & -> & ->) by lia. reflexivity.
Qed.

Lemma FindParameterIndex_at_bound (CachedParameters : FMaterialCachedParameters)
    (t : EMaterialParameterType) (k : FHashedMaterialParameterInfo) :
  WellFormed GetHash (Entries CachedParameters t) ->
  let r := FindParameterLowerBoundIndex (Entries CachedParameters t) k in
  (exists q, ParameterInfos (Entries CachedParameters t) !! r = Some q
             /\ answers q k
             /\ FindParameterIndex CachedParameters t k = Z.of_nat r)
  \/ ((forall q, ParameterInfos (Entries CachedParameters t) !! r = Some q -> ~ answers q k)
      /\ FindParameterIndex CachedParameters t k = INDEX_NONE).
Proof.
  intros Hwf r. unfold FindParameterIndex. cbv zeta. fold r.
  destruct (ParameterInfos (Entries CachedParameters t) !! r) as [q |] eqn:Hq.
  - rewrite (wf_hashes _ _ Hwf r q Hq).
    destruct (Z.eqb_spec (GetHash (Name q)) (HashedName k)) as [H1 | H1]; cbn [andb].
    + case_bool_decide as H2; cbn [andb].
      * destruct (Z.eqb_spec (Index q) (HashedIndex k)) as [H3 | H3].
        -- left. exists q. repeat split; assumption.
        -- right. split; [| reflexivity]. intros q' [= <-] (_ & _ & Hc). contradiction.
      * right. split; [| reflexivity]. intros q' [= <-] (_ & Hc & _). contradiction.
    + right. split; [| reflexivity]. intros q' [= <-] (Hc & _). contradiction.
  - right. split; [intros q' Hc; discriminate Hc |].
    destruct (NameHashes (Entries CachedParameters t) !! r) as [h |] eqn:Hh; [| reflexivity].
    apply lookup_lt_Some in Hh. apply lookup_ge_None in Hq.
    pose proof (wf_infos _ _ Hwf). lia.
Qed.

(** X9.  In a well-formed table [FindParameterIndex] returns the index of
    the first entry that answers to the key (same name hash, association
    and index), and [INDEX_NONE] exactly when no entry does: a parameter
    that was never inserted is not found, unless its name collides with a
    stored one. *)
Theorem FindParameterIndex_first_match (CachedParameters : FMaterialCachedParameters)
    (t : EMaterialParameterType) (k : FHashedMaterialParameterInfo) :
  WellFormed GetHash (Entries CachedParameters t) ->
  (FindParameterIndex CachedParameters t k = INDEX_NONE <->
   forall i q, ParameterInfos (Entries CachedParameters t) !! i = Some q -> ~ answers q k)
  /\ (forall i : nat,
        FindParameterIndex CachedParameters t k = Z.of_nat i <->
        (exists q, ParameterInfos (Entries CachedParameters t) !! i = Some q /\ answers q k)
        /\ (forall j q, (j < i)%nat ->
              ParameterInfos (Entries CachedParameters t) !! j = Some q -> ~ answers q k)).
Proof.
  intros Hwf.
  destruct (FindParameterLowerBoundIndex_splits GetHash _ k Hwf) as (Hr & Hlt & Hge).
  pose proof (FindParameterIndex_at_bound CachedParameters t k Hwf) as Hat.
  cbv zeta in Hat, Hr, Hlt, Hge.
  set (r := FindParameterLowerBoundIndex (Entries CachedParameters t) k) in *.
  set (infos := ParameterInfos (Entries CachedParameters t)) in *.
  assert (Hbefore : forall j q, (j < r)%nat -> infos !! j = Some q -> ~ answers q k).
  { intros j q Hj Hq Hans. apply answers_key in Hans.
    pose proof (Hlt j q Hj Hq) as Hc. rewrite Hans in Hc. exact (key_lt_irrefl _ Hc). }
  assert (Hmatch : forall i q, infos !! i = Some q -> answers q k ->
                     (r <= i)%nat /\ exists q', infos !! r = Some q' /\ answers q' k).
  { intros i q Hq Hans.
    assert (Hri : (r <= i)%nat).
    { destruct (le_lt_dec r i) as [Hle | Hgt]; [exact Hle |].
      exfalso. exact (Hbefore i q Hgt Hq Hans). }
    split; [exact Hri |].
    destruct (decide (r = i)) as [-> | Hne]; [exists q; split; assumption |].
    destruct (lookup_lt_is_Some_2 infos r) as [q' Hq'];
      [apply lookup_lt_Some in Hq; lia |].
    exists q'. split; [exact Hq' |]. apply answers_key.
    apply answers_key in Hans.
    pose proof (Hge r q' (Nat.le_refl r) Hq') as H1.
    pose proof (wf_sorted _ _ Hwf r i q' q ltac:(lia) Hq' Hq) as H2.
    rewrite Hans in H2. apply key_le_antisym; assumption. }
  assert (Hnone : INDEX_NONE <> Z.of_nat r) by (unfold INDEX_NONE; lia).
  split.
  - split.
    + intros Hfind i q Hq Hans.
      destruct Hat as [(q0 & _ & _ & Hfound) | [Hno _]]; [congruence |].
      destruct (Hmatch i q Hq Hans) as [_ (q' & Hq' & Hans')].
      exact (Hno q' Hq' Hans').
    + intros Hno. destruct Hat as [(q0 & Hq0 & Hans0 & _) | [_ Hfind]]; [| exact Hfind].
      exfalso. exact (Hno r q0 Hq0 Hans0).
  - intros i. split.
    + intros Hfind.
      destruct Hat as [(q0 & Hq0 & Hans0 & Hfound) | [_ Hnf]];
        [| rewrite Hnf in Hfind; unfold INDEX_NONE in Hfind; lia].
      assert (i = r) by lia. subst i.
      split; [exists q0; split; assumption | exact Hbefore].
    + intros [(q & Hq & Hans) Hfirst].
      destruct (Hmatch i q Hq Hans) as [Hri (q' & Hq' & Hans')].
      assert (i = r).
      { destruct (decide (i = r)) as [He | Hne]; [exact He |].
        exfalso. exact (Hfirst r q' ltac:(lia) Hq' Hans'). }
      subst i.
      destruct Hat as [(q0 & _ & _ & Hfound) | [Hno _]]; [exact Hfound |].
      exfalso. exact (Hno q' Hq' Hans').
Qed.

End Queries.

Lemma FindParameterIndex_first_match_witness :
  exists CachedParameters,
    TryAddParameters length_hash
      [mkInsertion Scalar Roughness FGuid_default true;
       mkInsertion Scalar Opacity (mkGuid 1 2 3 4) false] CachedParameters_Reset
    = Some CachedParameters
    /\ FindParameterIndex CachedParameters Scalar (Hashed length_hash Metallic) = INDEX_NONE
    /\ FindParameterIndex CachedParameters Scalar (Hashed length_hash Roughness) = 1.
Proof.
  destruct (TryAddParameters_invariant length_hash
              [mkInsertion Scalar Roughness FGuid_default true;
               mkInsertion Scalar Opacity (mkGuid 1 2 3 4) false]
              CachedParameters_Reset (CachedParameters_Reset_WellFormed length_hash))
    as (cp & Hrun & Hwf & _).
  exists cp. split; [exact Hrun |].
  pose proof (FindParameterIndex_first_match length_hash cp Scalar
                (Hashed length_hash Metallic) (Hwf Scalar)) as [Hnone _].
  vm_compute in Hrun. injection Hrun as <-.
  split; [| reflexivity].
  apply Hnone. intros i q Hq (Hh & _).
  destruct i as [| [| i]]; cbn in Hq; try discriminate Hq;
    injection Hq as <-; vm_compute in Hh; discriminate Hh.
Defined.

(** *** Listing the parameters of a kind *)

(** [FMaterialCachedParameters::GetAllParameterInfoOfType]: the two output
    arrays after the call; [None] when an array access is out of range. *)
Definition GetAllParameterInfoOfType (CachedParameters : FMaterialCachedParameters)
    (Type_ : EMaterialParameterType) (bEmptyOutput : bool)
    (OutParameterInfo : list FMaterialParameterInfo) (OutParameterIds : list FGuid)
    : option (list FMaterialParameterInfo * list FGuid) :=
  let Entry := Entries CachedParameters Type_ in
  let NumParameters := length (NameHashes Entry) in
  let OutParameterInfo := if bEmptyOutput then [] else OutParameterInfo in
  let OutParameterIds := if bEmptyOutput then [] else OutParameterIds in
  fold_left
    (fun Out i =>
       match Out, ParameterInfos Entry !! i, ExpressionGuids Entry !! i with
       | Some (OutParameterInfo, OutParameterIds), Some ParameterInfo, Some ExpressionGuid =>
           Some (OutParameterInfo ++ [ParameterInfo], OutParameterIds ++ [ExpressionGuid])
       | _, _, _ => None
       end)
    (seq 0 NumParameters) (Some (OutParameterInfo, OutParameterIds)).

(** [FMaterialCachedParameters::GetAllGlobalParameterInfoOfType]. *)
Definition GetAllGlobalParameterInfoOfType (CachedParameters : FMaterialCachedParameters)
    (Type_ : EMaterialParameterType) (bEmptyOutput : bool)
    (OutParameterInfo : list FMaterialParameterInfo) (OutParameterIds : list FGuid)
    : option (list FMaterialParameterInfo * list FGuid) :=
  let Entry := Entries CachedParameters Type_ in
  let NumParameters := length (NameHashes Entry) in
  let OutParameterInfo := if bEmptyOutput then [] else OutParameterInfo in
  let OutParameterIds := if bEmptyOutput then [] else OutParameterIds in
  fold_left
    (fun Out i =>
       match Out, ParameterInfos Entry !! i with
       | Some (OutParameterInfo, OutParameterIds), Some ParameterInfo =>
           if decide (Association ParameterInfo = GlobalParameter) then
             match ExpressionGuids Entry !! i with
             | Some ExpressionGuid =>
                 Some (OutParameterInfo ++ [ParameterInfo], OutParameterIds ++ [ExpressionGuid])
             | None => None
             end
           else Some (OutParameterInfo, OutParameterIds)
       | _, _ => None
       end)
    (seq 0 NumParameters) (Some (OutParameterInfo, OutParameterIds)).

Example GetAllParameterInfoOfType_three :
  option_map
    (fun cp => (GetAllParameterInfoOfType cp Scalar true [Metallic] [],
                GetAllGlobalParameterInfoOfType cp Scalar false [Metallic] [FGuid_default]))
    (TryAddParameters length_hash
       [mkInsertion Scalar Roughness FGuid_default true;
        mkInsertion Scalar (mkInfo "Opacity"%string LayerParameter 0) (mkGuid 1 2 3 4) false]
       CachedParameters_Reset)
  = Some (Some ([mkInfo "Opacity"%string LayerParameter 0; Roughness],
                [mkGuid 1 2 3 4; FGuid_default]),
          Some ([Metallic; Roughness], [FGuid_default; FGuid_default])).
Proof. vm_compute. reflexivity. Qed.

Section Listing.

Variable GetHash : FName -> Z.

Lemma GetAllParameterInfoOfType_loop (Entry : FMaterialCachedParameterEntry)
    (acc1 : list FMaterialParameterInfo) (acc2 : list FGuid) :
  length (ExpressionGuids Entry) = length (ParameterInfos Entry) ->
  forall n, (n <= length (ParameterInfos Entry))%nat ->
    fold_left
      (fun Out i =>
         match Out, ParameterInfos Entry !! i, ExpressionGuids Entry !! i with
         | Some (OutParameterInfo, OutParameterIds), Some ParameterInfo, Some ExpressionGuid =>
             Some (OutParameterInfo ++ [ParameterInfo], OutParameterIds ++ [ExpressionGuid])
         | _, _, _ => None
         end)
      (seq 0 n) (Some (acc1, acc2))
    = Some (acc1 ++ take n (ParameterInfos Entry), acc2 ++ take n (ExpressionGuids Entry)).
Proof.
  intros Hlen. induction n as [| n IH]; intros Hn.
  - cbn. rewrite !app_nil_r. reflexivity.
  - rewrite seq_S, fold_left_app, IH by lia. cbn [fold_left Nat.add].
    destruct (lookup_lt_is_Some_2 (ParameterInfos Entry) n ltac:(lia)) as [p Hp].
    destruct (lookup_lt_is_Some_2 (ExpressionGuids Entry) n ltac:(lia)) as [g Hg].
    rewrite Hp, Hg, (take_S_r _ _ _ Hp), (take_S_r _ _ _ Hg), !app_assoc. reflexivity.
Qed.

Lemma GetAllGlobalParameterInfoOfType_loop (Entry : FMaterialCachedParameterEntry)
    (acc1 : list FMaterialParameterInfo) (acc2 : list FGuid) :
  length (ExpressionGuids Entry) = length (ParameterInfos Entry) ->
  forall n, (n <= length (ParameterInfos Entry))%nat ->
    exists infos ids,
      fold_left
        (fun Out i =>
           match Out, ParameterInfos Entry !! i with
           | Some (OutParameterInfo, OutParameterIds), Some ParameterInfo =>
               if decide (Association ParameterInfo = GlobalParameter) then
                 match ExpressionGuids Entry !! i with
                 | Some ExpressionGuid =>
                     Some (OutParameterInfo ++ [ParameterInfo],
                           OutParameterIds ++ [ExpressionGuid])
                 | None => None
                 end
               else Some (OutParameterInfo, OutParameterIds)
           | _, _ => None
           end)
        (seq 0 n) (Some (acc1, acc2))
      = Some (acc1 ++ infos, acc2 ++ ids)
      /\ length infos = length ids
      /\ forall q, In q infos <->
           Association q = GlobalParameter
           /\ exists i, (i < n)%nat /\ ParameterInfos Entry !! i = Some q.
Proof.
  intros Hlen. induction n as [| n IH]; intros Hn.
  - exists [], []. cbn. rewrite !app_nil_r. split; [reflexivity |]. split; [reflexivity |].
    intros q. split; [intros [] | intros (_ & i & Hi & _); lia].
  - destruct (IH ltac:(lia)) as (infos & ids & Hrun & Hsame & Hin).
    rewrite seq_S, fold_left_app, Hrun. cbn [fold_left Nat.add].
    destruct (lookup_lt_is_Some_2 (ParameterInfos Entry) n ltac:(lia)) as [p Hp].
    destruct (lookup_lt_is_Some_2 (ExpressionGuids Entry) n ltac:(lia)) as [g Hg].
    rewrite Hp, Hg.
    destruct (decide (Association p = GlobalParameter)) as [Hglobal | Hother].
    + exists (infos ++ [p]), (ids ++ [g]). rewrite !app_assoc.
      split; [reflexivity |]. split; [rewrite !length_app; cbn; lia |].
      intros q. rewrite in_app_iff, Hin. cbn [In]. split.
      * intros [(Hq & i & Hi & Hqi) | [<- | []]].
        -- split; [exact Hq |]. exists i. split; [lia | exact Hqi].
        -- split; [exact Hglobal |]. exists n. split; [lia | exact Hp].
      * intros (Hq & i & Hi & Hqi).
        destruct (decide (i = n)) as [-> | Hne].
        -- right. left. congruence.
        -- left. split; [exact Hq |]. exists i. split; [lia | exact Hqi].
    + exists infos, ids. split; [reflexivity |]. split; [exact Hsame |].
      intros q. rewrite Hin. split.
      * intros (Hq & i & Hi & Hqi). split; [exact Hq |]. exists i. split; [lia | exact Hqi].
      * intros (Hq & i & Hi & Hqi). split; [exact Hq |].
        destruct (decide (i = n)) as [-> | Hne]; [congruence |].
        exists i. split; [lia | exact Hqi].
Qed.

Lemma StrictlySorted_NoDup (Entry : FMaterialCachedParameterEntry) :
  StrictlySorted GetHash Entry -> NoDup (ParameterInfos Entry).
Proof.
  intros Hstrict. apply NoDup_alt. intros i j q Hi Hj.
  destruct (Nat.lt_trichotomy i j) as [Hlt | [He | Hgt]]; [| exact He |].
  - pose proof (Hstrict i j q q Hlt Hi Hj) as Hc. unfold key_lt in Hc. lia.
  - pose proof (Hstrict j i q q Hgt Hj Hi) as Hc. unfold key_lt in Hc. lia.
Qed.

(** X10.  After any sequence of insertions into empty tables,
    [GetAllParameterInfoOfType] lists, for a kind, exactly the parameters
    inserted for that kind, each with its expression identifier at the same
    position of the second array; when no two inserted names have the same
    hash, no parameter is listed twice.  Called without emptying the
    outputs it appends the same list to what they held.
    [GetAllGlobalParameterInfoOfType] lists those of them whose association
    is global. *)
Theorem GetAllParameterInfoOfType_lists_inserted (ops : list Insertion)
    (t : EMaterialParameterType) :
  exists CachedParameters infos ids,
    TryAddParameters GetHash ops CachedParameters_Reset = Some CachedParameters
    /\ GetAllParameterInfoOfType CachedParameters t true [] [] = Some (infos, ids)
    /\ infos = ParameterInfos (Entries CachedParameters t)
    /\ ids = ExpressionGuids (Entries CachedParameters t)
    /\ length infos = length ids
    /\ (forall q, In q infos <-> exists op, In op ops /\ InsType op = t /\ InsInfo op = q)
    /\ (NoCollision GetHash (map (fun op => Name (InsInfo op)) ops) -> NoDup infos)
    /\ (forall bEmptyOutput Out1 Out2,
          GetAllParameterInfoOfType CachedParameters t bEmptyOutput Out1 Out2
          = Some ((if bEmptyOutput then [] else Out1) ++ infos,
                  (if bEmptyOutput then [] else Out2) ++ ids))
    /\ exists globals globalids,
         GetAllGlobalParameterInfoOfType CachedParameters t true [] []
         = Some (globals, globalids)
         /\ length globals = length globalids
         /\ forall q, In q globals <-> In q infos /\ Association q = GlobalParameter.
Proof.
  destruct (TryAddParameters_invariant GetHash ops CachedParameters_Reset
              (CachedParameters_Reset_WellFormed GetHash))
    as (cp & Hrun & Hwf & Hstored).
  pose proof (Hwf t) as Hwft.
  pose proof (wf_infos _ _ Hwft) as Hinfos. pose proof (wf_guids _ _ Hwft) as Hguids.
  assert (Hlen : length (ExpressionGuids (Entries cp t)) = length (ParameterInfos (Entries cp t)))
    by lia.
  assert (Hall : forall b Out1 Out2,
            GetAllParameterInfoOfType cp t b Out1 Out2
            = Some ((if b then [] else Out1) ++ ParameterInfos (Entries cp t),
                    (if b then [] else Out2) ++ ExpressionGuids (Entries cp t))).
  { intros b Out1 Out2. unfold GetAllParameterInfoOfType. cbv zeta.
    rewrite <- Hinfos.
    rewrite (GetAllParameterInfoOfType_loop (Entries cp t) _ _ Hlen _ (Nat.le_refl _)).
    rewrite firstn_all. rewrite <- Hlen at 1. rewrite firstn_all. reflexivity. }
  exists cp, (ParameterInfos (Entries cp t)), (ExpressionGuids (Entries cp t)).
  split; [exact Hrun |].
  split; [exact (Hall true [] []) |].
  split; [reflexivity |]. split; [reflexivity |]. split; [lia |].
  split.
  { intros q. fold (stored_in cp t q). rewrite Hstored. split.
    - intros [Hreset | Hop]; [destruct Hreset | exact Hop].
    - intros Hop. right. exact Hop. }
  split.
  { intros Hnc. apply StrictlySorted_NoDup.
    apply (TryAddParameters_StrictlySorted GetHash _ ops Hnc) with (CachedParameters := CachedParameters_Reset).
    - intros op Hop. apply in_map_iff. exists op. split; [reflexivity | exact Hop].
    - apply CachedParameters_Reset_WellFormed.
    - intros t' i j p q _ Hp. cbn in Hp. discriminate Hp.
    - intros t' q Hq. destruct Hq.
    - exact Hrun. }
  split; [exact Hall |].
  destruct (GetAllGlobalParameterInfoOfType_loop (Entries cp t) [] [] Hlen _ (Nat.le_refl _))
    as (globals & globalids & Hg & Hglen & Hgin).
  exists globals, globalids.
  split.
  { unfold GetAllGlobalParameterInfoOfType. cbv zeta. rewrite <- Hinfos. exact Hg. }
  split; [exact Hglen |].
  intros q. rewrite Hgin. split.
  - intros (Hq & i & _ & Hi). split; [| exact Hq].
    apply In_lookup. exists i. exact Hi.
  - intros (Hin & Hq). split; [exact Hq |].
    apply In_lookup in Hin as [i Hi]. exists i. split; [| exact Hi].
    apply lookup_lt_Some in Hi. exact Hi.
Qed.

End Listing.

(** *** Overridden parameters *)

(** [FMaterialCachedParameters::IsParameterValid]: [Overrides[Index]] is
    read only when [bOveriddenOnly] is set; [None] when it is out of
    range. *)
Definition IsParameterValid (CachedParameters : FMaterialCachedParameters)
    (Type_ : EMaterialParameterType) (Index_ : nat) (bOveriddenOnly : bool) : option bool :=
  let Entry := Entries CachedParameters Type_ in
  if negb bOveriddenOnly then Some true else Overrides Entry !! Index_.

(** [FMaterialCachedParameters::IsDefaultParameterValid]. *)
Definition IsDefaultParameterValid (CachedParameters : FMaterialCachedParameters)
    (Type_ : EMaterialParameterType) (Index_ : nat)
    (bOveriddenOnly bCheckOwnedGlobalOverrides : bool) : option bool :=
  let Entry := Entries CachedParameters Type_ in
  match Overrides Entry !! Index_ with
  | None => None
  | Some bOveridden =>
      if negb bCheckOwnedGlobalOverrides && bOveridden then Some false
      else if bOveriddenOnly && negb bOveridden then Some false
      else Some true
  end.

(** [FMaterialCachedParameters::FindParameterIndex(Type, HashedParameterInfo,
    bOveriddenOnly)], the overload with three arguments. *)
Definition FindParameterIndex_OveriddenOnly (CachedParameters : FMaterialCachedParameters)
    (Type_ : EMaterialParameterType) (HashedParameterInfo : FHashedMaterialParameterInfo)
    (bOveriddenOnly : bool) : option Z :=
  let Index_ := FindParameterIndex CachedParameters Type_ HashedParameterInfo in
  if negb (Index_ =? INDEX_NONE) then
    match IsParameterValid CachedParameters Type_ (Z.to_nat Index_) bOveriddenOnly with
    | Some true => Some Index_
    | Some false => Some INDEX_NONE
    | None => None
    end
  else Some INDEX_NONE.

Section Latching.

Variable GetHash : FName -> Z.

(** X11.  The first insertion of a parameter decides whether it counts as
    an override.  On a well-formed table that does not hold the parameter,
    an insertion from an expression (no override) followed by any second
    insertion of the same parameter, as an override or not and with any
    identifier, leaves every table as the first insertion made it: one
    entry, with the first identifier and the override flag unset.  The
    parameter is then found by [FindParameterIndex], but not when only
    overridden parameters are asked for. *)
Theorem TryAddParameter_expression_then_any (CachedParameters : FMaterialCachedParameters)
    (t : EMaterialParameterType) (ParameterInfo : FMaterialParameterInfo)
    (ExpressionGuid SecondGuid : FGuid) (bSecondOverride : bool) :
  AllWellFormed GetHash CachedParameters ->
  ~ stored_in CachedParameters t ParameterInfo ->
  exists (i : nat) CachedParameters1 CachedParameters2,
    TryAddParameter GetHash CachedParameters t ParameterInfo ExpressionGuid false
    = Some (CachedParameters1, Z.of_nat i)
    /\ TryAddParameter GetHash CachedParameters1 t ParameterInfo SecondGuid bSecondOverride
       = Some (CachedParameters2, INDEX_NONE)
    /\ (forall t', Entries CachedParameters2 t' = Entries CachedParameters1 t')
    /\ ParameterInfos (Entries CachedParameters2 t) !! i = Some ParameterInfo
    /\ ExpressionGuids (Entries CachedParameters2 t) !! i = Some ExpressionGuid
    /\ Overrides (Entries CachedParameters2 t) !! i = Some false
    /\ FindParameterIndex CachedParameters2 t (Hashed GetHash ParameterInfo) = Z.of_nat i
    /\ FindParameterIndex_OveriddenOnly CachedParameters2 t (Hashed GetHash ParameterInfo) false
       = Some (Z.of_nat i)
    /\ FindParameterIndex_OveriddenOnly CachedParameters2 t (Hashed GetHash ParameterInfo) true
       = Some INDEX_NONE
    /\ IsDefaultParameterValid CachedParameters2 t i true true = Some false.
Proof.
  intros Hwf Hnew.
  set (Entry := Entries CachedParameters t).
  set (r := FindParameterLowerBoundIndex Entry (Hashed GetHash ParameterInfo)).
  destruct (FindParameterLowerBoundIndex_splits GetHash Entry (Hashed GetHash ParameterInfo) (Hwf t))
    as (Hr & _ & _). fold r in Hr.
  set (Entry1 := Inserted_at GetHash r Entry ParameterInfo ExpressionGuid false).
  assert (H1 : TryAddParameter_Entry GetHash Entry ParameterInfo ExpressionGuid false
               = Some (Entry1, Z.of_nat r)).
  { destruct (TryAddParameter_Entry_cases GetHash Entry ParameterInfo ExpressionGuid false (Hwf t))
      as [[_ Hadd] | (Hat & _)]; [exact Hadd |].
    exfalso. apply Hnew. apply In_lookup. eauto. }
  assert (Hwf1 : WellFormed GetHash Entry1) by (apply Inserted_at_WellFormed; apply Hwf).
  assert (Hr1 : FindParameterLowerBoundIndex Entry1 (Hashed GetHash ParameterInfo) = r)
    by (apply FindParameterLowerBoundIndex_Inserted; apply Hwf).
  pose proof (wf_infos _ _ (Hwf t)) as Hli. pose proof (wf_guids _ _ (Hwf t)) as Hlg.
  pose proof (wf_overrides _ _ (Hwf t)) as Hlo. fold Entry in Hli, Hlg, Hlo.
  assert (Hat1 : ParameterInfos Entry1 !! r = Some ParameterInfo)
    by (apply lookup_Insert_eq; exact Hr).
  assert (Hov1 : Overrides Entry1 !! r = Some false) by (apply lookup_Insert_eq; lia).
  assert (Hg1 : ExpressionGuids Entry1 !! r = Some ExpressionGuid)
    by (apply lookup_Insert_eq; lia).
  assert (Hh1 : NameHashes Entry1 !! r = Some (GetHash (Name ParameterInfo)))
    by (apply lookup_Insert_eq; lia).
  assert (H2 : TryAddParameter_Entry GetHash Entry1 ParameterInfo SecondGuid bSecondOverride
               = Some (Entry1, INDEX_NONE)).
  { destruct (TryAddParameter_Entry_cases GetHash Entry1 ParameterInfo SecondGuid bSecondOverride Hwf1)
      as [[Hnot _] | (_ & ov0 & g0 & Hov & Hg & Hkeep)].
    - rewrite Hr1 in Hnot. contradiction.
    - rewrite Hr1 in Hov, Hg, Hkeep.
      assert (ov0 = false) by congruence. subst ov0. cbn [andb] in Hkeep.
      rewrite Hkeep. destruct Entry1; reflexivity. }
  exists r, (set_Entry t Entry1 CachedParameters),
    (set_Entry t Entry1 (set_Entry t Entry1 CachedParameters)).
  assert (Hsame : Entries (set_Entry t Entry1 CachedParameters) t = Entry1).
  { rewrite Entries_set_Entry. destruct (decide (t = t)); [reflexivity | contradiction]. }
  assert (Hsame2 : Entries (set_Entry t Entry1 (set_Entry t Entry1 CachedParameters)) t = Entry1).
  { rewrite Entries_set_Entry. destruct (decide (t = t)); [reflexivity | contradiction]. }
  assert (Hfind : FindParameterIndex (set_Entry t Entry1 (set_Entry t Entry1 CachedParameters)) t
                    (Hashed GetHash ParameterInfo) = Z.of_nat r).
  { unfold FindParameterIndex. cbv zeta. rewrite Hsame2, Hr1, Hh1, Hat1.
    cbn [Hashed HashedName HashedAssociation HashedIndex].
    rewrite !Z.eqb_refl, bool_decide_eq_true_2 by reflexivity. reflexivity. }
  assert (Hnone : (Z.of_nat r =? INDEX_NONE) = false)
    by (apply Z.eqb_neq; unfold INDEX_NONE; lia).
  split.
  { unfold TryAddParameter. fold Entry. rewrite H1. reflexivity. }
  split.
  { unfold TryAddParameter. rewrite Hsame, H2. reflexivity. }
  split.
  { intros t'. rewrite !Entries_set_Entry. destruct (decide (t' = t)); reflexivity. }
  rewrite Hsame2.
  split; [exact Hat1 |]. split; [exact Hg1 |]. split; [exact Hov1 |].
  split; [exact Hfind |].
  split.
  { unfold FindParameterIndex_OveriddenOnly, IsParameterValid. cbv zeta.
    rewrite Hfind, Hnone. reflexivity. }
  split.
  { unfold FindParameterIndex_OveriddenOnly, IsParameterValid. cbv zeta.
    rewrite Hfind, Hnone, Hsame2, Nat2Z.id, Hov1. reflexivity. }
  unfold IsDefaultParameterValid. cbv zeta. rewrite Hsame2, Hov1. reflexivity.
Qed.

End Latching.

Lemma TryAddParameter_expression_then_any_witness :
  exists CachedParameters1 CachedParameters2,
    TryAddParameter length_hash CachedParameters_Reset Scalar Roughness (mkGuid 5 6 7 8) false
    = Some (CachedParameters1, 0)
    /\ TryAddParameter length_hash CachedParameters1 Scalar Roughness FGuid_default true
       = Some (CachedParameters2, INDEX_NONE)
    /\ Overrides (Entries CachedParameters2 Scalar) = [false]
    /\ FindParameterIndex_OveriddenOnly CachedParameters2 Scalar
         (Hashed length_hash Roughness) true = Some INDEX_NONE.
Proof.
  destruct (TryAddParameter_expression_then_any length_hash CachedParameters_Reset Scalar
              Roughness (mkGuid 5 6 7 8) FGuid_default true
              (CachedParameters_Reset_WellFormed length_hash))
    as (i & cp1 & cp2 & H1 & H2 & _ & _ & _ & _ & _ & _ & Hfind & _).
  { intros Hin. destruct Hin. }
  assert (Hi : i = 0%nat).
  { vm_compute in H1. injection H1 as _ Hi. destruct i; [reflexivity | discriminate Hi]. }
  subst i. exists cp1, cp2. split; [exact H1 |]. split; [exact H2 |].
  split; [| exact Hfind].
  vm_compute in H1. injection H1 as <-. vm_compute in H2. injection H2 as <-. reflexivity.
Defined.

(** *** Layer parameters of a parent instance *)

#[global] Instance FGuid_eq_dec : EqDecision FGuid.
Proof. solve_decision. Defined.

(** [FMaterialLayersFunctions], as far as [GetLocalLayerParameterInfo]
    reads it: the guid of each layer, and the guid of the parent's layer
    each layer comes from. *)
Record FMaterialLayersFunctions : Set := mkLayersFunctions {
  LayerGuids : list FGuid;
  ParentLayerGuids : list FGuid
}.

(** [TArray::Find]: the index of the first element equal to the item,
    [None] for [INDEX_NONE]. *)
Fixpoint Find (Item : FGuid) (l : list FGuid) : option nat :=
  match l with
  | [] => None
  | x :: rest => if decide (x = Item) then Some 0%nat else option_map S (Find Item rest)
  end.

(** What a call evaluates to: a result, or a failed [check] or array
    bound. *)
Inductive Checked (A : Type) : Type :=
| Returns (a : A)
| CheckFailed.
Arguments Returns {A} a.
Arguments CheckFailed {A}.

(** [GetLocalLayerParameterInfo]: [Returns (Some Info)] when it returns
    true with [OutLocalParameterInfo = Info], [Returns None] when it
    returns false. *)
Definition GetLocalLayerParameterInfo (MaterialLayers : FMaterialLayersFunctions)
    (ParameterInfo : FMaterialParameterInfo) (LocalMaterialLayers : FMaterialLayersFunctions)
    : Checked (option FMaterialParameterInfo) :=
  let SrcLayerIndex := Index ParameterInfo in
  match
    match Association ParameterInfo with
    | GlobalParameter => None
    | LayerParameter => Some SrcLayerIndex
    | BlendParameter => Some (SrcLayerIndex + 1)
    end
  with
  | None => Returns None
  | Some SrcLayerIndex =>
      if SrcLayerIndex <? 0 then CheckFailed
      else
        match LayerGuids MaterialLayers !! Z.to_nat SrcLayerIndex with
        | None => CheckFailed
        | Some LayerGuid =>
            match Find LayerGuid (ParentLayerGuids LocalMaterialLayers) with
            | Some LocalLayerIndex =>
                if decide (Association ParameterInfo = BlendParameter) then
                  if (0 <? LocalLayerIndex)%nat
                  then Returns (Some (mkInfo (Name ParameterInfo) (Association ParameterInfo)
                                             (Z.of_nat LocalLayerIndex - 1)))
                  else CheckFailed
                else Returns (Some (mkInfo (Name ParameterInfo) (Association ParameterInfo)
                                           (Z.of_nat LocalLayerIndex)))
            | None => Returns None
            end
        end
  end.

(** The layer an index of an association stands for: blends are offset by
    one. *)
Definition layer_of (a : EMaterialParameterAssociation) (i : Z) : Z :=
  match a with
  | BlendParameter => i + 1
  | _ => i
  end.

Lemma Find_Some (Item : FGuid) (l : list FGuid) (i : nat) :
  Find Item l = Some i <->
  l !! i = Some Item /\ forall j, (j < i)%nat -> l !! j <> Some Item.
Proof.
  revert i. induction l as [| x rest IH]; intros i; cbn [Find].
  - split; [discriminate | intros [H _]; discriminate H].
  - destruct (decide (x = Item)) as [-> | Hne].
    + split.
      * intros [= <-]. split; [reflexivity | intros j Hj; lia].
      * intros [Hi Hfirst]. destruct i as [| i]; [reflexivity |].
        exfalso. apply (Hfirst 0%nat); [lia | reflexivity].
    + destruct (Find Item rest) as [k |]; cbn [option_map].
      * split.
        -- intros [= <-]. destruct (proj1 (IH k) eq_refl) as [Hk Hfirst].
           split; [exact Hk |].
           intros [| j] Hj; cbn; [congruence | apply Hfirst; lia].
        -- intros [Hi Hfirst]. destruct i as [| i]; [cbn in Hi; congruence |].
           assert (Hc : Some k = Some i).
           { apply IH. split; [exact Hi |]. intros j Hj. apply (Hfirst (S j)). lia. }
           congruence.
      * split; [discriminate |]. intros [Hi Hfirst].
        destruct i as [| i]; [cbn in Hi; congruence |].
        assert (Hc : None = Some i).
        { apply IH. split; [exact Hi |]. intros j Hj. apply (Hfirst (S j)). lia. }
        discriminate Hc.
Qed.

Lemma Find_None (Item : FGuid) (l : list FGuid) : Find Item l = None <-> ~ In Item l.
Proof.
  induction l as [| x rest IH]; cbn [Find In]; [tauto |].
  destruct (decide (x = Item)) as [-> | Hne].
  - split; [discriminate | intros H; exfalso; apply H; left; reflexivity].
  - destruct (Find Item rest) as [k |]; cbn [option_map].
    + split; [discriminate |]. intros H. exfalso.
      destruct IH as [_ IH]. assert (Hc : ~ In Item rest) by tauto.
      specialize (IH Hc). discriminate IH.
    + split; [| reflexivity]. intros _ [Hc | Hc]; [contradiction |].
      destruct IH as [IH _]. exact (IH eq_refl Hc).
Qed.

Lemma Find_NoDup (Item : FGuid) (l : list FGuid) (i : nat) :
  NoDup l -> l !! i = Some Item -> Find Item l = Some i.
Proof.
  intros Hnd Hi. apply Find_Some. split; [exact Hi |].
  intros j Hj Hc. pose proof (proj1 (NoDup_alt l) Hnd i j Item Hi Hc). lia.
Qed.

(** X12.  The remapping of a layer parameter goes by the identity of the
    layer, not by its position.  A global parameter is not remapped.  When
    a layer or blend parameter is remapped, the result keeps the name and
    the association, and its index is that of the first local layer whose
    parent guid is the guid of the source layer (blend indices are offset
    by one on both sides).  When no local layer comes from the source
    layer, the parameter is dropped (the function returns false).  With a
    local stack whose parent guids are the source guids themselves, all
    different, a parameter of a layer in range is remapped to itself. *)
Theorem GetLocalLayerParameterInfo_by_identity
    (MaterialLayers LocalMaterialLayers : FMaterialLayersFunctions)
    (ParameterInfo : FMaterialParameterInfo) :
  let a := Association ParameterInfo in
  let Src := layer_of a (Index ParameterInfo) in
  (a = GlobalParameter ->
   GetLocalLayerParameterInfo MaterialLayers ParameterInfo LocalMaterialLayers = Returns None)
  /\ (forall Out,
        GetLocalLayerParameterInfo MaterialLayers ParameterInfo LocalMaterialLayers
        = Returns (Some Out) ->
        Name Out = Name ParameterInfo /\ Association Out = a /\ 0 <= Index Out
        /\ exists LayerGuid,
             0 <= Src
             /\ LayerGuids MaterialLayers !! Z.to_nat Src = Some LayerGuid
             /\ ParentLayerGuids LocalMaterialLayers !! Z.to_nat (layer_of a (Index Out))
                = Some LayerGuid
             /\ forall j, (j < Z.to_nat (layer_of a (Index Out)))%nat ->
                  ParentLayerGuids LocalMaterialLayers !! j <> Some LayerGuid)
  /\ (forall LayerGuid,
        a <> GlobalParameter -> 0 <= Src ->
        LayerGuids MaterialLayers !! Z.to_nat Src = Some LayerGuid ->
        ~ In LayerGuid (ParentLayerGuids LocalMaterialLayers) ->
        GetLocalLayerParameterInfo MaterialLayers ParameterInfo LocalMaterialLayers
        = Returns None)
  /\ (ParentLayerGuids LocalMaterialLayers = LayerGuids MaterialLayers ->
      NoDup (LayerGuids MaterialLayers) ->
      a <> GlobalParameter -> 0 <= Index ParameterInfo ->
      Src < Z.of_nat (length (LayerGuids MaterialLayers)) ->
      GetLocalLayerParameterInfo MaterialLayers ParameterInfo LocalMaterialLayers
      = Returns (Some ParameterInfo)).
Proof.
  destruct ParameterInfo as [n a i]. cbn [Association Index Name]. cbv zeta.
  unfold GetLocalLayerParameterInfo. cbn [Association Index Name].
  split; [intros ->; reflexivity |].
  split; [| split].
  - intros Out Hout.
    destruct a; cbn [layer_of] in *; try discriminate Hout;
      match type of Hout with
      | context [(?s <? 0)] =>
          destruct (Z.ltb_spec s 0) as [Hneg | Hpos]; [discriminate Hout |]
      end;
      match type of Hout with
      | context [LayerGuids MaterialLayers !! ?k] =>
          destruct (LayerGuids MaterialLayers !! k) as [g |] eqn:Hg; [| discriminate Hout]
      end;
      destruct (Find g (ParentLayerGuids LocalMaterialLayers)) as [l |] eqn:Hl;
      try discriminate Hout;
      apply Find_Some in Hl as [Hl Hfirst];
      destruct (decide _) as [Hd | Hd]; try discriminate Hd; try contradiction.
    + injection Hout as <-. cbn [Name Association Index].
      split; [reflexivity |]. split; [reflexivity |]. split; [lia |].
      exists g. rewrite Nat2Z.id. repeat split; assumption.
    + destruct (Nat.ltb_spec 0 l) as [Hl0 | Hl0]; [| discriminate Hout].
      injection Hout as <-. cbn [Name Association Index].
      split; [reflexivity |]. split; [reflexivity |]. split; [lia |].
      exists g. replace (Z.to_nat (Z.of_nat l - 1 + 1)) with l by lia.
      repeat split; assumption.
  - intros g Ha Hsrc Hg Hnot. apply Find_None in Hnot.
    destruct a; cbn [layer_of] in *; try contradiction;
      match goal with |- context [(?s <? 0)] => destruct (Z.ltb_spec s 0) as [Hneg | _]; [lia |] end; rewrite Hg, Hnot; reflexivity.
  - intros Hsame Hnd Ha Hi Hsrc.
    destruct a; cbn [layer_of] in *; try contradiction;
      match goal with |- context [(?s <? 0)] => destruct (Z.ltb_spec s 0) as [Hneg | _]; [lia |] end;
      match goal with
      | |- context [LayerGuids MaterialLayers !! ?k] =>
          destruct (lookup_lt_is_Some_2 (LayerGuids MaterialLayers) k ltac:(lia)) as [g Hg];
          rewrite Hg, Hsame, (Find_NoDup g _ k Hnd Hg)
      end;
      destruct (decide _) as [Hd | Hd]; try discriminate Hd; try contradiction.
    + rewrite Z2Nat.id by lia. reflexivity.
    + destruct (Nat.ltb_spec 0 (Z.to_nat (i + 1))) as [_ | Hc]; [| lia].
      replace (Z.of_nat (Z.to_nat (i + 1)) - 1) with i by lia. reflexivity.
Qed.

(** A parent with layers A, B, C and a child whose stack is C', A' (from C
    and A): a parameter of layer 2 goes to local layer 0, the blend 0
    (between A and B) is dropped, and the blend before layer 0 fails the
    assertion. *)
Example GetLocalLayerParameterInfo_reordered :
  let A := mkGuid 1 0 0 0 in
  let B := mkGuid 2 0 0 0 in
  let C := mkGuid 3 0 0 0 in
  let Parent := mkLayersFunctions [A; B; C] [] in
  let Child := mkLayersFunctions [mkGuid 7 0 0 0; mkGuid 8 0 0 0] [C; A] in
  GetLocalLayerParameterInfo Parent (mkInfo "Tint"%string LayerParameter 2) Child
  = Returns (Some (mkInfo "Tint"%string LayerParameter 0))
  /\ GetLocalLayerParameterInfo Parent (mkInfo "Tint"%string BlendParameter 0) Child
     = Returns None
  /\ GetLocalLayerParameterInfo Parent (mkInfo "Tint"%string BlendParameter 1) Child
     = CheckFailed
  /\ GetLocalLayerParameterInfo Parent (mkInfo "Tint"%string LayerParameter 3) Child
     = CheckFailed.
Proof. repeat split; reflexivity. Qed.

(** *** The values of the scalar parameters of a function instance *)

(** [TArray::Insert(Item, Index)] with its bound check: [None] when the
    index is past the end. *)
Definition Insert_checked {T : Type} (Item : T) (Index_ : nat) (l : list T) : option (list T) :=
  if (Index_ <=? length l)%nat then Some (Insert Item Index_ l) else None.

Section ScalarParameterValues.

Variable GetHash : FName -> Z.

(** The values are only stored: a [float] and an [FVector2D] are any
    types, and [FVector2D()] is some value of the latter.  Curves and
    atlases are objects known by their identity, null being [None]. *)
Variable float : Type.
Variable FVector2D : Type.
Variable FVector2D_default : FVector2D.

(** An [FScalarParameterValue] of a material function instance:
    [ParameterInfo.Name], [ParameterValue] and [AtlasData]. *)
Record FScalarParameterValue : Type := mkScalarParameterValue {
  ParameterName : FName;
  ParameterValue : float;
  bIsUsedAsAtlasPosition : bool;
  AtlasCurve : option nat;
  AtlasAtlas : option nat
}.

(** The value arrays of [FMaterialCachedParameters] for the scalar kind,
    parallel to the arrays of [Entries[Scalar]]. *)
Record FScalarValueArrays : Type := mkScalarValueArrays {
  ScalarValues : list float;
  ScalarMinMaxValues : list FVector2D;
  ScalarCurveValues : list (option nat);
  ScalarCurveAtlasValues : list (option nat)
}.

(** One pass of the loop of lines 120 to 139 of [UpdateForFunction]. *)
Definition AddScalarParameterValue (Association_ : EMaterialParameterAssociation)
    (ParameterIndex : Z) (Param : FScalarParameterValue)
    (Parameters : FMaterialCachedParameters) (Values : FScalarValueArrays)
    : option (FMaterialCachedParameters * FScalarValueArrays) :=
  let ParameterInfo := mkInfo (ParameterName Param) Association_ ParameterIndex in
  match TryAddParameter GetHash Parameters Scalar ParameterInfo FGuid_default true with
  | None => None
  | Some (Parameters, Index_) =>
      if negb (Index_ =? INDEX_NONE) then
        match Insert_checked (ParameterValue Param) (Z.to_nat Index_) (ScalarValues Values),
              Insert_checked FVector2D_default (Z.to_nat Index_) (ScalarMinMaxValues Values),
              Insert_checked
                (if bIsUsedAsAtlasPosition Param then AtlasCurve Param else None)
                (Z.to_nat Index_) (ScalarCurveValues Values),
              Insert_checked
                (if bIsUsedAsAtlasPosition Param then AtlasAtlas Param else None)
                (Z.to_nat Index_) (ScalarCurveAtlasValues Values)
        with
        | Some Values1, Some Values2, Some Values3, Some Values4 =>
            Some (Parameters, mkScalarValueArrays Values1 Values2 Values3 Values4)
        | _, _, _, _ => None
        end
      else Some (Parameters, Values)
  end.

(** The loop over [FunctionInstance->ScalarParameterValues]. *)
Fixpoint AddScalarParameterValues (Association_ : EMaterialParameterAssociation)
    (ParameterIndex : Z) (Params : list FScalarParameterValue)
    (Parameters : FMaterialCachedParameters) (Values : FScalarValueArrays)
    : option (FMaterialCachedParameters * FScalarValueArrays) :=
  match Params with
  | [] => Some (Parameters, Values)
  | Param :: rest =>
      match AddScalarParameterValue Association_ ParameterIndex Param Parameters Values with
      | Some (Parameters, Values) =>
          AddScalarParameterValues Association_ ParameterIndex rest Parameters Values
      | None => None
      end
  end.

(** The value arrays are as long as the table of the scalar kind. *)
Definition aligned (Parameters : FMaterialCachedParameters) (Values : FScalarValueArrays) : Prop :=
  let n := length (ParameterInfos (Entries Parameters Scalar)) in
  length (ScalarValues Values) = n
  /\ length (ScalarMinMaxValues Values) = n
  /\ length (ScalarCurveValues Values) = n
  /\ length (ScalarCurveAtlasValues Values) = n.

(** A parameter is stored with a value: at one index of the two arrays. *)
Definition has_value (Parameters : FMaterialCachedParameters) (Values : FScalarValueArrays)
    (q : FMaterialParameterInfo) (v : float) : Prop :=
  exists i, ParameterInfos (Entries Parameters Scalar) !! i = Some q
            /\ ScalarValues Values !! i = Some v.

Lemma Insert_checked_Some {T : Type} (x : T) (r : nat) (l : list T) :
  (r <= length l)%nat -> Insert_checked x r l = Some (Insert x r l).
Proof.
  intros Hr. unfold Insert_checked.
  destruct (Nat.leb_spec r (length l)); [reflexivity | lia].
Qed.

Lemma AddScalarParameterValue_step (a : EMaterialParameterAssociation) (idx : Z)
    (Param : FScalarParameterValue) (Parameters : FMaterialCachedParameters)
    (Values : FScalarValueArrays) :
  AllWellFormed GetHash Parameters -> aligned Parameters Values ->
  let p := mkInfo (ParameterName Param) a idx in
  let infos := ParameterInfos (Entries Parameters Scalar) in
  exists Parameters' Values',
    AddScalarParameterValue a idx Param Parameters Values = Some (Parameters', Values')
    /\ AllWellFormed GetHash Parameters'
    /\ aligned Parameters' Values'
    /\ (forall t q, stored_in Parameters' t q <-> (t = Scalar /\ q = p) \/ stored_in Parameters t q)
    /\ (exists Index_,
          TryAddParameter_Entry GetHash (Entries Parameters Scalar) p FGuid_default true
          = Some (Entries Parameters' Scalar, Index_))
    /\ ((ParameterInfos (Entries Parameters' Scalar) = infos
         /\ ScalarValues Values' = ScalarValues Values
         /\ infos !! FindParameterLowerBoundIndex (Entries Parameters Scalar) (Hashed GetHash p)
            = Some p)
        \/ (exists r,
              r = FindParameterLowerBoundIndex (Entries Parameters Scalar) (Hashed GetHash p)
              /\ (r <= length infos)%nat
              /\ infos !! r <> Some p
              /\ ParameterInfos (Entries Parameters' Scalar) = Insert p r infos
              /\ ScalarValues Values' = Insert (ParameterValue Param) r (ScalarValues Values))).
Proof.
  intros Hwf (Ha1 & Ha2 & Ha3 & Ha4) p infos.
  destruct (TryAddParameter_step GetHash Parameters Scalar p FGuid_default true Hwf)
    as (Entry' & Index_ & Hentry & Hrun & Hwf' & Hst).
  destruct (FindParameterLowerBoundIndex_splits GetHash (Entries Parameters Scalar)
              (Hashed GetHash p) (Hwf Scalar)) as (Hr & _ & _).
  assert (Hsame : Entries (set_Entry Scalar Entry' Parameters) Scalar = Entry').
  { rewrite Entries_set_Entry. destruct (decide (Scalar = Scalar)); [reflexivity | contradiction]. }
  unfold AddScalarParameterValue. cbv zeta. fold p. rewrite Hrun.
  destruct (TryAddParameter_Entry_cases GetHash (Entries Parameters Scalar) p FGuid_default true
              (Hwf Scalar)) as [[Hnot Hadd] | (Hat & ov0 & g0 & _ & _ & Hkeep)].
  - rewrite Hadd in Hentry. injection Hentry as <- <-.
    set (r := FindParameterLowerBoundIndex (Entries Parameters Scalar) (Hashed GetHash p)) in *.
    assert (Hne : (Z.of_nat r =? INDEX_NONE) = false)
      by (apply Z.eqb_neq; unfold INDEX_NONE; lia).
    rewrite Hne, Nat2Z.id. cbn [negb].
    fold infos in Hr, Ha1, Ha2, Ha3, Ha4.
    rewrite !Insert_checked_Some by lia.
    eexists. eexists. split; [reflexivity |].
    split; [exact Hwf' |].
    split.
    { unfold aligned. rewrite Hsame. unfold Inserted_at.
      cbn [ParameterInfos ScalarValues ScalarMinMaxValues ScalarCurveValues
           ScalarCurveAtlasValues].
      rewrite !length_Insert. fold infos. repeat split; lia. }
    split; [exact Hst |].
    split; [exists (Z.of_nat r); rewrite Hsame; exact Hadd |].
    right. exists r. split; [reflexivity |]. split; [exact Hr |]. split; [exact Hnot |].
    rewrite Hsame. split; reflexivity.
  - rewrite Hkeep in Hentry. injection Hentry as <- <-.
    change (INDEX_NONE =? INDEX_NONE) with true. cbn [negb].
    eexists. eexists. split; [reflexivity |].
    split; [exact Hwf' |].
    split.
    { unfold aligned. rewrite Hsame. cbn [ParameterInfos]. fold infos.
      repeat split; assumption. }
    split; [exact Hst |].
    split; [exists INDEX_NONE; rewrite Hsame; exact Hkeep |].
    left. rewrite Hsame. cbn [ParameterInfos]. split; [reflexivity |].
    split; [reflexivity | exact Hat].
Qed.

(** The parameter a value of the list is added as, and the first value of
    the list with a given name. *)
Definition info_of (a : EMaterialParameterAssociation) (idx : Z) (Param : FScalarParameterValue)
    : FMaterialParameterInfo :=
  mkInfo (ParameterName Param) a idx.

Definition first_named (name : FName) (Params : list FScalarParameterValue)
    : option FScalarParameterValue :=
  List.find (fun Param => String.eqb (ParameterName Param) name) Params.

Lemma has_value_Insert (Parameters Parameters' : FMaterialCachedParameters)
    (Values Values' : FScalarValueArrays) (p : FMaterialParameterInfo) (x : float) (r : nat) :
  length (ScalarValues Values) = length (ParameterInfos (Entries Parameters Scalar)) ->
  (r <= length (ParameterInfos (Entries Parameters Scalar)))%nat ->
  ParameterInfos (Entries Parameters' Scalar)
  = Insert p r (ParameterInfos (Entries Parameters Scalar)) ->
  ScalarValues Values' = Insert x r (ScalarValues Values) ->
  forall q v, has_value Parameters' Values' q v <->
              has_value Parameters Values q v \/ (q = p /\ v = x).
Proof.
  intros Hlen Hr Hinfos Hvals q v. unfold has_value. rewrite Hinfos, Hvals. split.
  - intros (i & Hi & Hv).
    apply lookup_Insert_cases in Hi; [| exact Hr].
    destruct Hi as [[Hlt Hi] | [[-> ->] | [Hgt Hi]]].
    + left. exists i. split; [exact Hi |].
      rewrite lookup_Insert_lt in Hv by lia. exact Hv.
    + right. split; [reflexivity |].
      rewrite lookup_Insert_eq in Hv by lia. congruence.
    + left. exists (i - 1)%nat. split; [exact Hi |].
      rewrite lookup_Insert_gt in Hv by lia. exact Hv.
  - intros [(i & Hi & Hv) | [-> ->]].
    + destruct (le_lt_dec r i) as [Hge | Hlt].
      * exists (S i). rewrite !lookup_Insert_gt by lia.
        replace (S i - 1)%nat with i by lia. split; assumption.
      * exists i. rewrite !lookup_Insert_lt by lia. split; assumption.
    + exists r. rewrite !lookup_Insert_eq by lia. split; reflexivity.
Qed.

(** The loop never fails on aligned, well-formed tables, keeps them so, and
    keeps the value of every stored parameter. *)
Lemma AddScalarParameterValues_aligned (a : EMaterialParameterAssociation) (idx : Z)
    (Params : list FScalarParameterValue) :
  forall (Parameters : FMaterialCachedParameters) (Values : FScalarValueArrays),
    AllWellFormed GetHash Parameters -> aligned Parameters Values ->
    exists Parameters' Values',
      AddScalarParameterValues a idx Params Parameters Values = Some (Parameters', Values')
      /\ AllWellFormed GetHash Parameters'
      /\ aligned Parameters' Values'
      /\ (forall q v, has_value Parameters Values q v -> has_value Parameters' Values' q v).
Proof.
  induction Params as [| Param rest IH]; intros Parameters Values Hwf Hal.
  - exists Parameters, Values. split; [reflexivity |]. split; [exact Hwf |].
    split; [exact Hal | auto].
  - destruct (AddScalarParameterValue_step a idx Param Parameters Values Hwf Hal)
      as (P1 & V1 & Hstep & Hwf1 & Hal1 & _ & _ & Hcase).
    destruct (IH P1 V1 Hwf1 Hal1) as (P2 & V2 & Hrun & Hwf2 & Hal2 & Hkeep).
    exists P2, V2. cbn [AddScalarParameterValues]. rewrite Hstep.
    split; [exact Hrun |]. split; [exact Hwf2 |]. split; [exact Hal2 |].
    intros q v Hq. apply Hkeep.
    destruct Hcase as [(Hi & Hv & _) | (r & _ & Hr & _ & Hi & Hv)].
    + unfold has_value in *. rewrite Hi, Hv. exact Hq.
    + apply (has_value_Insert Parameters P1 Values V1 _ _ r (proj1 Hal) Hr Hi Hv). left. exact Hq.
Qed.

Lemma AddScalarParameterValues_latching (names : list FName)
    (a : EMaterialParameterAssociation) (idx : Z) (Params : list FScalarParameterValue) :
  NoCollision GetHash names ->
  (forall Param, In Param Params -> In (ParameterName Param) names) ->
  forall (Parameters Parameters' : FMaterialCachedParameters)
         (Values Values' : FScalarValueArrays),
    AllWellFormed GetHash Parameters -> aligned Parameters Values ->
    StrictlySorted GetHash (Entries Parameters Scalar) ->
    (forall q, stored_in Parameters Scalar q -> In (Name q) names) ->
    AddScalarParameterValues a idx Params Parameters Values = Some (Parameters', Values') ->
    StrictlySorted GetHash (Entries Parameters' Scalar)
    /\ forall q v, has_value Parameters' Values' q v <->
         has_value Parameters Values q v
         \/ (~ stored_in Parameters Scalar q
             /\ exists First, first_named (Name q) Params = Some First
                              /\ q = info_of a idx First /\ v = ParameterValue First).
Proof.
  intros Hnc. induction Params as [| Param rest IH];
    intros Hnames Parameters Parameters' Values Values' Hwf Hal Hstrict Hstored Hrun.
  - cbn in Hrun. injection Hrun as <- <-. split; [exact Hstrict |].
    intros q v. split; [auto |]. intros [H | (_ & First & Hc & _)]; [exact H | discriminate Hc].
  - destruct (AddScalarParameterValue_step a idx Param Parameters Values Hwf Hal)
      as (P1 & V1 & Hstep & Hwf1 & Hal1 & Hst1 & (Index_ & Hentry) & Hcase).
    cbn [AddScalarParameterValues] in Hrun. rewrite Hstep in Hrun.
    set (p := mkInfo (ParameterName Param) a idx) in *.
    assert (Hpname : In (Name p) names) by (apply Hnames; left; reflexivity).
    assert (Hstrict1 : StrictlySorted GetHash (Entries P1 Scalar)).
    { apply (TryAddParameter_Entry_StrictlySorted GetHash names (Entries Parameters Scalar)
               (Entries P1 Scalar) p FGuid_default true Index_ (Hwf Scalar) Hstrict Hnc Hpname);
        [| exact Hentry].
      intros q Hq. apply Hstored. exact Hq. }
    assert (Hstored1 : forall q, stored_in P1 Scalar q -> In (Name q) names).
    { intros q Hq. apply Hst1 in Hq as [[_ ->] | Hq]; [exact Hpname | apply Hstored; exact Hq]. }
    destruct (IH (fun P HP => Hnames P (or_intror HP)) P1 Parameters' V1 Values'
                Hwf1 Hal1 Hstrict1 Hstored1 Hrun) as [Hfinal Hiff].
    split; [exact Hfinal |].
    assert (H1 : forall q v, has_value P1 V1 q v <->
                   has_value Parameters Values q v
                   \/ (~ stored_in Parameters Scalar p /\ q = p /\ v = ParameterValue Param)).
    { intros q v.
      destruct Hcase as [(Hi & Hv & Hat) | (r & Hreq & Hr & Hnot & Hi & Hv)].
      - assert (Hp : stored_in Parameters Scalar p) by (apply In_lookup; eauto).
        unfold has_value. rewrite Hi, Hv. split; [auto |].
        intros [H | (Hc & _)]; [exact H | contradiction].
      - assert (Hp : ~ stored_in Parameters Scalar p).
        { intros Hin. apply In_lookup in Hin as [i Hi'].
          pose proof (FindParameterLowerBoundIndex_stored GetHash _ p i (Hwf Scalar) Hstrict Hi')
            as Hri.
          rewrite <- Hreq in Hri. subst i. contradiction. }
        rewrite (has_value_Insert Parameters P1 Values V1 _ _ r (proj1 Hal) Hr Hi Hv).
        split; [intros [H | H]; [left; exact H | right; split; [exact Hp | exact H]] |].
        intros [H | (_ & H)]; [left; exact H | right; exact H]. }
    assert (Hst : forall q, stored_in P1 Scalar q <-> q = p \/ stored_in Parameters Scalar q).
    { intros q. rewrite Hst1. split; [intros [[_ H] | H]; auto | intros [H | H]; auto]. }
    intros q v. rewrite Hiff, H1, Hst. unfold first_named. cbn [find].
    fold (first_named (Name q) rest).
    destruct (String.eqb_spec (ParameterName Param) (Name q)) as [Hname | Hname].
    + split.
      * intros [[H | (Hnp & -> & ->)] | (Hnot & First & Hf & -> & ->)].
        -- left. exact H.
        -- right. split; [exact Hnp |]. exists Param. repeat split.
        -- exfalso. apply Hnot. left. cbn [info_of Name] in Hname.
           unfold p, info_of. rewrite Hname. reflexivity.
      * intros [H | (Hnot & First & [= <-] & -> & ->)]; [left; left; exact H |].
        left. right. split; [exact Hnot |]. split; reflexivity.
    + split.
      * intros [[H | (Hnp & -> & ->)] | (Hnot & First & Hf & Hq & Hv)].
        -- left. exact H.
        -- exfalso. apply Hname. reflexivity.
        -- right. split; [tauto |]. exists First. repeat split; assumption.
      * intros [H | (Hnot & First & Hf & Hq & Hv)]; [left; left; exact H |].
        right. split.
        -- intros [Hc | Hc]; [| contradiction]. apply Hname. rewrite Hc. reflexivity.
        -- exists First. repeat split; assumption.
Qed.

(** X15.  The values of the scalar parameters of a function instance
    follow their parameters and are latched at the first occurrence.  On
    well-formed tables with value arrays as long as the scalar table, the
    loop over the scalar values of a function instance never fails, keeps
    the tables well formed and the arrays aligned, and keeps the value
    stored with every parameter that was there.  When moreover the scalar
    table holds no parameter twice and no two names involved have the same
    hash, afterwards it still holds none twice, and a parameter has a value
    exactly when it had that value before, or was not stored before and the
    value is that of the first element of the list with its name: later
    elements with the same name are ignored. *)
Theorem AddScalarParameterValues_latches_first (a : EMaterialParameterAssociation) (idx : Z)
    (Params : list FScalarParameterValue) (Parameters : FMaterialCachedParameters)
    (Values : FScalarValueArrays) :
  AllWellFormed GetHash Parameters -> aligned Parameters Values ->
  exists Parameters' Values',
    AddScalarParameterValues a idx Params Parameters Values = Some (Parameters', Values')
    /\ AllWellFormed GetHash Parameters'
    /\ aligned Parameters' Values'
    /\ (forall q v, has_value Parameters Values q v -> has_value Parameters' Values' q v)
    /\ (forall names,
          NoCollision GetHash names ->
          (forall Param, In Param Params -> In (ParameterName Param) names) ->
          (forall q, stored_in Parameters Scalar q -> In (Name q) names) ->
          StrictlySorted GetHash (Entries Parameters Scalar) ->
          NoDup (ParameterInfos (Entries Parameters' Scalar))
          /\ forall q v, has_value Parameters' Values' q v <->
               has_value Parameters Values q v
               \/ (~ stored_in Parameters Scalar q
                   /\ exists First, first_named (Name q) Params = Some First
                                    /\ q = info_of a idx First /\ v = ParameterValue First)).
Proof.
  intros Hwf Hal.
  destruct (AddScalarParameterValues_aligned a idx Params Parameters Values Hwf Hal)
    as (P' & V' & Hrun & Hwf' & Hal' & Hkeep).
  exists P', V'. split; [exact Hrun |]. split; [exact Hwf' |]. split; [exact Hal' |].
  split; [exact Hkeep |].
  intros names Hnc Hnames Hstored Hstrict.
  destruct (AddScalarParameterValues_latching names a idx Params Hnc Hnames
              Parameters P' Values V' Hwf Hal Hstrict Hstored Hrun) as [Hstrict' Hiff].
  split; [| exact Hiff].
  apply NoDup_alt. intros i j q Hi Hj.
  destruct (Nat.lt_trichotomy i j) as [Hlt | [He | Hgt]]; [| exact He |].
  - pose proof (Hstrict' i j q q Hlt Hi Hj) as Hc. unfold key_lt in Hc. lia.
  - pose proof (Hstrict' j i q q Hgt Hj Hi) as Hc. unfold key_lt in Hc. lia.
Qed.

End ScalarParameterValues.

Lemma AddScalarParameterValues_latches_first_witness :
  exists Parameters' Values',
    AddScalarParameterValues length_hash Z unit tt GlobalParameter (-1)
      [mkScalarParameterValue Z "Roughness"%string 5 false None None;
       mkScalarParameterValue Z "Opacity"%string 7 true (Some 1%nat) (Some 2%nat);
       mkScalarParameterValue Z "Roughness"%string 9 false None None]
      CachedParameters_Reset (mkScalarValueArrays Z unit [] [] [] [])
    = Some (Parameters', Values')
    /\ ParameterInfos (Entries Parameters' Scalar) = [Opacity; Roughness]
    /\ ScalarValues Z unit Values' = [7; 5]
    /\ ScalarCurveValues Z unit Values' = [Some 1%nat; None].
Proof.
  destruct (AddScalarParameterValues_latches_first length_hash Z unit tt GlobalParameter (-1)
              [mkScalarParameterValue Z "Roughness"%string 5 false None None;
               mkScalarParameterValue Z "Opacity"%string 7 true (Some 1%nat) (Some 2%nat);
               mkScalarParameterValue Z "Roughness"%string 9 false None None]
              CachedParameters_Reset (mkScalarValueArrays Z unit [] [] [] [])
              (CachedParameters_Reset_WellFormed length_hash))
    as (P' & V' & Hrun & _).
  - repeat split.
  - exists P', V'. split; [exact Hrun |].
    vm_compute in Hrun. injection Hrun as <- <-. repeat split.
Defined.

End MaterialCachedData.

(* ===================================================================== *)
(** ** Floating-point numbers                                             *)
(* ===================================================================== *)
From Stdlib Require Import QArith Qround Qabs Qpower Lqa.
From Stdlib Require Import Floats.SpecFloat.

Module FloatingPoint.
Local Open Scope Q_scope.

(** The values of [float] and [double]: the binary floating-point numbers
    of IEEE 754, in the formats binary32 and binary64.  A value is a finite
    number, an infinity or a NaN.  The two zeros are one value: they
    compare equal, and they differ only in the sign of the infinity that a
    division by them gives (see [FPdiv]). *)
Inductive FP : Set :=
| Finite (q : Q)
| Infinity (negative : bool)
| NaN.

(** A format: the number of bits of a significand, the exponent of the
    smallest positive number, and the exponent of the first power of two
    that is too large. *)
Record Format : Set := mkFormat { prec : Z; emin : Z; emax : Z }.

Definition binary32 : Format := mkFormat 24 (-149) 128.
Definition binary64 : Format := mkFormat 53 (-1074) 1024.

(** The binade of a positive rational: the [k] with [2^k <= x < 2^(k+1)]
    ([Qbinade_spec]). *)
Definition Qbinade (x : Q) : Z :=
  let k := (Z.log2 (Qnum x) - Z.log2 (Zpos (Qden x)))%Z in
  if Qle_bool (2 ^ k) x then k else (k - 1)%Z.

(** The nearest integer, a tie going to the even one. *)
Definition round_half_even (x : Q) : Z :=
  let f := Qfloor x in
  match Qcompare (x - inject_Z f) (1 # 2) with
  | Lt => f
  | Gt => (f + 1)%Z
  | Eq => if Z.even f then f else (f + 1)%Z
  end.

(** The numbers of a format near [x] are the multiples of [2^e], where [e]
    leaves [prec] bits to a number of the binade of [x] and is at least
    [emin] (below that the numbers are subnormal). *)
Definition ulp_exponent (f : Format) (x : Q) : Z :=
  Z.max (Qbinade (Qabs x) - prec f + 1) (emin f).

(** Rounding to nearest, ties to even: the nearest multiple of that
    [2^e]. *)
Definition round_value (f : Format) (x : Q) : Q :=
  if Qeq_bool x 0 then 0
  else
    let e := ulp_exponent f x in
    Qred (inject_Z (round_half_even (x / 2 ^ e)) * 2 ^ e).

Definition is_negative (x : Q) : bool := negb (Qle_bool 0 x).

(** The value of the format that an exact result [x] is rounded to: an
    infinity when the rounded number is [2^emax] or beyond. *)
Definition round (f : Format) (x : Q) : FP :=
  let y := round_value f x in
  if Qle_bool (2 ^ emax f) (Qabs y) then Infinity (is_negative x) else Finite y.

(** *** Arithmetic

    The operations round the exact result to the format of the result.  A
    divisor that is zero counts as the positive zero: in the code modelled
    below a zero divisor is a converted integer, which is the positive
    zero, or else the quotient goes to a conversion to [int32] that gives
    the same result for both infinities. *)

Definition FPdiv (f : Format) (x y : FP) : FP :=
  match x, y with
  | NaN, _ | _, NaN => NaN
  | Infinity _, Infinity _ => NaN
  | Infinity s, Finite b => Infinity (xorb s (is_negative b))
  | Finite _, Infinity _ => Finite 0
  | Finite a, Finite b =>
      if Qeq_bool b 0
      then (if Qeq_bool a 0 then NaN else Infinity (is_negative a))
      else round f (a / b)
  end.

Definition FPmul (f : Format) (x y : FP) : FP :=
  match x, y with
  | NaN, _ | _, NaN => NaN
  | Infinity s, Infinity t => Infinity (xorb s t)
  | Infinity s, Finite b | Finite b, Infinity s =>
      if Qeq_bool b 0 then NaN else Infinity (xorb s (is_negative b))
  | Finite a, Finite b => round f (a * b)
  end.

Definition FPadd (f : Format) (x y : FP) : FP :=
  match x, y with
  | NaN, _ | _, NaN => NaN
  | Infinity s, Infinity t => if Bool.eqb s t then Infinity s else NaN
  | Infinity s, Finite _ | Finite _, Infinity s => Infinity s
  | Finite a, Finite b => round f (a + b)
  end.

(** The conversion of a value to the format [f] ([double] to [float]; the
    conversion of a [float] to [double] changes nothing). *)
Definition FPconv (f : Format) (x : FP) : FP :=
  match x with
  | Finite a => round f a
  | _ => x
  end.

(** [x >= y] and [x != 0]; a comparison with a NaN is false, and a NaN is
    different from everything. *)
Definition FPge (x y : FP) : bool :=
  match x, y with
  | NaN, _ | _, NaN => false
  | Finite a, Finite b => Qle_bool b a
  | Infinity s, Finite _ => negb s
  | Finite _, Infinity t => t
  | Infinity s, Infinity t => negb s || t
  end.

Definition FPne0 (x : FP) : bool :=
  match x with
  | Finite a => negb (Qeq_bool a 0)
  | _ => true
  end.

(** [ceilf] and [floorf]. *)
Definition FPceil (x : FP) : FP :=
  match x with
  | Finite a => Finite (inject_Z (Qceiling a))
  | _ => x
  end.

Definition FPfloor (x : FP) : FP :=
  match x with
  | Finite a => Finite (inject_Z (Qfloor a))
  | _ => x
  end.

(** The values of the floating-point specification of the Standard
    Library ([SpecFloat], with the precision and the exponent bound of the
    two formats), read as values of [FP]. *)
Definition FP_of_spec_float (x : spec_float) : FP :=
  match x with
  | S754_zero _ => Finite 0
  | S754_infinity s => Infinity s
  | S754_nan => NaN
  | S754_finite s m e =>
      Finite (Qred ((if s then - inject_Z (Z.pos m) else inject_Z (Z.pos m)) * 2 ^ e))
  end.

Definition spec_float_of_Z (f : Format) (n : Z) : spec_float :=
  binary_normalize (prec f) (emax f) n 0 false.

(** *** Examples

    One tenth is no binary fraction; a [float] keeps 24 bits of it and a
    [double] 53.  The largest [int32] is no [float] and rounds up to
    [2^31].  Halfway between two neighbours the even one is taken, and
    above the largest finite value the result is an infinity. *)
Example round_one_tenth :
  round binary32 (1 # 10) = Finite (13421773 # 134217728)
  /\ round binary64 (1 # 10) = Finite (3602879701896397 # 36028797018963968).
Proof. split; vm_compute; reflexivity. Qed.

Example round_int32_max : round binary32 (2147483647 # 1) = Finite (2147483648 # 1).
Proof. vm_compute. reflexivity. Qed.

Example round_ties_to_even :
  round binary32 (16777217 # 1) = Finite (16777216 # 1)
  /\ round binary32 (16777219 # 1) = Finite (16777220 # 1)
  /\ round binary32 (1 / inject_Z (2 ^ 150)) = Finite 0
  /\ round binary32 (inject_Z (2 ^ 128 - 2 ^ 103 - 1))
     = Finite (inject_Z (2 ^ 128 - 2 ^ 104))
  /\ round binary32 (inject_Z (2 ^ 128 - 2 ^ 103)) = Infinity false
  /\ round binary32 (- inject_Z (2 ^ 128)) = Infinity true.
Proof. repeat split; vm_compute; reflexivity. Qed.

(** The operations above give the results of that specification, here at
    the values that the examples of the grid spacing go through. *)
Example operations_agree_with_SpecFloat :
  let five := spec_float_of_Z binary32 5 in
  let pps := binary_normalize 24 128 13981013 (-23) false in
  FP_of_spec_float pps = Finite (13981013 # 8388608)
  /\ FP_of_spec_float (SFdiv 24 128 five pps)
     = FPdiv binary32 (Finite 5) (Finite (13981013 # 8388608))
  /\ FP_of_spec_float (SFdiv 24 128 (spec_float_of_Z binary32 1) (spec_float_of_Z binary32 10))
     = FPdiv binary32 (Finite 1) (Finite 10)
  /\ FP_of_spec_float (SFdiv 53 1024 (spec_float_of_Z binary64 1) (spec_float_of_Z binary64 49))
     = FPdiv binary64 (Finite 1) (Finite 49)
  /\ FP_of_spec_float
       (SFmul 53 1024
          (SFdiv 53 1024 (spec_float_of_Z binary64 1) (spec_float_of_Z binary64 49))
          (spec_float_of_Z binary64 49))
     = FPmul binary64 (FPdiv binary64 (Finite 1) (Finite 49)) (Finite 49)
  /\ FP_of_spec_float (spec_float_of_Z binary32 2147483647)
     = round binary32 (inject_Z 2147483647)
  /\ FP_of_spec_float (SFadd 24 128 (spec_float_of_Z binary32 16777216)
                         (SFdiv 24 128 (spec_float_of_Z binary32 1) (spec_float_of_Z binary32 2)))
     = FPadd binary32 (Finite (16777216 # 1)) (Finite (1 # 2))
  /\ FP_of_spec_float (SFdiv 24 128 (spec_float_of_Z binary32 1) (S754_zero false))
     = FPdiv binary32 (Finite 1) (Finite 0)
  /\ FP_of_spec_float (SFdiv 24 128 (S754_zero false) (S754_zero false))
     = FPdiv binary32 (Finite 0) (Finite 0).
Proof. cbv zeta. repeat split; vm_compute; reflexivity. Qed.

(** *** Powers of two *)



Lemma pow2_lt (n m : Z) : (n < m)%Z -> 2 ^ n < 2 ^ m.
Proof. intros H. apply Qpower_lt_compat_l; [exact H | reflexivity]. Qed.




(** *** The binade *)



(** *** Rounding to an integer *)







(** *** Rounding to the format *)


Lemma round_value_0 (f : Format) : round_value f 0 = 0.
Proof. reflexivity. Qed.











End FloatingPoint.

(* ===================================================================== *)
(** ** Editor/Persona/Private/AnimTimeline/SAnimTimeline.cpp              *)
(* ===================================================================== *)
Module AnimTimeline.
Import Int32 FloatingPoint.
Local Open Scope Z_scope.

(** [ComputeGridSpacing] computes with [int32], [float] and [double].
    The model keeps the three apart: an [int32] is a [Z] in its range, with
    the wrap-around of the product of line 696 and the truncating division
    of the language; [float] is binary32 and [double] is binary64, every
    operation rounding its exact result to the format of its result, as the
    usual arithmetic conversions of the language give it. *)
Definition float : Set := FP.
Definition double : Set := FP.

(** An [int32] as a [double]: every [int32] is a [double]. *)
Definition double_of_int32 (n : Z) : double := Finite (inject_Z n).

(** An [int32] as a [float]: rounded, since a [float] has 24 bits. *)
Definition float_of_int32 (n : Z) : float := round binary32 (inject_Z n).

(** The conversion of a [float] to [int32], [(int32)F]: the value without
    its fraction.  The conversion of a value outside [int32] (or of a NaN)
    is undefined in the source language; the model gives it the result of
    the conversion instruction of x86-64, [INT32_MIN]. *)
Definition int32_of_float (F : float) : Z :=
  match F with
  | Finite q =>
      let t := if Qle_bool 0 q then Qfloor q else Qceiling q in
      if (INT32_MIN <=? t) && (t <=? INT32_MAX) then t else INT32_MIN
  | _ => INT32_MIN
  end.

(** Whether the conversion of [F] to [int32] is defined. *)
Definition in_int32 (F : float) : bool :=
  match F with
  | Finite q =>
      let t := if Qle_bool 0 q then Qfloor q else Qceiling q in
      (INT32_MIN <=? t) && (t <=? INT32_MAX)
  | _ => false
  end.

Record FFrameRate : Set := mkFrameRate { Numerator : Z; Denominator : Z }.

(** Modelled from the spec: [FFrameRate::AsDecimal] and [AsInterval] are
    not among the sources; they are the frame rate as frames per second,
    [double(Numerator) / double(Denominator)], and the length of one frame
    in seconds, [double(Denominator) / double(Numerator)]. *)
Definition AsDecimal (r : FFrameRate) : double :=
  FPdiv binary64 (double_of_int32 (Numerator r)) (double_of_int32 (Denominator r)).
Definition AsInterval (r : FFrameRate) : double :=
  FPdiv binary64 (double_of_int32 (Denominator r)) (double_of_int32 (Numerator r)).

(** Modelled from the spec: the functions of [FMath] are not among the
    sources; the specification has them as the rounding of the frame rate
    and the ceiling of the scale.  They are taken as the generic functions
    of the engine, which take a [float]: [TruncToInt(F)] is [(int32)F],
    [FloorToInt(F)] is [TruncToInt(floorf(F))], [CeilToInt(F)] is
    [TruncToInt(ceilf(F))] and [RoundToInt(F)] is [FloorToInt(F + 0.5f)].
    A [double] argument is converted to [float] at the call. *)
Definition TruncToInt (F : float) : Z := int32_of_float F.
Definition FloorToInt (F : float) : Z := TruncToInt (FPfloor F).
Definition CeilToInt (F : float) : Z := TruncToInt (FPceil F).
Definition RoundToInt (F : float) : Z := FloorToInt (FPadd binary32 F (Finite (1 # 2))).

(** Line 649. *)
Definition RoundedFPSOf (InFrameRate : FFrameRate) : Z :=
  RoundToInt (FPconv binary32 (AsDecimal InFrameRate)).

(** The inner loop of lines 668 to 676, over [Denominators = { 2, 3, 5 }]. *)
Definition LowestResultOf (LowestBase : Z) : Z :=
  fold_left
    (fun LowestResult Denominator =>
       let Result := Z.quot LowestBase Denominator in
       if (0 <? Result) && (Result <? LowestResult) then Result else LowestResult)
    [2; 3; 5] LowestBase.

(** One pass through the body of [for (;;)] after [CommonBases.Add]: the
    next [LowestBase], or [None] at the [break]. *)
Definition NextBase (LowestBase : Z) : option Z :=
  if Z.rem LowestBase 2 =? 0 then Some (Z.quot LowestBase 2)
  else if Z.rem LowestBase 3 =? 0 then Some (Z.quot LowestBase 3)
  else if Z.rem LowestBase 5 =? 0 then Some (Z.quot LowestBase 5)
  else
    let LowestResult := LowestResultOf LowestBase in
    if LowestResult <? LowestBase then Some LowestResult else None.

(** The loop [for (;;)] of lines 659 to 687, run for at most [rounds]
    passes: [Some] list when it reached the [break] within them, [None]
    when it did not. *)
Fixpoint CommonBasesLoop (rounds : nat) (LowestBase : Z) (CommonBases : list Z)
    : option (list Z) :=
  match rounds with
  | O => None
  | S rounds' =>
      let CommonBases := CommonBases ++ [LowestBase] in
      match NextBase LowestBase with
      | Some LowestBase' => CommonBasesLoop rounds' LowestBase' CommonBases
      | None => Some CommonBases
      end
  end.

(** Passes that suffice whenever the loop exits at all (see
    [CommonBasesLoop_exits] and [CommonBasesLoop_zero_never_exits]). *)
Definition enough_rounds (RoundedFPS : Z) : nat := S (Z.to_nat (Z.abs RoundedFPS)).

(** How a run of [ComputeGridSpacing] ends: it returns, or the loop that
    builds the common bases never exits, or an integer division raises the
    divide error, or an array is read out of its bounds. *)
Inductive Run (A : Type) : Type :=
| Returns (a : A)
| NeverReturns
| DivideError
| OutOfBounds.
Arguments Returns {A} a.
Arguments NeverReturns {A}.
Arguments DivideError {A}.
Arguments OutOfBounds {A}.

(** The loop of lines 701 to 712 over [CommonBases[0 .. BaseIndex)];
    [wide_enough MinorDivisions] is the test of line 706. *)
Fixpoint FindMinorDivisions (Candidates : list Z) (Base MajorIntervalFrames : Z)
    (wide_enough : Z -> bool) (OutMinorDivisions : Z) : Run Z :=
  match Candidates with
  | [] => Returns OutMinorDivisions
  | CommonBase :: rest =>
      match int32_rem Base CommonBase with
      | None => DivideError
      | Some Remainder =>
          if Remainder =? 0 then
            match int32_div MajorIntervalFrames CommonBase with
            | None => DivideError
            | Some MinorDivisions =>
                if wide_enough MinorDivisions then Returns MinorDivisions
                else FindMinorDivisions rest Base MajorIntervalFrames wide_enough
                       OutMinorDivisions
            end
          else FindMinorDivisions rest Base MajorIntervalFrames wide_enough OutMinorDivisions
      end
  end.

(** The argument of [CeilToInt] in line 692: the quotient of two [float]s
    is a [float], its product with a [double] is a [double], and the
    argument of [CeilToInt] is a [float]. *)
Definition ScaleFloat (InFrameRate : FFrameRate) (PixelsPerSecond DesiredMajorTickPx : float)
    : float :=
  FPconv binary32
    (FPmul binary64 (FPdiv binary32 DesiredMajorTickPx PixelsPerSecond) (AsDecimal InFrameRate)).

(** [Scale] of line 692. *)
Definition ScaleOf (InFrameRate : FFrameRate) (PixelsPerSecond DesiredMajorTickPx : float) : Z :=
  CeilToInt (ScaleFloat InFrameRate PixelsPerSecond DesiredMajorTickPx).

(** Lines 693 and 694: the index and the value of the base. *)
Definition BaseIndexOf (CommonBases : list Z) (Scale : Z) : nat :=
  Nat.min (Algo.LowerBound CommonBases (fun x => x <? Scale)) (length CommonBases - 1).

(** Line 696: [Scale / float(Base)] is a division of [float]s. *)
Definition QuotientOf (Scale Base : Z) : float :=
  FPdiv binary32 (float_of_int32 Scale) (float_of_int32 Base).

Definition MajorIntervalFramesOf (Scale Base : Z) : Z :=
  int32_wrap (CeilToInt (QuotientOf Scale Base) * Base).

(** What [ComputeGridSpacing] computes, with the major interval in frames
    kept next to the outputs. *)
Record GridSpacing : Set := mkGridSpacing {
  MajorIntervalFrames : Z;
  OutMajorInterval : double;
  OutMinorDivisions : Z
}.

(** The body of [ComputeGridSpacing]. *)
Definition GridSpacingOf (InFrameRate : FFrameRate)
    (PixelsPerSecond MinTickPx DesiredMajorTickPx : float) : Run GridSpacing :=
  let RoundedFPS := RoundedFPSOf InFrameRate in
  match CommonBasesLoop (enough_rounds RoundedFPS) RoundedFPS [] with
  | None => NeverReturns
  | Some CommonBases =>
      let CommonBases := reverse CommonBases in
      let Scale := ScaleOf InFrameRate PixelsPerSecond DesiredMajorTickPx in
      let BaseIndex := BaseIndexOf CommonBases Scale in
      match CommonBases !! BaseIndex with
      | None => OutOfBounds
      | Some Base =>
          let MajorIntervalFrames := MajorIntervalFramesOf Scale Base in
          let OutMajorInterval :=
            FPmul binary64 (double_of_int32 MajorIntervalFrames) (AsInterval InFrameRate) in
          let wide_enough (MinorDivisions : Z) :=
            FPge (FPmul binary64
                    (FPdiv binary64 OutMajorInterval (double_of_int32 MinorDivisions))
                    PixelsPerSecond)
                 MinTickPx in
          match FindMinorDivisions (take BaseIndex CommonBases) Base MajorIntervalFrames
                  wide_enough MajorIntervalFrames with
          | Returns OutMinorDivisions =>
              Returns (mkGridSpacing MajorIntervalFrames OutMajorInterval OutMinorDivisions)
          | NeverReturns => NeverReturns
          | DivideError => DivideError
          | OutOfBounds => OutOfBounds
          end
      end
  end.

(** [ComputeGridSpacing]: the returned flag and the two output
    parameters. *)
Definition ComputeGridSpacing (InFrameRate : FFrameRate)
    (PixelsPerSecond MinTickPx DesiredMajorTickPx : float) : Run (bool * double * Z) :=
  match GridSpacingOf InFrameRate PixelsPerSecond MinTickPx DesiredMajorTickPx with
  | Returns g => Returns (FPne0 (OutMajorInterval g), OutMajorInterval g, OutMinorDivisions g)
  | NeverReturns => NeverReturns
  | DivideError => DivideError
  | OutOfBounds => OutOfBounds
  end.

(** Whether a run stays inside [int32]: the two conversions to [int32]
    (the scale of line 692 and the ceiling of line 696) are of values
    inside [int32], and the product of line 696 does not wrap around.
    This is not a value of the code; the properties below are stated with
    it. *)
Definition InRangeOf (ScaleF : float) (Scale Base : Z) : bool :=
  in_int32 (FPceil ScaleF)
  && in_int32 (FPceil (QuotientOf Scale Base))
  && (INT32_MIN <=? CeilToInt (QuotientOf Scale Base) * Base)
  && (CeilToInt (QuotientOf Scale Base) * Base <=? INT32_MAX).

Definition InRange (InFrameRate : FFrameRate) (PixelsPerSecond DesiredMajorTickPx : float)
    : bool :=
  let RoundedFPS := RoundedFPSOf InFrameRate in
  match CommonBasesLoop (enough_rounds RoundedFPS) RoundedFPS [] with
  | None => false
  | Some CommonBases =>
      let CommonBases := reverse CommonBases in
      let Scale := ScaleOf InFrameRate PixelsPerSecond DesiredMajorTickPx in
      match CommonBases !! BaseIndexOf CommonBases Scale with
      | None => false
      | Some Base =>
          InRangeOf (ScaleFloat InFrameRate PixelsPerSecond DesiredMajorTickPx) Scale Base
      end
  end.

(** The major interval in frames and the minor divisions of a run that
    returns. *)
Definition frames_and_divisions (r : Run GridSpacing) : option (Z * Z) :=
  match r with
  | Returns g => Some (MajorIntervalFrames g, OutMinorDivisions g)
  | _ => None
  end.

Example ComputeGridSpacing_30fps :
  frames_and_divisions
    (GridSpacingOf (mkFrameRate 30 1) (Finite (100 # 1)) (Finite (10 # 1)) (Finite (40 # 1)))
  = Some (15, 3).
Proof. vm_compute. reflexivity. Qed.

Example RoundedFPSOf_examples :
  RoundedFPSOf (mkFrameRate 30000 1001) = 30
  /\ RoundedFPSOf (mkFrameRate 1 3) = 0
  /\ RoundedFPSOf (mkFrameRate 1 0) = INT32_MIN
  /\ RoundedFPSOf (mkFrameRate 2147483647 1) = INT32_MIN.
Proof. repeat split; vm_compute; reflexivity. Qed.

(** The quotient of line 692 is rounded to a [float].  With
    [PixelsPerSecond] the [float] nearest to 5/3 and a desired width of 5
    pixels, [DesiredMajorTickPx / PixelsPerSecond] is 3, and at 24 frames
    per second the scale is 72 and the major interval 72 frames; the
    quotient of the two numbers, not rounded, times 24 is above 72. *)
Example ComputeGridSpacing_rounded_quotient :
  let PixelsPerSecond := round binary32 (5 # 3) in
  PixelsPerSecond = Finite (13981013 # 8388608)
  /\ FPdiv binary32 (Finite 5) PixelsPerSecond = Finite 3
  /\ ScaleOf (mkFrameRate 24 1) PixelsPerSecond (Finite 5) = 72
  /\ Qceiling (5 / (13981013 # 8388608) * 24) = 73
  /\ frames_and_divisions
       (GridSpacingOf (mkFrameRate 24 1) PixelsPerSecond (Finite (10 # 1)) (Finite 5))
     = Some (72, 72).
Proof. cbv zeta. repeat split; vm_compute; reflexivity. Qed.

(** The test of line 706 is made in [double]s.  At 49 frames per second
    and 49 pixels per second the major interval is 9 frames; nine minor
    divisions would be one pixel wide, but [OutMajorInterval / 9 * 49]
    comes out below 1 in [double]s, so with [MinTickPx] 1 the first
    candidate is refused and three divisions are returned. *)
Example ComputeGridSpacing_double_comparison :
  frames_and_divisions
    (GridSpacingOf (mkFrameRate 49 1) (Finite (49 # 1)) (Finite 1) (Finite (4 # 1)))
  = Some (9, 3)
  /\ FPge (FPmul binary64
             (FPdiv binary64
                (FPmul binary64 (double_of_int32 9) (AsInterval (mkFrameRate 49 1)))
                (double_of_int32 9))
             (Finite (49 # 1)))
          (Finite 1)
     = false.
Proof. split; vm_compute; reflexivity. Qed.

Example CommonBases_30 : CommonBasesLoop (enough_rounds 30) 30 [] = Some [30; 15; 5; 1].
Proof. reflexivity. Qed.

Example CommonBases_11 : CommonBasesLoop (enough_rounds 11) 11 [] = Some [11; 2; 1].
Proof. reflexivity. Qed.

(** *** The loop that builds the common bases *)

(** A case split on the innermost test of [LowestResultOf]. *)
Ltac split_lowest :=
  match goal with
  | |- context [if (0 <? ?r) && (?r <? ?l) then _ else _] =>
      lazymatch l with
      | context [if _ then _ else _] => fail
      | _ =>
          let H := fresh "Hc" in
          destruct ((0 <? r) && (r <? l)) eqn:H;
          [ apply andb_true_iff in H; destruct H as [?%Z.ltb_lt ?%Z.ltb_lt]
          | apply andb_false_iff in H; destruct H as [?%Z.ltb_ge | ?%Z.ltb_ge] ]
      end
  end.

Lemma LowestResultOf_range (b : Z) :
  LowestResultOf b = b \/ 0 < LowestResultOf b < b.
Proof.
  unfold LowestResultOf. cbn [fold_left]. repeat split_lowest. all: lia.
Qed.

Lemma quot_exact_pos (b d : Z) :
  0 < b -> 1 < d -> Z.rem b d = 0 -> 0 < Z.quot b d < b.
Proof.
  intros Hb Hd Hrem. pose proof (Z.quot_rem' b d) as Heq. rewrite Hrem in Heq. nia.
Qed.

Lemma quot_exact_neg (b d : Z) :
  b < 0 -> 1 < d -> Z.rem b d = 0 -> b < Z.quot b d < 0.
Proof.
  intros Hb Hd Hrem. pose proof (Z.quot_rem' b d) as Heq. rewrite Hrem in Heq. nia.
Qed.

(** From a positive base the next base is positive and strictly smaller. *)
Lemma NextBase_positive (b b' : Z) :
  0 < b -> NextBase b = Some b' -> 0 < b' < b.
Proof.
  intros Hb. unfold NextBase.
  destruct (Z.eqb_spec (Z.rem b 2) 0) as [H2 | H2];
    [intros [= <-]; apply quot_exact_pos; lia |].
  destruct (Z.eqb_spec (Z.rem b 3) 0) as [H3 | H3];
    [intros [= <-]; apply quot_exact_pos; lia |].
  destruct (Z.eqb_spec (Z.rem b 5) 0) as [H5 | H5];
    [intros [= <-]; apply quot_exact_pos; lia |].
  cbv zeta. destruct (Z.ltb_spec (LowestResultOf b) b) as [Hlt | Hge]; [| discriminate].
  intros [= <-]. pose proof (LowestResultOf_range b). lia.
Qed.

(** The loop stops at 1 and nowhere else among the positive bases. *)
Lemma NextBase_None_positive (b : Z) :
  0 < b -> (NextBase b = None <-> b = 1).
Proof.
  intros Hb. split; [| intros ->; reflexivity].
  unfold NextBase.
  destruct (Z.rem b 2 =? 0); [discriminate |].
  destruct (Z.rem b 3 =? 0); [discriminate |].
  destruct (Z.rem b 5 =? 0); [discriminate |].
  cbv zeta. destruct (Z.ltb_spec (LowestResultOf b) b) as [Hlt | Hge]; [discriminate |].
  intros _.
  destruct (Z.eq_dec b 1) as [-> | Hne]; [reflexivity |]. exfalso.
  assert (Hq : 0 < Z.quot b 2 < b).
  { rewrite Z.quot_div_nonneg by lia. split.
    - apply Z.div_str_pos. lia.
    - apply Z.div_lt; lia. }
  revert Hge. unfold LowestResultOf. cbn [fold_left].
  repeat split_lowest. all: lia.
Qed.

Lemma NextBase_negative (b b' : Z) :
  b < 0 -> NextBase b = Some b' -> b < b' < 0.
Proof.
  intros Hb. unfold NextBase.
  destruct (Z.eqb_spec (Z.rem b 2) 0) as [H2 | H2];
    [intros [= <-]; apply quot_exact_neg; lia |].
  destruct (Z.eqb_spec (Z.rem b 3) 0) as [H3 | H3];
    [intros [= <-]; apply quot_exact_neg; lia |].
  destruct (Z.eqb_spec (Z.rem b 5) 0) as [H5 | H5];
    [intros [= <-]; apply quot_exact_neg; lia |].
  cbv zeta. destruct (Z.ltb_spec (LowestResultOf b) b) as [Hlt | Hge]; [| discriminate].
  pose proof (LowestResultOf_range b). lia.
Qed.

(** The bases the loop adds from [b] on, when it exits. *)
Inductive Chain : Z -> list Z -> Prop :=
| Chain_break (b : Z) : NextBase b = None -> Chain b [b]
| Chain_next (b b' : Z) (l : list Z) : NextBase b = Some b' -> Chain b' l -> Chain b (b :: l).

(** Every base but zero leads to the [break]. *)
Lemma Chain_exists (n : nat) :
  forall b, b <> 0 -> (Z.abs b <= Z.of_nat n) -> exists l, Chain b l /\ (length l <= n)%nat.
Proof.
  induction n as [| n IH]; intros b Hb Hn; [lia |].
  destruct (NextBase b) as [b' |] eqn:Hnext.
  - assert (Hb' : b' <> 0 /\ Z.abs b' < Z.abs b).
    { destruct (Z.lt_trichotomy b 0) as [Hneg | [Hz | Hpos]]; [| contradiction |].
      - pose proof (NextBase_negative b b' Hneg Hnext). lia.
      - pose proof (NextBase_positive b b' Hpos Hnext). lia. }
    destruct (IH b' (proj1 Hb') ltac:(lia)) as (l & Hl & Hlen).
    exists (b :: l). split; [exact (Chain_next b b' l Hnext Hl) | cbn; lia].
  - exists [b]. split; [exact (Chain_break b Hnext) | cbn; lia].
Qed.

Lemma CommonBasesLoop_Chain (b : Z) (l : list Z) :
  Chain b l ->
  forall rounds acc, (length l <= rounds)%nat ->
                     CommonBasesLoop rounds b acc = Some (acc ++ l).
Proof.
  induction 1 as [b Hnone | b b' l Hnext Hchain IH]; intros rounds acc Hlen;
    (destruct rounds as [| rounds]; [cbn in Hlen; lia |]); cbn [CommonBasesLoop].
  - rewrite Hnone. reflexivity.
  - rewrite Hnext. rewrite IH by (cbn in Hlen; lia). rewrite <- app_assoc. reflexivity.
Qed.

(** With a base of zero the loop never reaches the [break]. *)
Lemma CommonBasesLoop_zero_never_exits (rounds : nat) :
  forall acc, CommonBasesLoop rounds 0 acc = None.
Proof.
  induction rounds as [| rounds IH]; intros acc; [reflexivity |].
  cbn [CommonBasesLoop]. change (NextBase 0) with (Some 0). apply IH.
Qed.

(** What a chain from a positive base looks like: positive bases, each
    strictly below the one before, the first being [b] and the last 1. *)
Lemma Chain_positive (b : Z) (l : list Z) :
  Chain b l -> 0 < b ->
  head l = Some b
  /\ last l = Some 1
  /\ (forall x, In x l -> 0 < x <= b)
  /\ (forall i j x y, (i < j)%nat -> l !! i = Some x -> l !! j = Some y -> y < x).
Proof.
  induction 1 as [b Hnone | b b' l Hnext Hchain IH]; intros Hb.
  - apply NextBase_None_positive in Hnone; [| exact Hb]. subst b.
    split; [reflexivity |]. split; [reflexivity |]. split.
    + intros x [<- | []]. lia.
    + intros i j x y Hij Hx Hy. destruct j as [| j]; [lia |]. discriminate.
  - pose proof (NextBase_positive b b' Hb Hnext) as Hb'.
    destruct (IH ltac:(lia)) as (Hhead & Hlast & Hall & Hdesc).
    split; [reflexivity |]. split.
    + destruct l as [| x l]; [discriminate |]. rewrite last_cons, Hlast. reflexivity.
    + split.
      * intros x [<- | Hin]; [lia |]. pose proof (Hall x Hin). lia.
      * intros i j x y Hij Hx Hy. destruct j as [| j]; [lia |]. cbn in Hy.
        destruct i as [| i]; cbn in Hx.
        -- injection Hx as <-.
           assert (Hin : In y l) by (apply list_elem_of_In; eapply list_elem_of_lookup_2; exact Hy).
           pose proof (Hall y Hin). lia.
        -- exact (Hdesc i j x y ltac:(lia) Hx Hy).
Qed.

Lemma CommonBasesLoop_exits (RoundedFPS : Z) :
  RoundedFPS <> 0 ->
  exists CommonBases,
    Chain RoundedFPS CommonBases
    /\ forall rounds, (enough_rounds RoundedFPS <= rounds)%nat ->
                      CommonBasesLoop rounds RoundedFPS [] = Some CommonBases.
Proof.
  intros Hnz.
  destruct (Chain_exists (Z.to_nat (Z.abs RoundedFPS)) RoundedFPS Hnz ltac:(lia))
    as (l & Hchain & Hlen).
  exists l. split; [exact Hchain |].
  intros rounds Hrounds. unfold enough_rounds in Hrounds.
  rewrite (CommonBasesLoop_Chain _ _ Hchain rounds []) by lia. reflexivity.
Qed.



(** The loop over the candidates is bounded: it returns or a division
    fails. *)
Lemma FindMinorDivisions_ends (Candidates : list Z) (Base MajorIntervalFrames : Z)
    (wide_enough : Z -> bool) (OutMinorDivisions : Z) :
  FindMinorDivisions Candidates Base MajorIntervalFrames wide_enough OutMinorDivisions
  <> NeverReturns.
Proof.
  induction Candidates as [| c rest IH]; cbn [FindMinorDivisions]; [discriminate |].
  destruct (int32_rem Base c) as [r |]; [| discriminate].
  destruct (r =? 0); [| exact IH].
  destruct (int32_div MajorIntervalFrames c) as [m |]; [| discriminate].
  destruct (wide_enough m); [discriminate | exact IH].
Qed.

(** C10 (as amended).  The loop that builds the common bases exits exactly
    for the frame rates that round to an integer other than zero.  From a
    positive base the next base is positive and strictly smaller (the
    quotient by 2, 3 or 5, or the smallest positive truncated quotient),
    until 1 is reached, where no denominator gives a smaller positive
    quotient.  From a negative base the next base is negative and strictly
    nearer to zero, so the loop exits as well: a positive rounded rate is
    not necessary.  A rounded rate other than zero is: with a frame rate
    that rounds to zero the loop never reaches its exit (0 is divisible by
    2 and 0/2 is 0 again), whatever the number of passes, and
    [ComputeGridSpacing] does not return. *)
Theorem CommonBasesLoop_exits_iff_nonzero :
  (forall RoundedFPS,
     (exists rounds CommonBases, CommonBasesLoop rounds RoundedFPS [] = Some CommonBases)
     <-> RoundedFPS <> 0)
  /\ (forall RoundedFPS, RoundedFPS <> 0 ->
        exists CommonBases,
          forall rounds, (enough_rounds RoundedFPS <= rounds)%nat ->
                         CommonBasesLoop rounds RoundedFPS [] = Some CommonBases)
  /\ (forall RoundedFPS, 0 < RoundedFPS ->
        exists CommonBases,
          (forall rounds, (enough_rounds RoundedFPS <= rounds)%nat ->
             CommonBasesLoop rounds RoundedFPS [] = Some CommonBases)
          /\ head CommonBases = Some RoundedFPS
          /\ last CommonBases = Some 1
          /\ (forall x, In x CommonBases -> 0 < x <= RoundedFPS)
          /\ (forall i j x y, (i < j)%nat ->
                CommonBases !! i = Some x -> CommonBases !! j = Some y -> y < x))
  /\ (forall b b', 0 < b -> NextBase b = Some b' -> 0 < b' < b)
  /\ (forall b, 0 < b -> (NextBase b = None <-> b = 1))
  /\ (forall b b', b < 0 -> NextBase b = Some b' -> b < b' < 0)
  /\ NextBase 0 = Some 0
  /\ (forall rounds CommonBases, CommonBasesLoop rounds 0 CommonBases = None)
  /\ (forall InFrameRate PixelsPerSecond MinTickPx DesiredMajorTickPx,
        RoundedFPSOf InFrameRate = 0 <->
        ComputeGridSpacing InFrameRate PixelsPerSecond MinTickPx DesiredMajorTickPx
        = NeverReturns).
Proof.
  split.
  { intros fps. split.
    - intros (rounds & l & Hrun) ->. rewrite CommonBasesLoop_zero_never_exits in Hrun.
      discriminate.
    - intros Hnz. destruct (CommonBasesLoop_exits fps Hnz) as (l & _ & Hrun).
      exists (enough_rounds fps), l. apply Hrun. lia. }
  split.
  { intros fps Hnz. destruct (CommonBasesLoop_exits fps Hnz) as (l & _ & Hrun).
    exists l. exact Hrun. }
  split.
  { intros fps Hpos.
    destruct (CommonBasesLoop_exits fps ltac:(lia)) as (l & Hchain & Hrun).
    exists l. split; [exact Hrun |]. exact (Chain_positive fps l Hchain Hpos). }
  split; [exact NextBase_positive |].
  split; [exact NextBase_None_positive |].
  split; [exact NextBase_negative |].
  split; [reflexivity |].
  split; [exact CommonBasesLoop_zero_never_exits |].
  intros fr pps mt d. unfold ComputeGridSpacing, GridSpacingOf. cbv zeta. split.
  - intros Hzero. rewrite Hzero, CommonBasesLoop_zero_never_exits. reflexivity.
  - intros Hrun.
    destruct (Z.eq_dec (RoundedFPSOf fr) 0) as [Hz | Hnz]; [exact Hz | exfalso].
    destruct (CommonBasesLoop_exits _ Hnz) as (l & _ & Hl).
    rewrite (Hl _ (Nat.le_refl _)) in Hrun.
    destruct (reverse l !! _) as [Base |]; [| discriminate].
    match type of Hrun with
    | context [FindMinorDivisions ?c ?b ?m ?w ?o] =>
        pose proof (FindMinorDivisions_ends c b m w o) as Hf;
        destruct (FindMinorDivisions c b m w o)
    end; try discriminate. apply Hf. reflexivity.
Qed.

Lemma CommonBasesLoop_exits_iff_nonzero_witness :
  CommonBasesLoop (enough_rounds 30) 30 [] = Some [30; 15; 5; 1]
  /\ NextBase 7 = Some 1
  /\ CommonBasesLoop 1000 0 [] = None.
Proof.
  destruct CommonBasesLoop_exits_iff_nonzero
    as (_ & _ & Hexit & Hstep & _ & _ & _ & Hzero & _).
  destruct (Hexit 30 ltac:(lia)) as (l & Hrun & _).
  split; [| split; [reflexivity | apply Hzero]].
  rewrite (Hrun _ (Nat.le_refl _)).
  pose proof (Hrun _ (Nat.le_refl _)) as Hl. vm_compute in Hl. injection Hl as <-. reflexivity.
Defined.

(** A rounded rate that is not positive and for which the loop exits: at
    [-30] the bases are [-30], [-15], [-5] and [-1], and
    [ComputeGridSpacing] returns. *)
Lemma CommonBasesLoop_exits_at_negative_rate :
  RoundedFPSOf (mkFrameRate (-30) 1) = -30
  /\ ~ 0 < RoundedFPSOf (mkFrameRate (-30) 1)
  /\ CommonBasesLoop (enough_rounds (-30)) (-30) [] = Some [-30; -15; -5; -1]
  /\ (exists r,
        ComputeGridSpacing (mkFrameRate (-30) 1) (Finite (100 # 1)) (Finite (10 # 1))
          (Finite (40 # 1))
        = Returns r).
Proof.
  split; [vm_compute; reflexivity |].
  split; [vm_compute; discriminate |].
  split; [vm_compute; reflexivity |].
  eexists. vm_compute. reflexivity.
Qed.

(** *** Conversions *)











(** *** The quotient of line 696 *)





(** *** The major interval *)




Section MajorInterval.

Variable CommonBases : list Z.
Hypothesis nonempty : (0 < length CommonBases)%nat.
Hypothesis positive : forall i x, CommonBases !! i = Some x -> 0 < x.
Hypothesis bounded : forall i x, CommonBases !! i = Some x -> x <= INT32_MAX.
Hypothesis ascending :
  forall i j x y, (i < j)%nat ->
    CommonBases !! i = Some x -> CommonBases !! j = Some y -> x < y.





End MajorInterval.

(** *** The rounded rate and the scale *)



(** *** The minor divisions *)


(** *** Runs that stay inside [int32] *)





(** *** The grid spacing at two zoom levels *)




(** A low zoom level whose scale does not fit [int32]: at 30 frames per
    second and a desired width of 40 pixels, [2^-27] pixels per second give
    a major interval of [INT32_MIN] frames, 100 pixels per second one of 15
    frames.  More pixels per second gave the larger interval. *)
Lemma ComputeGridSpacing_scale_out_of_int32 :
  let Low := GridSpacingOf (mkFrameRate 30 1) (Finite (1 # 134217728)) (Finite (10 # 1))
               (Finite (40 # 1)) in
  let High := GridSpacingOf (mkFrameRate 30 1) (Finite (100 # 1)) (Finite (10 # 1))
                (Finite (40 # 1)) in
  (exists g, Low = Returns g /\ MajorIntervalFrames g = -2147483648
             /\ OutMinorDivisions g = -2147483648)
  /\ InRange (mkFrameRate 30 1) (Finite (1 # 134217728)) (Finite (40 # 1)) = false
  /\ (exists g, High = Returns g /\ MajorIntervalFrames g = 15 /\ OutMinorDivisions g = 3)
  /\ ScaleFloat (mkFrameRate 30 1) (Finite (1 # 134217728)) (Finite (40 # 1))
     = Finite (161061273600 # 1).
Proof.
  cbv zeta. split; [| split; [| split]].
  - eexists. split; [vm_compute; reflexivity |]. repeat split.
  - vm_compute. reflexivity.
  - eexists. split; [vm_compute; reflexivity |]. repeat split.
  - vm_compute. reflexivity.
Qed.

(** A run whose scale is an [int32] and whose product in line 696 is not:
    at 1000 frames per second and one pixel per second, a desired width of
    2147483.5 pixels gives the scale 2147483520, the quotient 2147483.5
    with the ceiling 2147484, and the product with the base 1000 wraps
    around to a negative major interval. *)
Lemma ComputeGridSpacing_product_out_of_int32 :
  ScaleOf (mkFrameRate 1000 1) (Finite 1) (Finite (4294967 # 2)) = 2147483520
  /\ CeilToInt (QuotientOf 2147483520 1000) = 2147484
  /\ MajorIntervalFramesOf 2147483520 1000 = -2147483296
  /\ (exists g,
        GridSpacingOf (mkFrameRate 1000 1) (Finite 1) (Finite (10 # 1)) (Finite (4294967 # 2))
        = Returns g
        /\ MajorIntervalFrames g = -2147483296)
  /\ InRange (mkFrameRate 1000 1) (Finite 1) (Finite (4294967 # 2)) = false.
Proof.
  split; [vm_compute; reflexivity |]. split; [vm_compute; reflexivity |].
  split; [vm_compute; reflexivity |].
  split; [| vm_compute; reflexivity].
  eexists. split; [vm_compute; reflexivity |]. reflexivity.
Qed.

(** *** Any arguments *)



End AnimTimeline.
